(** * 0xSS7: the SCTP scanner and the M3UA ASPUP builder

    A shallow embedding of [SCTP/connect.py] ([build_m3ua_aspup]) and of
    [SCTP/scan.py] ([scan_sctp]), with the properties of the scanning
    engine stated over it.

    The embedding:
    - [Struct]   : [struct.pack] for the format characters the code uses.
    - [Connect]  : [build_m3ua_aspup].
    - [Producer] : the generator expression [tasks] of [scan_sctp].
    - [Scan]     : the event loop of [scan_sctp] as a transition system over
                   an explicit environment (sockets, selector, clock).

    The properties:
    - [ConnectFacts]  : the bytes of the ASPUP message.
    - [ProducerFacts] : the order of the targets.
    - [DictFacts]     : dictionaries and the selector.
    - [ScanFacts]     : invariants of the event loop, its termination, the
                        role of the clock and of the admission bound, and
                        concrete scans. *)

From Stdlib Require Import ZArith List Bool Arith Lia Permutation.
From Stdlib Require Import Strings.Byte.
From Stdlib Require Strings.String Strings.Ascii.
From Stdlib Require Import Sorting.Sorted.
Import ListNotations.

Set Implicit Arguments.

(* ================================================================== *)
(** ** [struct.pack] with network byte order                           *)
(* ================================================================== *)

Module Struct.

Local Open Scope Z_scope.

(** The format characters that occur in ["!BBBBI"]. *)
Inductive fmt_char : Type :=
| FmtB   (* unsigned char, 1 byte *)
| FmtI.  (* unsigned int, 4 bytes in standard size *)

(** Bytes of the standard size of a format character. *)
Definition size_of (c : fmt_char) : nat :=
  match c with FmtB => 1%nat | FmtI => 4%nat end.

Definition byte_of_Z (v : Z) : byte :=
  match Byte.of_N (Z.to_N (v mod 256)) with
  | Some b => b
  | None => x00
  end.

Definition Z_of_byte (b : byte) : Z := Z.of_N (Byte.to_N b).

(** Big-endian bytes of [v] on [n] bytes, most significant first. *)
Fixpoint be_bytes (n : nat) (v : Z) : list byte :=
  match n with
  | O => []
  | S n' => byte_of_Z (Z.shiftr v (8 * Z.of_nat n')) :: be_bytes n' v
  end.

(** Big-endian value of a byte string. *)
Definition be_value (bs : list byte) : Z :=
  fold_left (fun acc b => Z.lor (Z.shiftl acc 8) (Z_of_byte b)) bs 0.

(** One argument: [struct.error] ([None]) when it is out of range. *)
Definition pack_one (c : fmt_char) (v : Z) : option (list byte) :=
  if (0 <=? v) && (v <? 2 ^ (8 * Z.of_nat (size_of c)))
  then Some (be_bytes (size_of c) v)
  else None.

(** [struct.pack("!" ++ fmt, *vs)]: as many arguments as format
    characters, no padding in network order. *)
Fixpoint pack (fmt : list fmt_char) (vs : list Z) : option (list byte) :=
  match fmt, vs with
  | [], [] => Some []
  | c :: fmt', v :: vs' =>
      match pack_one c v, pack fmt' vs' with
      | Some bs, Some rest => Some (bs ++ rest)
      | _, _ => None
      end
  | _, _ => None
  end.

End Struct.

(* ================================================================== *)
(** ** [connect.py]: the ASPUP message                                 *)
(* ================================================================== *)

Module Connect.

Import Struct.
Local Open Scope Z_scope.

Definition build_m3ua_aspup : option (list byte) :=
  let version := 0x01 in
  let reserved := 0x00 in
  let msg_class := 0x03 in
  let msg_type := 0x01 in
  let length := 8 in
  let header :=
    pack [FmtB; FmtB; FmtB; FmtB; FmtI]
         [version; reserved; msg_class; msg_type; length] in
  header.

End Connect.

(* ================================================================== *)
(** ** The target sequence of [scan_sctp]                              *)
(* ================================================================== *)

Module Producer.

Section Gen.

(** Hosts are the strings of [ips], ports the integers of [ports];
    the generator does not look inside either. *)
Variables host port : Type.

Definition target : Type := (host * port)%type.

(** A suspended [((ip, port) for ip in ips for port in ports)]: the
    outer iterator, the host of the running inner loop with its
    iterator, and the list [ports] the inner loop restarts from. *)
Record gen : Type := mkGen {
  outer : list host;
  inner : option (host * list port);
  all_ports : list port
}.

(** The generator object before its first [next]. *)
Definition tasks (ips : list host) (ports : list port) : gen :=
  mkGen ips None ports.

(** Advance the outer loop until an inner loop yields. *)
Fixpoint advance (hs : list host) (ports : list port)
  : option (target * gen) :=
  match hs with
  | [] => None
  | h :: hs' =>
      match ports with
      | [] => advance hs' ports
      | p :: ps => Some ((h, p), mkGen hs' (Some (h, ps)) ports)
      end
  end.

(** [next(tasks)]: [None] is [StopIteration]. *)
Definition next (g : gen) : option (target * gen) :=
  match inner g with
  | Some (h, p :: ps) =>
      Some ((h, p), mkGen (outer g) (Some (h, ps)) (all_ports g))
  | _ => advance (outer g) (all_ports g)
  end.

(** What the generator will still yield. *)
Definition remaining (g : gen) : list target :=
  match inner g with
  | Some (h, ps) => map (pair h) ps
  | None => []
  end
  ++ flat_map (fun h => map (pair h) (all_ports g)) (outer g).

(** The first [n] calls of [next]: the items yielded and the
    generator left. *)
Fixpoint take_next (n : nat) (g : gen) : list target * gen :=
  match n with
  | O => ([], g)
  | S n' =>
      match next g with
      | None => ([], g)
      | Some (t, g') =>
          let (ts, g'') := take_next n' g' in (t :: ts, g'')
      end
  end.

End Gen.

End Producer.

(* ================================================================== *)
(** ** [scan.py]: the event loop of [scan_sctp]                        *)
(* ================================================================== *)

Module Scan.

Import Producer.
Local Open Scope Z_scope.

(** Socket objects, numbered in the order [socket.socket] creates them
    (a Python object is its own dictionary key). *)
Definition handle : Type := nat.

(** ** Dictionaries and the selector *)

Section Dict.

Variable V : Type.

(** A Python [dict] keyed by sockets: insertion ordered. *)
Definition dict : Type := list (handle * V).

Definition dict_keys (d : dict) : list handle := map fst d.

(** [d[k] = v]: a present key keeps its place, a new one goes last. *)
Fixpoint dict_set (k : handle) (v : V) (d : dict) : dict :=
  match d with
  | [] => [(k, v)]
  | (k', v') :: d' =>
      if Nat.eqb k k' then (k, v) :: d' else (k', v') :: dict_set k v d'
  end.

(** [d.pop(k)]: [None] is [KeyError]. *)
Fixpoint dict_pop (k : handle) (d : dict) : option (V * dict) :=
  match d with
  | [] => None
  | (k', v') :: d' =>
      if Nat.eqb k k' then Some (v', d')
      else match dict_pop k d' with
           | Some (v, d'') => Some (v, (k', v') :: d'')
           | None => None
           end
  end.

End Dict.

Definition mem (h : handle) (l : list handle) : bool :=
  existsb (Nat.eqb h) l.

Fixpoint remove_first (h : handle) (l : list handle) : list handle :=
  match l with
  | [] => []
  | x :: l' => if Nat.eqb h x then l' else x :: remove_first h l'
  end.

(** [selector.register(sock, EVENT_WRITE)]: [None] is the [KeyError] of
    a socket registered twice. *)
Definition sel_register (h : handle) (reg : list handle)
  : option (list handle) :=
  if mem h reg then None else Some (reg ++ [h]).

(** [selector.unregister(sock)]: [None] is [KeyError]. *)
Definition sel_unregister (h : handle) (reg : list handle)
  : option (list handle) :=
  if mem h reg then Some (remove_first h reg) else None.

Fixpoint dedup (l : list handle) : list handle :=
  match l with
  | [] => []
  | x :: l' => if mem x l' then dedup l' else x :: dedup l'
  end.

(** [selector.select]: of the sockets the system reports writable, those
    that are registered, each once, in the order reported. *)
Definition sel_select (reg : list handle) (reported : list handle)
  : list handle :=
  dedup (filter (fun h => mem h reg) reported).

(** ** The engine *)

Inductive exn : Type :=
| OSError
| OverflowError
| TypeError
| KeyError.

(** [sock.connect_ex((ip, port))]: it returns an error number, which the
    code ignores, or it raises before any connection is started:
    [TypeError] for a host text with a null character, [OverflowError]
    for a port outside 0..65535, [socket.gaierror] (an [OSError]) for a
    host that is no IPv4 address and cannot be resolved. *)
Inductive connect_call : Type :=
| Returns
| NullInHost
| BadPort
| BadHost.

Definition connect_exn (c : connect_call) : option exn :=
  match c with
  | Returns => None
  | NullInHost => Some TypeError
  | BadPort => Some OverflowError
  | BadHost => Some OSError
  end.

Inductive resolution : Type :=
| Success
| Failure (err : Z)
| Timeout.

Section Engine.

Variables host port : Type.

Local Abbreviation target := (Producer.target host port).

(** The tuple [(ip, port, time.time())] stored in [in_flight].
    [a_read] is a ghost component, the number of the clock reading
    that gave [a_start]; the transitions never test it. *)
Record attempt : Type := mkAttempt {
  a_ip : host;
  a_port : port;
  a_start : Z;
  a_read : nat
}.

Definition target_of (a : attempt) : target := (a_ip a, a_port a).

(** What the scan does not control; the sockets are numbered in the
    order of their creation and the readings of the clock in the order
    taken. The values of [time.time()] and [timeout] are floats, which
    are all multiples of one power of two: times are integers in that
    unit. The difference [now - start] is taken as exact, which it is
    for two floats within a factor two of each other, as two readings
    of one clock are.
    [socket_ok] is for the failures of [socket.socket] that come with
    the socket (no SCTP in the kernel, no buffers); [max_open] is the
    number of sockets the process can hold open at once, beyond which
    [socket.socket] fails with [EMFILE] ([None]: no such bound).
    [connect_ex h] is what the call does on the socket [h], whose
    target is the [h]-th of the sequence. *)
Record env : Type := mkEnv {
  selector_ok : bool;            (* [DefaultSelector()] succeeds *)
  socket_ok : handle -> bool;    (* [socket.socket(...)] succeeds *)
  register_ok : handle -> bool;  (* [selector.register] succeeds *)
  wall : nat -> Z;               (* n-th value of [time.time()] *)
  mono : nat -> Z;               (* the monotonic clock at that instant *)
  reported : nat -> list handle; (* writable at the n-th [select] *)
  so_error : handle -> Z;        (* [getsockopt(SOL_SOCKET, SO_ERROR)] *)
  connect_ex : handle -> connect_call;  (* [sock.connect_ex(...)] *)
  max_open : option nat          (* descriptors left for the sockets *)
}.

(** Where the control is in the body of [scan_sctp]. *)
Inductive control : Type :=
| AtRefill                                     (* [while len(in_flight) < concurrency] *)
| AtPoll                                       (* [if not in_flight] *)
| AtReady (events : list handle) (now : Z)     (* [for key, _ in events] *)
| AtSweep (items : list (handle * attempt)) (now : Z)
                                               (* [for sock, ... in list(in_flight.items())] *)
| Returned                                     (* [return results] *)
| Raised (e : exn).

Record state : Type := mkState {
  pc : control;
  tasks : gen host port;
  in_flight : dict attempt;
  results : list target;
  registered : list handle;          (* the selector's map *)
  opened : nat;                      (* sockets created *)
  closed : list handle;              (* [sock.close()] calls, in order *)
  reads : nat;                       (* [time.time()] calls *)
  polls : nat;                       (* [selector.select] calls *)
  advanced : nat;                    (* [prog.update(advance=1)] calls *)
  admitted : list (handle * target); (* ghost: insertions into [in_flight] *)
  log : list (handle * target * resolution)  (* ghost: resolutions *)
}.

Definition goto (p : control) (s : state) : state :=
  mkState p (tasks s) (in_flight s) (results s) (registered s)
          (opened s) (closed s) (reads s) (polls s) (advanced s)
          (admitted s) (log s).

Definition set_tasks (g : gen host port) (s : state) : state :=
  mkState (pc s) g (in_flight s) (results s) (registered s)
          (opened s) (closed s) (reads s) (polls s) (advanced s)
          (admitted s) (log s).

Definition set_in_flight (d : dict attempt) (s : state) : state :=
  mkState (pc s) (tasks s) d (results s) (registered s)
          (opened s) (closed s) (reads s) (polls s) (advanced s)
          (admitted s) (log s).

Definition set_registered (r : list handle) (s : state) : state :=
  mkState (pc s) (tasks s) (in_flight s) (results s) r
          (opened s) (closed s) (reads s) (polls s) (advanced s)
          (admitted s) (log s).

Definition socket_created (s : state) : state :=
  mkState (pc s) (tasks s) (in_flight s) (results s) (registered s)
          (S (opened s)) (closed s) (reads s) (polls s) (advanced s)
          (admitted s) (log s).

Definition close_sock (h : handle) (s : state) : state :=
  mkState (pc s) (tasks s) (in_flight s) (results s) (registered s)
          (opened s) (closed s ++ [h]) (reads s) (polls s) (advanced s)
          (admitted s) (log s).

Section Body.

Variable E : env.
Variables concurrency timeout : Z.

(** The state after [selector = ...; results = []; in_flight = {};
    tasks = (...)]. *)
Definition init (ips : list host) (ports : list port) : state :=
  mkState (if selector_ok E then AtRefill else Raised OSError)
          (Producer.tasks ips ports) [] [] [] 0%nat [] 0%nat 0%nat 0%nat
          [] [].

(** The sockets created and not closed. *)
Definition open_sockets (s : state) : nat :=
  (opened s - length (closed s))%nat.

(** Whether the process can hold one more socket. *)
Definition can_open (s : state) : bool :=
  match max_open E with
  | Some limit => Nat.ltb (open_sockets s) limit
  | None => true
  end.

(** One turn of the refill loop with [next(tasks)] = [(ip, port)]:
    [socket.socket], [connect_ex], [selector.register] and the
    assignment to [in_flight], none of them inside a handler that
    would catch what it raises. *)
Definition kick_off (t : target) (g : gen host port) (s : state) : state :=
  let s := set_tasks g s in
  if socket_ok E (opened s) && can_open s then
    let sock := opened s in
    let s := socket_created s in
    match connect_exn (connect_ex E sock) with
    | Some e => goto (Raised e) s
    | None =>
        if register_ok E sock then
          match sel_register sock (registered s) with
          | None => goto (Raised KeyError) s
          | Some reg =>
              let a :=
                mkAttempt (fst t) (snd t) (wall E (reads s)) (reads s) in
              mkState AtRefill (tasks s)
                      (dict_set sock a (in_flight s))
                      (results s) reg (opened s) (closed s)
                      (S (reads s)) (polls s) (advanced s)
                      (admitted s ++ [(sock, t)]) (log s)
          end
        else goto (Raised OSError) s
    end
  else goto (Raised OSError) s.

(** [events = selector.select(timeout=0.1); now = time.time()]. *)
Definition poll (s : state) : state :=
  let events := sel_select (registered s) (reported E (polls s)) in
  let now := wall E (reads s) in
  mkState (AtReady events now) (tasks s) (in_flight s) (results s)
          (registered s) (opened s) (closed s)
          (S (reads s)) (S (polls s)) (advanced s)
          (admitted s) (log s).

(** The body of [for key, _ in events] for one key. *)
Definition handle_ready (h : handle) (events : list handle) (now : Z)
           (s : state) : state :=
  match dict_pop h (in_flight s) with
  | None => goto (Raised KeyError) s
  | Some (a, d) =>
      let s := set_in_flight d s in
      match sel_unregister h (registered s) with
      | None => goto (Raised KeyError) s
      | Some reg =>
          let err := so_error E h in
          mkState (AtReady events now) (tasks s) (in_flight s)
                  (if err =? 0 then results s ++ [target_of a]
                   else results s)
                  reg (opened s) (closed s ++ [h])
                  (reads s) (polls s) (S (advanced s))
                  (admitted s)
                  (log s ++ [(h, target_of a,
                              if err =? 0 then Success else Failure err)])
      end
  end.

(** The body of the [if now - start >= timeout] of the sweep. *)
Definition expire (h : handle) (a : attempt)
           (items : list (handle * attempt)) (now : Z)
           (s : state) : state :=
  match sel_unregister h (registered s) with
  | None => goto (Raised KeyError) s
  | Some reg =>
      let s := close_sock h (set_registered reg s) in
      match dict_pop h (in_flight s) with
      | None => goto (Raised KeyError) s
      | Some (_, d) =>
          mkState (AtSweep items now) (tasks s) d (results s)
                  (registered s) (opened s) (closed s)
                  (reads s) (polls s) (S (advanced s))
                  (admitted s)
                  (log s ++ [(h, target_of a, Timeout)])
      end
  end.

Definition step (s : state) : state :=
  match pc s with
  | AtRefill =>
      if Z.of_nat (length (in_flight s)) <? concurrency then
        match next (tasks s) with
        | Some (t, g) => kick_off t g s
        | None => goto AtPoll s          (* [except StopIteration] *)
        end
      else goto AtPoll s
  | AtPoll =>
      match in_flight s with
      | [] => goto Returned s            (* [break] *)
      | _ :: _ => poll s
      end
  | AtReady [] now => goto (AtSweep (in_flight s) now) s
  | AtReady (h :: events) now => handle_ready h events now s
  | AtSweep [] now => goto AtRefill s
  | AtSweep ((h, a) :: items) now =>
      if timeout <=? now - a_start a
      then expire h a items now s
      else goto (AtSweep items now) s
  | Returned => s
  | Raised _ => s
  end.

Fixpoint run (n : nat) (s : state) : state :=
  match n with
  | O => s
  | S n' => run n' (step s)
  end.

Inductive outcome : Type :=
| Result (rs : list target)
| Exception (e : exn)
| Running.

Definition outcome_of (s : state) : outcome :=
  match pc s with
  | Returned => Result (results s)
  | Raised e => Exception e
  | _ => Running
  end.

(** [scan_sctp(ips, ports, concurrency, timeout)], cut after [fuel]
    transitions. *)
Definition scan_sctp (fuel : nat) (ips : list host) (ports : list port)
  : outcome :=
  outcome_of (run fuel (init ips ports)).

End Body.

End Engine.

Arguments AtRefill {host port}.
Arguments AtPoll {host port}.
Arguments AtReady {host port} events now.
Arguments AtSweep {host port} items now.
Arguments Returned {host port}.
Arguments Raised {host port} e.

End Scan.

(* ================================================================== *)
(** * Properties                                                       *)
(* ================================================================== *)

(** ** The ASPUP message *)

Module ConnectFacts.

Import Struct Connect.
Local Open Scope Z_scope.

Lemma be_bytes_length (n : nat) (v : Z) : length (be_bytes n v) = n.
Proof. induction n as [|n IH]; simpl; [reflexivity | now rewrite IH]. Qed.

Lemma pack_one_length (c : fmt_char) (v : Z) (bs : list byte) :
  pack_one c v = Some bs -> length bs = size_of c.
Proof.
  unfold pack_one. destruct (_ && _); [|discriminate].
  intros [= <-]. apply be_bytes_length.
Qed.

(** C10. [build_m3ua_aspup] returns (it does not raise [struct.error])
    the eight bytes 01 00 03 01 00 00 00 08: version 1, reserved 0,
    class 3 (ASPSM), type 1 (ASPUP), then the length on four bytes, most
    significant first, whose value 8 is the length of the message. *)
Theorem build_m3ua_aspup_header :
  exists msg : list byte,
    build_m3ua_aspup = Some msg /\
    msg = [x01; x00; x03; x01; x00; x00; x00; x08] /\
    length msg = 8%nat /\
    map Z_of_byte (firstn 4 msg) = [0x01; 0x00; 0x03; 0x01] /\
    be_value (skipn 4 msg) = 8 /\
    be_value (skipn 4 msg) = Z.of_nat (length msg).
Proof.
  exists [x01; x00; x03; x01; x00; x00; x00; x08].
  repeat split; vm_compute; reflexivity.
Qed.

End ConnectFacts.

(** ** The producer *)

Module ProducerFacts.

Import Producer.

Section Facts.

Variables host port : Type.

Local Abbreviation gen := (gen host port).
Local Abbreviation target := (target host port).

(** The sequence the contract describes: hosts in the order supplied,
    and for each host the ports in the order supplied. *)
Definition host_major (ips : list host) (ports : list port)
  : list target :=
  flat_map (fun ip => map (pair ip) ports) ips.

Lemma advance_remaining (hs : list host) (ports : list port) :
  match advance hs ports with
  | None => host_major hs ports = []
  | Some (t, g') =>
      host_major hs ports = t :: remaining g' /\ all_ports g' = ports
  end.
Proof.
  induction hs as [|h hs IH]; simpl; [reflexivity|].
  destruct ports as [|p ps].
  - simpl. exact IH.
  - simpl. split; reflexivity.
Qed.

(** [next] takes the head of [remaining] and leaves its tail. *)
Lemma next_remaining (g : gen) :
  match next g with
  | None => remaining g = []
  | Some (t, g') =>
      remaining g = t :: remaining g' /\ all_ports g' = all_ports g
  end.
Proof.
  unfold next, remaining.
  destruct (inner g) as [[h [|p ps]]|]; simpl.
  - apply advance_remaining.
  - split; reflexivity.
  - apply advance_remaining.
Qed.

Lemma next_None (g : gen) : next g = None <-> remaining g = [].
Proof.
  pose proof (next_remaining g) as H.
  destruct (next g) as [[t g']|]; split; intro K; try discriminate; auto.
  destruct H as [H _]. rewrite H in K. discriminate.
Qed.

Lemma next_Some (g g' : gen) (t : target) :
  next g = Some (t, g') -> remaining g = t :: remaining g'.
Proof.
  intro H. pose proof (next_remaining g) as K. rewrite H in K. apply K.
Qed.

Lemma remaining_tasks (ips : list host) (ports : list port) :
  remaining (tasks ips ports) = host_major ips ports.
Proof. reflexivity. Qed.

Lemma take_next_remaining (n : nat) (g : gen) :
  fst (take_next n g) = firstn n (remaining g) /\
  remaining (snd (take_next n g)) = skipn n (remaining g).
Proof.
  revert g. induction n as [|n IH]; intro g; simpl; [auto|].
  pose proof (next_remaining g) as H.
  destruct (next g) as [[t g']|].
  - destruct H as [H _]. rewrite H. simpl.
    specialize (IH g'). destruct (take_next n g') as [ts g'']. simpl in *.
    destruct IH as [IH1 IH2]. rewrite IH1. auto.
  - rewrite H. simpl. rewrite H. auto.
Qed.

Lemma host_major_length (ips : list host) (ports : list port) :
  length (host_major ips ports) = length ips * length ports.
Proof.
  unfold host_major, Producer.target.
  induction ips as [|h hs IH]; simpl; [reflexivity|].
  rewrite length_app, length_map, IH. reflexivity.
Qed.

Lemma host_major_nth (ips : list host) (ports : list port) (i j : nat)
      (ip : host) (p : port) :
  nth_error ips i = Some ip ->
  nth_error ports j = Some p ->
  nth_error (host_major ips ports) (i * length ports + j) = Some (ip, p).
Proof.
  unfold host_major, Producer.target.
  revert i. induction ips as [|h hs IH]; intros i Hi Hj.
  - destruct i; discriminate.
  - assert (Hlt : j < length ports) by (apply nth_error_Some; congruence).
    destruct i as [|i]; simpl in *.
    + injection Hi as ->.
      rewrite nth_error_app1 by (rewrite length_map; exact Hlt).
      rewrite nth_error_map, Hj. reflexivity.
    + rewrite nth_error_app2 by (rewrite length_map; lia).
      rewrite length_map.
      replace (length ports + i * length ports + j - length ports)
        with (i * length ports + j) by lia.
      apply IH; assumption.
Qed.

Lemma NoDup_map_inj (A B : Type) (f : A -> B) (l : list A) :
  (forall x y, f x = f y -> x = y) -> NoDup l -> NoDup (map f l).
Proof.
  intros Hf Hl. induction Hl as [|a l Hnin Hnd IH]; simpl; constructor.
  - intro Hin. apply in_map_iff in Hin. destruct Hin as [x [Hx Hin]].
    apply Hf in Hx. subst x. contradiction.
  - exact IH.
Qed.

Lemma host_major_NoDup (ips : list host) (ports : list port) :
  NoDup ips -> NoDup ports -> NoDup (host_major ips ports).
Proof.
  unfold host_major, Producer.target.
  intros Hi Hp. induction Hi as [|h hs Hnin Hnd IH]; simpl; [constructor|].
  apply NoDup_app.
  - apply NoDup_map_inj; [|exact Hp].
    intros x y [= ->]. reflexivity.
  - exact IH.
  - intros [a b] Hin1 Hin2.
    apply in_map_iff in Hin1. destruct Hin1 as [x [[= <- <-] _]].
    apply in_flat_map in Hin2. destruct Hin2 as [h' [Hh' Hin2]].
    apply in_map_iff in Hin2. destruct Hin2 as [y [[= <- <-] _]].
    contradiction.
Qed.

(** C6. The generator [tasks] yields, call after call of [next], the
    pairs (host, port) host by host in the order of [ips] and, for
    each host, port by port in the order of [ports]: the first [n]
    calls give the first [n] pairs of that sequence.  The sequence is
    finite, of [len(ips) * len(ports)] pairs; the pair of the i-th host
    and the j-th port stands at position [i * len(ports) + j], so every
    combination is produced once (and when neither list repeats an
    element no pair is repeated); after the last pair, and not before,
    [next] signals exhaustion, and keeps doing so. *)
Theorem tasks_order (ips : list host) (ports : list port) :
  (forall n,
      fst (take_next n (tasks ips ports))
      = firstn n (host_major ips ports)) /\
  length (host_major ips ports) = (length ips * length ports)%nat /\
  (forall i j ip p,
      nth_error ips i = Some ip -> nth_error ports j = Some p ->
      nth_error (host_major ips ports) (i * length ports + j)
      = Some (ip, p)) /\
  (NoDup ips -> NoDup ports -> NoDup (host_major ips ports)) /\
  (forall n,
      next (snd (take_next n (tasks ips ports))) = None
      <-> length ips * length ports <= n).
Proof.
  split; [|split; [|split; [|split]]].
  - intro n. apply take_next_remaining.
  - apply host_major_length.
  - intros. apply host_major_nth; assumption.
  - apply host_major_NoDup.
  - intro n. rewrite next_None.
    destruct (take_next_remaining n (tasks ips ports)) as [_ ->].
    rewrite remaining_tasks, <- host_major_length.
    split; intro H.
    + apply (f_equal (@length _)) in H. rewrite length_skipn in H.
      simpl in H. lia.
    + apply skipn_all2. exact H.
Qed.

End Facts.

(** Two hosts and two ports: four pairs, host first. *)

Lemma tasks_order_witness :
  fst (take_next 3 (tasks [10; 20] [1; 2]))
  = [(10, 1); (10, 2); (20, 1)] /\
  nth_error (host_major [10; 20] [1; 2]) (1 * 2 + 0) = Some (20, 1) /\
  NoDup (host_major [10; 20] [1; 2]) /\
  next (snd (take_next 4 (tasks [10; 20] [1; 2]))) = None.
Proof.
  destruct (tasks_order [10; 20] [1; 2]) as (H1 & _ & H3 & H4 & H5).
  split; [rewrite H1; reflexivity|].
  split; [apply (H3 1 0 20 1); reflexivity|].
  split.
  - apply H4; repeat constructor; simpl; intuition discriminate.
  - apply H5. simpl. lia.
Defined.

End ProducerFacts.

(** ** Dictionaries and the selector *)

Module DictFacts.

Import Scan.

Lemma mem_In (h : handle) (l : list handle) : mem h l = true <-> In h l.
Proof.
  unfold mem. rewrite existsb_exists. split.
  - intros [x [Hin Heq]]. apply Nat.eqb_eq in Heq. now subst.
  - intro Hin. exists h. split; [assumption | apply Nat.eqb_refl].
Qed.

Lemma mem_not_In (h : handle) (l : list handle) :
  mem h l = false <-> ~ In h l.
Proof.
  rewrite <- mem_In. destruct (mem h l); split; intro H; congruence.
Qed.

Lemma remove_first_incl (h x : handle) (l : list handle) :
  In x (remove_first h l) -> In x l.
Proof.
  induction l as [|y l IH]; simpl; [auto|].
  destruct (Nat.eqb h y); simpl; intuition.
Qed.

Lemma remove_first_NoDup (h : handle) (l : list handle) :
  NoDup l -> NoDup (remove_first h l) /\ ~ In h (remove_first h l).
Proof.
  induction 1 as [|y l Hnin Hnd [IH1 IH2]]; simpl.
  - split; [constructor | auto].
  - destruct (Nat.eqb h y) eqn:Heq.
    + apply Nat.eqb_eq in Heq. subst. auto.
    + apply Nat.eqb_neq in Heq. split.
      * constructor; [|exact IH1].
        intro Hin. apply Hnin. eapply remove_first_incl; eauto.
      * simpl. intuition.
Qed.

Lemma dedup_In (x : handle) (l : list handle) : In x (dedup l) <-> In x l.
Proof.
  induction l as [|y l IH]; simpl; [tauto|].
  destruct (mem y l) eqn:Hm.
  - apply mem_In in Hm. rewrite IH. split; [auto|].
    intros [->|H]; assumption.
  - simpl. rewrite IH. tauto.
Qed.

Lemma dedup_NoDup (l : list handle) : NoDup (dedup l).
Proof.
  induction l as [|y l IH]; simpl; [constructor|].
  destruct (mem y l) eqn:Hm; [exact IH|].
  constructor; [|exact IH].
  rewrite dedup_In. now apply mem_not_In.
Qed.

Lemma sel_select_In (reg rep : list handle) (h : handle) :
  In h (sel_select reg rep) <-> In h reg /\ In h rep.
Proof.
  unfold sel_select. rewrite dedup_In, filter_In, mem_In. tauto.
Qed.

Lemma sel_select_NoDup (reg rep : list handle) : NoDup (sel_select reg rep).
Proof. apply dedup_NoDup. Qed.

Section Dict.

Variable V : Type.
Implicit Types (d : dict V) (k : handle) (v : V).

Lemma dict_pop_None k d : dict_pop k d = None <-> ~ In k (dict_keys d).
Proof.
  induction d as [|[k' v'] d IH]; simpl; [tauto|].
  destruct (Nat.eqb k k') eqn:Heq.
  - apply Nat.eqb_eq in Heq. subst. split; [discriminate | tauto].
  - apply Nat.eqb_neq in Heq.
    destruct (dict_pop k d) as [[v d'']|].
    + split; [discriminate|]. intro H. exfalso.
      assert (K : ~ In k (dict_keys d)) by tauto.
      apply IH in K. discriminate.
    + split; [|reflexivity]. intros _ [H|H]; [congruence|].
      revert H. now apply IH.
Qed.

(** What [pop] returns and leaves. *)
Lemma dict_pop_Some k v d d' :
  dict_pop k d = Some (v, d') ->
  In (k, v) d /\
  dict_keys d' = remove_first k (dict_keys d) /\
  length d = S (length d') /\
  (forall x, In x d' -> In x d) /\
  (forall x, In x d -> x = (k, v) \/ In x d').
Proof.
  revert d'. induction d as [|[k' v'] d IH]; simpl; intros d' H;
    [discriminate|].
  destruct (Nat.eqb k k') eqn:Heq.
  - apply Nat.eqb_eq in Heq. subst k'. injection H as <- <-.
    repeat split; auto. intros x [Hx|Hx]; auto.
  - destruct (dict_pop k d) as [[v0 d0]|]; [|discriminate].
    injection H as <- <-.
    destruct (IH d0 eq_refl) as (I1 & I2 & I3 & I4 & I5).
    simpl. repeat split.
    + now right.
    + now rewrite I2.
    + now rewrite I3.
    + intros x [Hx|Hx]; auto.
    + intros x [Hx|Hx]; auto. destruct (I5 x Hx); auto.
Qed.

Lemma NoDup_keys_functional k v v' d :
  NoDup (dict_keys d) -> In (k, v) d -> In (k, v') d -> v = v'.
Proof.
  induction d as [|[k0 v0] d IH]; simpl; [tauto|].
  intros Hnd H1 H2. inversion Hnd as [|? ? Hnin Hnd']; subst.
  destruct H1 as [H1|H1], H2 as [H2|H2].
  - congruence.
  - injection H1 as -> ->. exfalso. apply Hnin.
    change k with (fst (k, v')). now apply in_map.
  - injection H2 as -> ->. exfalso. apply Hnin.
    change k with (fst (k, v)). now apply in_map.
  - now apply IH.
Qed.

(** With unique keys, [pop] removes the key. *)
Lemma dict_pop_NoDup k v d d' :
  NoDup (dict_keys d) -> dict_pop k d = Some (v, d') ->
  NoDup (dict_keys d') /\ ~ In k (dict_keys d').
Proof.
  intros Hnd H. apply dict_pop_Some in H. destruct H as (_ & -> & _).
  now apply remove_first_NoDup.
Qed.

Lemma dict_pop_perm k v d d' :
  dict_pop k d = Some (v, d') -> Permutation d ((k, v) :: d').
Proof.
  revert d'. induction d as [|[k' v'] d IH]; simpl; intros d' H;
    [discriminate|].
  destruct (Nat.eqb k k') eqn:Heq.
  - apply Nat.eqb_eq in Heq. subst k'. injection H as <- <-.
    apply Permutation_refl.
  - destruct (dict_pop k d) as [[v0 d0]|]; [|discriminate].
    injection H as <- <-.
    eapply Permutation_trans; [|apply perm_swap].
    constructor. now apply IH.
Qed.

Lemma dict_set_fresh k v d :
  ~ In k (dict_keys d) -> dict_set k v d = d ++ [(k, v)].
Proof.
  induction d as [|[k' v'] d IH]; simpl; [reflexivity|].
  intro H. destruct (Nat.eqb k k') eqn:Heq.
  - apply Nat.eqb_eq in Heq. subst. tauto.
  - rewrite IH; [reflexivity | tauto].
Qed.

Lemma dict_set_In k v d x :
  In x (dict_set k v d) -> x = (k, v) \/ In x d.
Proof.
  induction d as [|[k' v'] d IH]; simpl.
  - intros [<-|[]]. now left.
  - destruct (Nat.eqb k k'); simpl; intros [<-|H]; auto.
    destruct (IH H); auto.
Qed.

Lemma dict_set_length k v d : (length (dict_set k v d) <= S (length d))%nat.
Proof.
  induction d as [|[k' v'] d IH]; simpl; [lia|].
  destruct (Nat.eqb k k'); simpl; lia.
Qed.

End Dict.

End DictFacts.

(** ** The event loop *)

Module ScanFacts.

Import Producer Scan ProducerFacts DictFacts.

Section Facts.

Variables host port : Type.
Variable E : env.
Variables concurrency timeout : Z.

Local Abbreviation target := (Producer.target host port).
Local Abbreviation state := (Scan.state host port).
Local Abbreviation attempt := (Scan.attempt host port).
Local Abbreviation step := (@Scan.step host port E concurrency timeout).
Local Abbreviation run := (@Scan.run host port E concurrency timeout).

(** *** Runs *)

Definition terminal (s : state) : Prop :=
  pc s = Returned \/ exists e, pc s = Raised e.

(** The states of a scan of [ips] and [ports]. *)
Definition reachable (ips : list host) (ports : list port) (s : state)
  : Prop :=
  exists n, s = run n (init E ips ports).

Lemma run_add (n m : nat) (s : state) : run (n + m) s = run m (run n s).
Proof. revert s. induction n as [|n IH]; intro s; simpl; auto. Qed.

Lemma run_S (n : nat) (s : state) : run (S n) s = step (run n s).
Proof.
  replace (S n) with (n + 1)%nat by lia. now rewrite run_add.
Qed.

Lemma step_terminal (s : state) : terminal s -> step s = s.
Proof.
  intros [H|[e H]]; unfold Scan.step; rewrite H; reflexivity.
Qed.

Lemma run_terminal (n : nat) (s : state) : terminal s -> run n s = s.
Proof.
  intro H. induction n as [|n IH]; simpl; [reflexivity|].
  now rewrite step_terminal.
Qed.

Lemma reachable_init ips ports : reachable ips ports (init E ips ports).
Proof. now exists 0%nat. Qed.

Lemma reachable_step ips ports s :
  reachable ips ports s -> reachable ips ports (step s).
Proof. intros [n ->]. exists (S n). now rewrite run_S. Qed.

Lemma reachable_run ips ports s n :
  reachable ips ports s -> reachable ips ports (run n s).
Proof. intros [k ->]. exists (k + n)%nat. now rewrite run_add. Qed.

(** A property of the initial state that every transition keeps holds
    in every state of the scan. *)
Lemma reachable_ind (P : state -> Prop) ips ports :
  P (init E ips ports) ->
  (forall s, reachable ips ports s -> P s -> P (step s)) ->
  forall s, reachable ips ports s -> P s.
Proof.
  intros H0 Hstep s [n ->].
  induction n as [|n IH]; [exact H0|].
  rewrite run_S. apply Hstep; [now exists n | exact IH].
Qed.

(** *** Bookkeeping of sockets *)

Definition entry (x : handle * attempt) : handle * target :=
  (fst x, target_of (snd x)).

Definition log_handle (e : handle * target * resolution) : handle :=
  fst (fst e).

(** Some system call of the environment fails: the selector cannot be
    created, or a call on some socket fails, or [concurrency] is more
    than the number of sockets the process can hold open. *)
Definition env_fails : Prop :=
  selector_ok E = false \/
  (exists h, socket_ok E h = false \/ connect_ex E h <> Returns \/
             register_ok E h = false) \/
  (exists limit, max_open E = Some limit /\
                 (Z.of_nat limit < concurrency)%Z).

(** No system call of the scan fails: the selector is created, every
    socket is created, connected without an exception and registered,
    and the process can hold [concurrency] sockets open. *)
Definition calls_succeed : Prop :=
  selector_ok E = true /\
  (forall h, socket_ok E h = true) /\
  (forall h, connect_ex E h = Returns) /\
  (forall h, register_ok E h = true) /\
  (forall limit, max_open E = Some limit ->
                 (concurrency <= Z.of_nat limit)%Z).

Lemma calls_succeed_not_fails : calls_succeed -> ~ env_fails.
Proof.
  intros (H1 & H2 & H3 & H4 & H5) [Hf | [(h & [Hf | [Hf | Hf]]) | Hf]].
  - congruence.
  - rewrite H2 in Hf. discriminate.
  - now apply Hf.
  - rewrite H4 in Hf. discriminate.
  - destruct Hf as (limit & Hm & Hlt). specialize (H5 _ Hm). lia.
Qed.

(** How the selector, the dictionary, the closed sockets and the two
    journals stay in step. *)
Record wf (s : state) : Prop := mkWf {
  wf_registered : registered s = dict_keys (in_flight s);
  wf_nodup : NoDup (dict_keys (in_flight s));
  wf_closed : closed s = map log_handle (log s);
  wf_admitted :
    Permutation (admitted s) (map entry (in_flight s) ++ map fst (log s));
  wf_handles : map fst (admitted s) = seq 0 (length (admitted s));
  wf_opened :
    match pc s with
    | Raised _ => (length (admitted s) <= opened s)%nat
    | _ => opened s = length (admitted s)
    end;
  wf_pc :
    match pc s with
    | AtReady events _ =>
        NoDup events /\ incl events (dict_keys (in_flight s))
    | AtSweep items _ =>
        NoDup (map fst items) /\ incl items (in_flight s)
    | Raised e => e <> KeyError /\ env_fails
    | _ => True
    end
}.

Lemma wf_key_bound (s : state) (h : handle) :
  wf s -> In h (dict_keys (in_flight s)) ->
  (h < length (admitted s))%nat.
Proof.
  intros W Hin.
  assert (K : In h (map fst (admitted s))).
  { apply in_map_iff in Hin. destruct Hin as [[h' a] [Heq Hin]].
    simpl in Heq. subst h'.
    apply in_map_iff. exists (h, target_of a). split; [reflexivity|].
    eapply Permutation_in; [apply Permutation_sym, (wf_admitted W)|].
    apply in_or_app. left.
    apply in_map_iff. exists (h, a). split; [reflexivity | assumption]. }
  rewrite (wf_handles W) in K. apply in_seq in K. lia.
Qed.

Lemma wf_log_NoDup (s : state) :
  wf s ->
  NoDup (dict_keys (in_flight s) ++ map log_handle (log s)).
Proof.
  intro W.
  assert (K : Permutation (map fst (admitted s))
                (dict_keys (in_flight s) ++ map log_handle (log s))).
  { eapply Permutation_trans; [apply Permutation_map, (wf_admitted W)|].
    rewrite map_app, !map_map. apply Permutation_refl. }
  eapply Permutation_NoDup; [exact K|].
  rewrite (wf_handles W). apply seq_NoDup.
Qed.

Lemma wf_init ips ports : wf (init E ips ports).
Proof.
  unfold init. destruct (selector_ok E) eqn:Hs; constructor; simpl;
    auto using NoDup_nil, Permutation_refl.
  split; [discriminate | now left].
Qed.

Definition pc_ok (s : state) (p : control host port) : Prop :=
  match p with
  | AtReady events _ =>
      NoDup events /\ incl events (dict_keys (in_flight s))
  | AtSweep items _ =>
      NoDup (map fst items) /\ incl items (in_flight s)
  | Raised e => e <> KeyError /\ env_fails
  | _ => True
  end.

Lemma wf_goto (s : state) (p : control host port) :
  wf s -> (forall e, pc s <> Raised e) -> pc_ok s p -> wf (goto p s).
Proof.
  intros W Hpc Hp.
  assert (Ho : opened s = length (admitted s)).
  { pose proof (wf_opened W) as K.
    destruct (pc s); try exact K. now elim (Hpc e). }
  destruct W. constructor; simpl; auto.
  - destruct p; auto. lia.
Qed.

(** The three ways an admission ends: [socket.socket] raises; the
    socket is created and [connect_ex] or [selector.register] raises;
    the attempt is in [in_flight]. *)
Lemma kick_off_cases (t : target) (g : gen host port) (s : state) :
  (kick_off E t g s = goto (Raised OSError) (set_tasks g s) /\
   socket_ok E (opened s) && can_open E s = false) \/
  (exists e,
      kick_off E t g s
      = goto (Raised e) (socket_created (set_tasks g s)) /\
      socket_ok E (opened s) && can_open E s = true /\
      (connect_exn (connect_ex E (opened s)) = Some e \/
       (connect_ex E (opened s) = Returns /\
        register_ok E (opened s) = false /\ e = OSError) \/
       (connect_ex E (opened s) = Returns /\
        register_ok E (opened s) = true /\
        sel_register (opened s) (registered s) = None /\
        e = KeyError))) \/
  (exists reg,
      kick_off E t g s
      = mkState AtRefill g
                (dict_set (opened s)
                          (mkAttempt (fst t) (snd t) (wall E (reads s))
                                     (reads s))
                          (in_flight s))
                (results s) reg (S (opened s)) (closed s)
                (S (reads s)) (polls s) (advanced s)
                (admitted s ++ [(opened s, t)]) (log s) /\
      socket_ok E (opened s) && can_open E s = true /\
      connect_ex E (opened s) = Returns /\
      register_ok E (opened s) = true /\
      sel_register (opened s) (registered s) = Some reg).
Proof.
  unfold kick_off.
  change (opened (set_tasks g s)) with (opened s).
  change (can_open E (set_tasks g s)) with (can_open E s).
  destruct (socket_ok E (opened s) && can_open E s) eqn:Hcreate;
    [|left; auto].
  right. cbn zeta.
  change (opened (socket_created (set_tasks g s))) with (S (opened s)).
  destruct (connect_ex E (opened s)) eqn:Hconn; simpl connect_exn; cbv iota.
  - destruct (register_ok E (opened s)) eqn:Hreg.
    + change (registered (socket_created (set_tasks g s)))
        with (registered s).
      destruct (sel_register (opened s) (registered s)) as [reg|] eqn:Hsel.
      * right. exists reg. auto.
      * left. exists KeyError. auto 10.
    + left. exists OSError. auto 10.
  - left. exists TypeError. auto.
  - left. exists OverflowError. auto.
  - left. exists OSError. auto.
Qed.

(** A socket just created is not a key yet. *)
Lemma wf_fresh (s : state) :
  wf s -> (forall e, pc s <> Raised e) ->
  ~ In (opened s) (dict_keys (in_flight s)).
Proof.
  intros W Hpc Hin. apply (wf_key_bound _ W) in Hin.
  pose proof (wf_opened W) as K.
  destruct (pc s); lia.
Qed.

Lemma connect_exn_not_KeyError (c : connect_call) (e : exn) :
  connect_exn c = Some e -> e <> KeyError /\ c <> Returns.
Proof. destruct c; simpl; intros [= <-]; split; discriminate. Qed.

(** The admission once [socket.socket] has returned. *)
Lemma wf_admit_created (s : state) (t : target) (g : gen host port) :
  wf s -> pc s = AtRefill ->
  wf (let sock := opened s in
      let s := socket_created (set_tasks g s) in
      match connect_exn (connect_ex E sock) with
      | Some e => goto (Raised e) s
      | None =>
          if register_ok E sock then
            match sel_register sock (registered s) with
            | None => goto (Raised KeyError) s
            | Some reg =>
                let a :=
                  mkAttempt (fst t) (snd t) (wall E (reads s)) (reads s) in
                mkState AtRefill (tasks s)
                        (dict_set sock a (in_flight s))
                        (results s) reg (opened s) (closed s)
                        (S (reads s)) (polls s) (advanced s)
                        (admitted s ++ [(sock, t)]) (log s)
            end
          else goto (Raised OSError) s
      end).
Proof.
  intros W Hpc.
  assert (Hnr : forall e, pc s <> Raised e) by (intro; congruence).
  pose proof (wf_fresh W Hnr) as Hfresh.
  pose proof (wf_opened W) as Ho. rewrite Hpc in Ho.
  simpl.
  destruct (connect_exn (connect_ex E (opened s))) as [e|] eqn:Hconn.
  { apply connect_exn_not_KeyError in Hconn. destruct Hconn as [He Hc].
    destruct W. constructor; simpl; auto; [lia|].
    split; [exact He|]. right. left. exists (opened s). auto. }
  destruct (register_ok E (opened s)) eqn:Hreg.
  2:{ destruct W. constructor; simpl; auto; [lia|].
      split; [discriminate|]. right. left. exists (opened s). auto. }
  unfold sel_register. simpl.
  destruct (mem (opened s) (registered s)) eqn:Hm.
  { apply mem_In in Hm. rewrite (wf_registered W) in Hm. contradiction. }
  rewrite dict_set_fresh by exact Hfresh.
  destruct W as [W1 W2 W3 W4 W5 W6 W7].
  constructor; simpl.
  - unfold dict_keys. rewrite map_app. simpl. now rewrite W1.
  - unfold dict_keys. rewrite map_app. simpl.
    apply NoDup_app; [exact W2 | repeat constructor; auto |].
    intros x Hx [<-|[]]. contradiction.
  - exact W3.
  - rewrite map_app. simpl. unfold entry at 2. simpl.
    unfold target_of. simpl. rewrite <- surjective_pairing.
    rewrite <- app_assoc. simpl.
    eapply Permutation_trans;
      [apply Permutation_app_tail, W4|].
    rewrite <- app_assoc.
    apply Permutation_app_head.
    apply Permutation_sym, Permutation_cons_append.
  - rewrite map_app, length_app. simpl.
    rewrite seq_app. simpl. rewrite W5, Ho. reflexivity.
  - rewrite length_app. simpl. lia.
  - exact I.
Qed.

(** Before an exception the sockets that are open are those in
    flight. *)
Lemma wf_open_sockets (s : state) :
  wf s -> (forall e, pc s <> Raised e) ->
  open_sockets s = length (in_flight s).
Proof.
  intros W Hpc. unfold open_sockets.
  pose proof (wf_opened W) as Ho.
  pose proof (Permutation_length (wf_admitted W)) as P.
  rewrite length_app, !length_map in P.
  rewrite (wf_closed W), length_map.
  destruct (pc s) eqn:Hp; try lia. now elim (Hpc e).
Qed.

Lemma wf_admit (s : state) (t : target) (g : gen host port) :
  wf s -> pc s = AtRefill ->
  (Z.of_nat (length (in_flight s)) < concurrency)%Z ->
  wf (kick_off E t g s).
Proof.
  intros W Hpc Hroom.
  assert (Hnr : forall e, pc s <> Raised e) by (intro; congruence).
  pose proof (wf_fresh W Hnr) as Hfresh.
  pose proof (wf_open_sockets W Hnr) as Hopen.
  pose proof (wf_opened W) as Ho. rewrite Hpc in Ho.
  unfold kick_off, can_open, open_sockets in *. simpl.
  destruct (socket_ok E (opened s)) eqn:Hsock; simpl.
  2:{ destruct W. constructor; simpl; auto; [lia|].
      split; [discriminate|]. right. left. exists (opened s). now left. }
  destruct (max_open E) as [limit|] eqn:Hmax.
  - destruct (Nat.ltb_spec (opened s - length (closed s)) limit)
      as [Hfit | Hfull].
    2:{ destruct W. constructor; simpl; auto; [lia|].
        split; [discriminate|]. right. right. exists limit.
        split; [exact Hmax | lia]. }
    now apply wf_admit_created.
  - now apply wf_admit_created.
Qed.


Lemma wf_poll (s : state) : wf s -> pc s = AtPoll -> wf (poll E s).
Proof.
  intros W Hpc. pose proof (wf_opened W) as Ho. rewrite Hpc in Ho.
  destruct W as [W1 W2 W3 W4 W5 W6 W7].
  constructor; simpl; auto. split.
  - apply sel_select_NoDup.
  - intros h Hh. apply sel_select_In in Hh. now rewrite <- W1.
Qed.

Lemma remove_first_In_neq (h x : handle) (l : list handle) :
  In x l -> x <> h -> In x (remove_first h l).
Proof.
  induction l as [|y l IH]; simpl; [auto|].
  intros [->|Hin] Hneq.
  - destruct (Nat.eqb h x) eqn:Heq.
    + apply Nat.eqb_eq in Heq. congruence.
    + now left.
  - destruct (Nat.eqb h y); [assumption|]. right. now apply IH.
Qed.

Lemma perm_resolved (A : Type) (x : A) (adm inf d lg : list A) :
  Permutation adm (inf ++ lg) -> Permutation inf (x :: d) ->
  Permutation adm (d ++ lg ++ [x]).
Proof.
  intros H1 H2.
  eapply Permutation_trans; [exact H1|].
  eapply Permutation_trans; [apply Permutation_app_tail, H2|].
  simpl. eapply Permutation_trans; [apply Permutation_cons_append|].
  rewrite <- app_assoc. apply Permutation_refl.
Qed.

Lemma wf_handle_ready (s : state) h events now :
  wf s -> pc s = AtReady (h :: events) now ->
  wf (handle_ready E h events now s).
Proof.
  intros W Hpc.
  pose proof (wf_opened W) as Ho. rewrite Hpc in Ho.
  pose proof (wf_pc W) as Hp. rewrite Hpc in Hp. destruct Hp as [Hnd Hincl].
  assert (Hh : In h (dict_keys (in_flight s))) by (apply Hincl; now left).
  unfold handle_ready.
  destruct (dict_pop h (in_flight s)) as [[a d]|] eqn:Hpop.
  2:{ apply dict_pop_None in Hpop. contradiction. }
  unfold sel_unregister. simpl.
  rewrite (wf_registered W).
  destruct (mem h (dict_keys (in_flight s))) eqn:Hm.
  2:{ apply mem_not_In in Hm. contradiction. }
  destruct (@dict_pop_Some _ _ _ _ _ Hpop) as (P1 & P2 & P3 & P4 & P5).
  destruct (@dict_pop_NoDup _ _ _ _ _ (wf_nodup W) Hpop) as [N1 N2].
  destruct W as [W1 W2 W3 W4 W5 W6 W7].
  constructor; simpl; auto.
  - rewrite map_app, W3. reflexivity.
  - rewrite map_app. simpl.
    apply perm_resolved with (inf := map entry (in_flight s));
      [exact W4|].
    change (h, target_of a) with (entry (h, a)).
    rewrite <- map_cons. apply Permutation_map.
    eapply dict_pop_perm; eauto.
  - split.
    + now inversion Hnd.
    + intros x Hx. rewrite P2. apply remove_first_In_neq.
      * apply Hincl. now right.
      * inversion Hnd; subst. congruence.
Qed.

Lemma wf_expire (s : state) h a items now :
  wf s -> pc s = AtSweep ((h, a) :: items) now ->
  wf (expire h a items now s).
Proof.
  intros W Hpc.
  pose proof (wf_opened W) as Ho. rewrite Hpc in Ho.
  pose proof (wf_pc W) as Hp. rewrite Hpc in Hp. destruct Hp as [Hnd Hincl].
  assert (Ha : In (h, a) (in_flight s)) by (apply Hincl; now left).
  assert (Hh : In h (dict_keys (in_flight s))).
  { change h with (fst (h, a)). now apply in_map. }
  unfold expire, sel_unregister.
  rewrite (wf_registered W).
  destruct (mem h (dict_keys (in_flight s))) eqn:Hm.
  2:{ apply mem_not_In in Hm. contradiction. }
  simpl.
  destruct (dict_pop h (in_flight s)) as [[a' d]|] eqn:Hpop.
  2:{ apply dict_pop_None in Hpop. contradiction. }
  destruct (@dict_pop_Some _ _ _ _ _ Hpop) as (P1 & P2 & P3 & P4 & P5).
  destruct (@dict_pop_NoDup _ _ _ _ _ (wf_nodup W) Hpop) as [N1 N2].
  assert (a' = a)
    by exact (@NoDup_keys_functional _ h a' a (in_flight s) (wf_nodup W) P1 Ha).
  subst a'.
  destruct W as [W1 W2 W3 W4 W5 W6 W7].
  constructor; simpl; auto.
  - rewrite map_app, W3. reflexivity.
  - rewrite map_app. simpl.
    apply perm_resolved with (inf := map entry (in_flight s));
      [exact W4|].
    change (h, target_of a) with (entry (h, a)).
    rewrite <- map_cons. apply Permutation_map.
    eapply dict_pop_perm; eauto.
  - simpl in Hnd. inversion Hnd as [|? ? Hnin Hnd']; subst. split.
    + exact Hnd'.
    + intros x Hx. destruct (P5 x) as [->|K]; [| |exact K].
      * apply Hincl. now right.
      * exfalso. apply Hnin. change h with (fst (h, a)). now apply in_map.
Qed.

(** Every transition keeps the bookkeeping. *)
Lemma wf_step (s : state) : wf s -> wf (step s).
Proof.
  intro W. unfold Scan.step.
  destruct (pc s) as [| |events now|items now| |e] eqn:Hpc.
  - assert (Hnr : forall e, pc s <> Raised e) by (intro; congruence).
    destruct (Z.ltb_spec (Z.of_nat (length (in_flight s))) concurrency)
      as [Hroom | _].
    + destruct (next (tasks s)) as [[t g]|].
      * now apply wf_admit.
      * apply wf_goto; simpl; auto.
    + apply wf_goto; simpl; auto.
  - destruct (in_flight s) eqn:Hin.
    + apply wf_goto; simpl; auto. intro; congruence.
    + now apply wf_poll.
  - destruct events as [|h events].
    + apply wf_goto; simpl; auto; [intro; congruence|].
      split; [apply (wf_nodup W) | apply incl_refl].
    + now apply wf_handle_ready.
  - destruct items as [|[h a] items].
    + apply wf_goto; simpl; auto. intro; congruence.
    + destruct (timeout <=? now - a_start a)%Z.
      * now apply wf_expire.
      * pose proof (wf_pc W) as Hp. rewrite Hpc in Hp.
        destruct Hp as [Hnd Hincl].
        apply wf_goto; simpl; auto; [intro; congruence|].
        split; [now inversion Hnd|].
        intros x Hx. apply Hincl. now right.
  - exact W.
  - exact W.
Qed.

Lemma wf_reachable ips ports (s : state) : reachable ips ports s -> wf s.
Proof.
  apply reachable_ind; [apply wf_init | intros; now apply wf_step].
Qed.

Lemma wf_run (n : nat) (s : state) : wf s -> wf (run n s).
Proof.
  revert s. induction n as [|n IH]; intros s W; simpl; [exact W|].
  apply IH. now apply wf_step.
Qed.


(** *** The admission bound *)

Lemma handle_ready_cases (s : state) h events now :
  (exists e, pc (handle_ready E h events now s) = Raised e /\
             (length (in_flight (handle_ready E h events now s))
              <= length (in_flight s))%nat /\
             admitted (handle_ready E h events now s) = admitted s /\
             opened (handle_ready E h events now s) = opened s) \/
  (exists a d, dict_pop h (in_flight s) = Some (a, d) /\
               in_flight (handle_ready E h events now s) = d /\
               pc (handle_ready E h events now s) = AtReady events now /\
               admitted (handle_ready E h events now s) = admitted s /\
               opened (handle_ready E h events now s) = opened s).
Proof.
  unfold handle_ready.
  destruct (dict_pop h (in_flight s)) as [[a d]|] eqn:Hpop.
  - destruct (@dict_pop_Some _ _ _ _ _ Hpop) as (_ & _ & P3 & _).
    simpl. destruct (sel_unregister h (registered s)).
    + right. exists a, d. simpl. auto.
    + left. exists KeyError. simpl. repeat split; auto. lia.
  - left. exists KeyError. simpl. auto.
Qed.

Lemma expire_cases (s : state) h a items now :
  (exists e, pc (expire h a items now s) = Raised e /\
             in_flight (expire h a items now s) = in_flight s /\
             admitted (expire h a items now s) = admitted s /\
             opened (expire h a items now s) = opened s) \/
  (exists a' d, dict_pop h (in_flight s) = Some (a', d) /\
                in_flight (expire h a items now s) = d /\
                pc (expire h a items now s) = AtSweep items now /\
                admitted (expire h a items now s) = admitted s /\
                opened (expire h a items now s) = opened s).
Proof.
  unfold expire.
  destruct (sel_unregister h (registered s)).
  - simpl. destruct (dict_pop h (in_flight s)) as [[a' d]|] eqn:Hpop.
    + right. exists a', d. simpl. auto.
    + left. exists KeyError. simpl. auto.
  - left. exists KeyError. simpl. auto.
Qed.

Lemma admit_in_flight (s : state) t g :
  (length (in_flight (kick_off E t g s)) <= S (length (in_flight s)))%nat.
Proof.
  destruct (kick_off_cases t g s)
    as [[-> _] | [(e & -> & _) | (reg & -> & _)]]; simpl; try lia.
  apply dict_set_length.
Qed.

Lemma admit_pc (s : state) t g :
  pc (kick_off E t g s) = AtRefill \/ exists e, pc (kick_off E t g s) = Raised e.
Proof.
  destruct (kick_off_cases t g s)
    as [[-> _] | [(e & -> & _) | (reg & -> & _)]]; simpl; eauto.
Qed.

(** No transition makes [in_flight] longer except an admission, and
    that one needs [len(in_flight) < concurrency]. *)
Lemma step_in_flight_length (s : state) :
  (length (in_flight (step s)) <= length (in_flight s))%nat \/
  (pc s = AtRefill /\
   (Z.of_nat (length (in_flight s)) < concurrency)%Z /\
   (length (in_flight (step s)) <= S (length (in_flight s)))%nat).
Proof.
  unfold Scan.step.
  destruct (pc s) as [| |events now|items now| |e] eqn:Hpc.
  - destruct (Z.ltb_spec (Z.of_nat (length (in_flight s))) concurrency).
    + destruct (next (tasks s)) as [[t g]|]; [|left; simpl; lia].
      right. repeat split; auto. apply admit_in_flight.
    + left. simpl. lia.
  - left. destruct (in_flight s) eqn:Hin; simpl; rewrite ?Hin; simpl; lia.
  - left. destruct events as [|h events]; [simpl; lia|].
    destruct (handle_ready_cases s h events now)
      as [(e & _ & H & _)|(a & d & Hpop & -> & _)]; [exact H|].
    destruct (@dict_pop_Some _ _ _ _ _ Hpop) as (_ & _ & P3 & _). lia.
  - left. destruct items as [|[h a] items]; [simpl; lia|].
    destruct (timeout <=? now - a_start a)%Z; [|simpl; lia].
    destruct (expire_cases s h a items now)
      as [(e & _ & -> & _)|(a' & d & Hpop & -> & _)]; [lia|].
    destruct (@dict_pop_Some _ _ _ _ _ Hpop) as (_ & _ & P3 & _). lia.
  - left. lia.
  - left. lia.
Qed.

Definition within_cap (s : state) : Prop :=
  (Z.of_nat (length (in_flight s)) <= Z.max 0 concurrency)%Z.

Lemma within_cap_step (s : state) : within_cap s -> within_cap (step s).
Proof.
  unfold within_cap. intro H.
  destruct (step_in_flight_length s) as [K|(_ & K1 & K2)]; lia.
Qed.

Lemma within_cap_reachable ips ports s :
  reachable ips ports s -> within_cap s.
Proof.
  apply reachable_ind.
  - unfold within_cap, init. simpl. lia.
  - intros. now apply within_cap_step.
Qed.

(** Only the refill loop below the bound creates a socket or admits. *)
Lemma step_no_admit (s : state) :
  ~ (pc s = AtRefill /\
     (Z.of_nat (length (in_flight s)) < concurrency)%Z) ->
  opened (step s) = opened s /\ admitted (step s) = admitted s.
Proof.
  unfold Scan.step.
  destruct (pc s) as [| |events now|items now| |e] eqn:Hpc.
  - destruct (Z.ltb_spec (Z.of_nat (length (in_flight s))) concurrency)
      as [Hlt|Hge].
    + intro H. exfalso. auto.
    + simpl. auto.
  - destruct (in_flight s) eqn:Hin; simpl; auto.
  - destruct events as [|h events]; [simpl; auto|].
    destruct (handle_ready_cases s h events now)
      as [(e & _ & _ & -> & ->)|(a & d & _ & _ & _ & -> & ->)]; auto.
  - destruct items as [|[h a] items]; [simpl; auto|].
    destruct (timeout <=? now - a_start a)%Z; [|simpl; auto].
    destruct (expire_cases s h a items now)
      as [(e & _ & _ & -> & ->)|(a' & d & _ & _ & _ & -> & ->)]; auto.
  - auto.
  - auto.
Qed.

(** C1. With [concurrency > 0], in every state the scan passes through
    (one state per turn of each of its loops) [in_flight] holds at most
    [concurrency] attempts; and from a state where it holds exactly
    [concurrency] the next transition creates no socket, admits
    nothing and does not make [in_flight] longer. *)
Theorem in_flight_bounded ips ports (s : state) :
  (0 < concurrency)%Z ->
  reachable ips ports s ->
  (Z.of_nat (length (in_flight s)) <= concurrency)%Z /\
  ((Z.of_nat (length (in_flight s)) = concurrency)%Z ->
   opened (step s) = opened s /\
   admitted (step s) = admitted s /\
   (length (in_flight (step s)) <= length (in_flight s))%nat).
Proof.
  intros Hc Hr. split.
  - pose proof (within_cap_reachable Hr) as K. unfold within_cap in K. lia.
  - intro Hfull.
    destruct (step_no_admit s) as [Ho Ha]; [lia|].
    repeat split; auto.
    destruct (step_in_flight_length s) as [K|(_ & K & _)]; lia.
Qed.


(** *** What the transitions of a well-formed state are *)

(** The resolution the [SO_ERROR] check gives a socket. *)
Definition so_resolution (h : handle) : resolution :=
  if (so_error E h =? 0)%Z then Success else Failure (so_error E h).

(** In a state of the scan, handling a ready key raises nothing. *)
Lemma step_ready (s : state) h events now :
  wf s -> pc s = AtReady (h :: events) now ->
  exists a d,
    dict_pop h (in_flight s) = Some (a, d) /\
    In (h, a) (in_flight s) /\
    step s =
    mkState (AtReady events now) (tasks s) d
            (if (so_error E h =? 0)%Z then results s ++ [target_of a]
             else results s)
            (remove_first h (registered s)) (opened s) (closed s ++ [h])
            (reads s) (polls s) (S (advanced s)) (admitted s)
            (log s ++ [(h, target_of a, so_resolution h)]).
Proof.
  intros W Hpc.
  pose proof (wf_pc W) as Hp. rewrite Hpc in Hp. destruct Hp as [Hnd Hincl].
  assert (Hh : In h (dict_keys (in_flight s))) by (apply Hincl; now left).
  unfold Scan.step. rewrite Hpc. unfold handle_ready.
  destruct (dict_pop h (in_flight s)) as [[a d]|] eqn:Hpop.
  2:{ apply dict_pop_None in Hpop. contradiction. }
  exists a, d. split; [reflexivity|].
  split; [exact (proj1 (@dict_pop_Some _ _ _ _ _ Hpop))|].
  unfold sel_unregister. simpl.
  rewrite <- (wf_registered W) in Hh. apply mem_In in Hh. rewrite Hh.
  reflexivity.
Qed.

(** In a state of the scan, expiring an attempt raises nothing. *)
Lemma step_expire (s : state) h a items now :
  wf s -> pc s = AtSweep ((h, a) :: items) now ->
  (timeout <= now - a_start a)%Z ->
  exists d,
    dict_pop h (in_flight s) = Some (a, d) /\
    step s =
    mkState (AtSweep items now) (tasks s) d (results s)
            (remove_first h (registered s)) (opened s) (closed s ++ [h])
            (reads s) (polls s) (S (advanced s)) (admitted s)
            (log s ++ [(h, target_of a, Timeout)]).
Proof.
  intros W Hpc Hexp.
  pose proof (wf_pc W) as Hp. rewrite Hpc in Hp. destruct Hp as [Hnd Hincl].
  assert (Ha : In (h, a) (in_flight s)) by (apply Hincl; now left).
  assert (Hh : In h (dict_keys (in_flight s))).
  { change h with (fst (h, a)). now apply in_map. }
  unfold Scan.step. rewrite Hpc.
  apply Z.leb_le in Hexp. rewrite Hexp.
  unfold expire, sel_unregister.
  pose proof Hh as Hm. rewrite <- (wf_registered W) in Hm.
  apply mem_In in Hm. rewrite Hm. simpl.
  destruct (dict_pop h (in_flight s)) as [[a' d]|] eqn:Hpop.
  2:{ apply dict_pop_None in Hpop. contradiction. }
  destruct (@dict_pop_Some _ _ _ _ _ Hpop) as (P1 & _).
  assert (a' = a)
    by exact (@NoDup_keys_functional _ h a' a (in_flight s)
                (wf_nodup W) P1 Ha).
  subst a'. exists d. split; reflexivity.
Qed.

Lemma step_skip (s : state) h a items now :
  pc s = AtSweep ((h, a) :: items) now ->
  (now - a_start a < timeout)%Z ->
  step s = goto (AtSweep items now) s.
Proof.
  intros Hpc Hlt. unfold Scan.step. rewrite Hpc.
  apply Z.leb_gt in Hlt. now rewrite Hlt.
Qed.

(** A scan never raises [KeyError]: the exceptions are those of the
    failing system calls. *)
Lemma raised_by_failing_call ips ports (s : state) e :
  reachable ips ports s -> pc s = Raised e -> e <> KeyError /\ env_fails.
Proof.
  intros Hr Hpc. pose proof (wf_pc (wf_reachable Hr)) as K.
  now rewrite Hpc in K.
Qed.

(** *** The journals only grow *)

Lemma step_log (s : state) : exists l, log (step s) = log s ++ l.
Proof.
  unfold Scan.step.
  destruct (pc s) as [| |events now|items now| |e] eqn:Hpc;
    try (exists []; rewrite app_nil_r; reflexivity).
  - destruct (Z.of_nat (length (in_flight s)) <? concurrency)%Z;
      [|exists []; now rewrite app_nil_r].
    destruct (next (tasks s)) as [[t g]|];
      [|exists []; now rewrite app_nil_r].
    destruct (kick_off_cases t g s)
      as [[-> _] | [(e & -> & _) | (reg & -> & _)]]; simpl;
      exists []; now rewrite app_nil_r.
  - destruct (in_flight s); simpl; exists []; now rewrite app_nil_r.
  - destruct events as [|h events];
      [exists []; now rewrite app_nil_r|].
    unfold handle_ready.
    destruct (dict_pop h (in_flight s)) as [[a d]|]; simpl;
      [|exists []; now rewrite app_nil_r].
    destruct (sel_unregister h (registered s)); simpl;
      [eexists; reflexivity | exists []; now rewrite app_nil_r].
  - destruct items as [|[h a] items];
      [exists []; now rewrite app_nil_r|].
    destruct (timeout <=? now - a_start a)%Z;
      [|exists []; now rewrite app_nil_r].
    unfold expire.
    destruct (sel_unregister h (registered s)); simpl;
      [|exists []; now rewrite app_nil_r].
    destruct (dict_pop h (in_flight s)) as [[a' d]|]; simpl;
      [eexists; reflexivity | exists []; now rewrite app_nil_r].
Qed.

Lemma run_log (n : nat) (s : state) : exists l, log (run n s) = log s ++ l.
Proof.
  revert s. induction n as [|n IH]; intro s; simpl.
  - exists []. now rewrite app_nil_r.
  - destruct (IH (step s)) as [l1 H1]. destruct (step_log s) as [l0 H0].
    exists (l0 ++ l1). now rewrite H1, H0, app_assoc.
Qed.

Lemma run_log_In (n : nat) (s : state) e :
  In e (log s) -> In e (log (run n s)).
Proof.
  intro H. destruct (run_log n s) as [l ->]. apply in_or_app. now left.
Qed.

(** A socket in the journal of resolutions is out of [in_flight]. *)
Lemma logged_not_in_flight (s : state) h t r :
  wf s -> In (h, t, r) (log s) -> ~ In h (dict_keys (in_flight s)).
Proof.
  intros W Hlog Hin.
  pose proof (wf_log_NoDup W) as Hnd.
  apply NoDup_app_remove_l in Hnd as Hnd2.
  assert (K : In h (map log_handle (log s))).
  { apply in_map_iff. exists (h, t, r). auto. }
  clear Hnd2. revert Hnd Hin K.
  generalize (dict_keys (in_flight s)) (map log_handle (log s)).
  intros l1 l2 Hnd H1 H2.
  induction l1 as [|x l1 IH]; [contradiction|].
  simpl in Hnd. inversion Hnd as [|? ? Hnin Hnd']; subst.
  destruct H1 as [->|H1]; [|auto].
  apply Hnin. apply in_or_app. now right.
Qed.

(** A socket has one entry at most in the journal of resolutions. *)
Lemma logged_once (s : state) h t r t' r' :
  wf s -> In (h, t, r) (log s) -> In (h, t', r') (log s) ->
  t = t' /\ r = r'.
Proof.
  intros W H1 H2.
  pose proof (wf_log_NoDup W) as Hnd.
  apply NoDup_app_remove_l in Hnd.
  revert Hnd H1 H2. generalize (log s). intro l.
  induction l as [|e l IH]; simpl; [tauto|].
  intros Hnd H1 H2. inversion Hnd as [|? ? Hnin Hnd']; subst.
  destruct H1 as [H1|H1], H2 as [H2|H2].
  - split; congruence.
  - exfalso. apply Hnin. subst e. simpl.
    apply in_map_iff. exists (h, t', r'). auto.
  - exfalso. apply Hnin. subst e. simpl.
    apply in_map_iff. exists (h, t, r). auto.
  - now apply IH.
Qed.


(** *** Results and resolutions *)

(** The targets of the entries resolved as successes, in order. *)
Definition successes (lg : list (handle * target * resolution))
  : list target :=
  flat_map (fun e => match snd e with
                     | Success => [snd (fst e)]
                     | _ => []
                     end) lg.

Lemma successes_app lg lg' :
  successes (lg ++ lg') = successes lg ++ successes lg'.
Proof. apply flat_map_app. Qed.

Record log_ok (s : state) : Prop := mkLogOk {
  lo_results : results s = successes (log s);
  lo_kind : forall h t r,
      In (h, t, r) (log s) -> r = Timeout \/ r = so_resolution h;
  lo_advanced : advanced s = length (log s)
}.

(** The transitions that resolve nothing. *)
Lemma step_quiet (s : state) :
  match pc s with
  | AtReady (_ :: _) _ => False
  | AtSweep (_ :: _) _ => False
  | _ => True
  end ->
  results (step s) = results s /\ log (step s) = log s /\
  advanced (step s) = advanced s /\ closed (step s) = closed s.
Proof.
  unfold Scan.step.
  destruct (pc s) as [| |events now|items now| |e] eqn:Hpc; auto.
  - intros _.
    destruct (Z.of_nat (length (in_flight s)) <? concurrency)%Z; auto.
    destruct (next (tasks s)) as [[t g]|]; auto.
    destruct (kick_off_cases t g s)
      as [[-> _] | [(e' & -> & _) | (reg & -> & _)]]; simpl; auto.
  - intros _. destruct (in_flight s); simpl; auto.
  - destruct events; [auto | contradiction].
  - destruct items; [auto | contradiction].
Qed.

Lemma log_ok_step (s : state) : wf s -> log_ok s -> log_ok (step s).
Proof.
  intros W [L1 L2 L3].
  destruct (pc s) as [| |events now|items now| |e] eqn:Hpc.
  1,2,5,6:
    destruct (step_quiet s) as (Q1 & Q2 & Q3 & _);
    [now rewrite Hpc|];
    constructor; rewrite ?Q1, ?Q2, ?Q3; auto.
  - destruct events as [|h events].
    + destruct (step_quiet s) as (Q1 & Q2 & Q3 & _); [now rewrite Hpc|].
      constructor; rewrite ?Q1, ?Q2, ?Q3; auto.
    + destruct (step_ready W Hpc) as (a & d & _ & _ & ->).
      constructor; simpl.
      * rewrite successes_app, <- L1. unfold so_resolution. simpl.
        destruct (so_error E h =? 0)%Z; simpl;
          [reflexivity | now rewrite app_nil_r].
      * intros h' t r Hin. apply in_app_or in Hin.
        destruct Hin as [Hin|[Hin|[]]]; [eauto|].
        injection Hin as <- <- <-. now right.
      * rewrite length_app. simpl. lia.
  - destruct items as [|[h a] items].
    + destruct (step_quiet s) as (Q1 & Q2 & Q3 & _); [now rewrite Hpc|].
      constructor; rewrite ?Q1, ?Q2, ?Q3; auto.
    + destruct (Z.le_gt_cases timeout (now - a_start a)) as [Hexp|Hlive].
      * destruct (step_expire W Hpc Hexp) as (d & _ & ->).
        constructor; simpl.
        -- rewrite successes_app, <- L1. simpl. now rewrite app_nil_r.
        -- intros h' t r Hin. apply in_app_or in Hin.
           destruct Hin as [Hin|[Hin|[]]]; [eauto|].
           injection Hin as <- <- <-. now left.
        -- rewrite length_app. simpl. lia.
      * rewrite (step_skip s Hpc Hlive). constructor; simpl; auto.
Qed.

Lemma log_ok_reachable ips ports (s : state) :
  reachable ips ports s -> log_ok s.
Proof.
  apply reachable_ind.
  - unfold init. constructor; simpl; auto. contradiction.
  - intros s' Hr. apply log_ok_step. eapply wf_reachable; eauto.
Qed.

(** The loop over [events] handles every key of the list. *)
Lemma ready_phase (events : list handle) :
  forall (s : state) now,
    wf s -> pc s = AtReady events now ->
    pc (run (length events) s) = AtReady [] now /\
    forall h, In h events ->
      exists a, In (h, a) (in_flight s) /\
                In (h, target_of a, so_resolution h)
                   (log (run (length events) s)).
Proof.
  induction events as [|h events IH]; intros s now W Hpc; simpl.
  - split; [exact Hpc | contradiction].
  - destruct (step_ready W Hpc) as (a & d & Hpop & Ha & Hs).
    assert (W1 : wf (step s)) by now apply wf_step.
    assert (Hpc1 : pc (step s) = AtReady events now)
      by now rewrite Hs.
    destruct (IH (step s) now W1 Hpc1) as [I1 I2].
    split; [exact I1|].
    intros h' [<-|Hin].
    + exists a. split; [exact Ha|].
      apply run_log_In. rewrite Hs. simpl.
      apply in_or_app. right. now left.
    + destruct (I2 h' Hin) as (a' & Ha' & Hlog).
      exists a'. split; [|exact Hlog].
      rewrite Hs in Ha'. simpl in Ha'.
      now apply (@dict_pop_Some _ _ _ _ _ Hpop).
Qed.

(** C5. For a key [h] of [events], the loop body unregisters [h],
    takes it out of [in_flight], appends the target of its attempt to
    [results] if and only if [SO_ERROR] is zero, closes the socket and
    neither retries nor requeues; the loop does this for every socket
    the selector reported; and in every state [results] is the list of
    the targets resolved with a zero [SO_ERROR], no other entry of the
    journal (non-zero error, timeout) having added any. *)
Theorem ready_resolution ips ports (s : state) :
  reachable ips ports s ->
  (forall h events now,
      pc s = AtReady (h :: events) now ->
      exists a,
        In (h, a) (in_flight s) /\
        pc (step s) = AtReady events now /\
        ~ In h (registered (step s)) /\
        ~ In h (dict_keys (in_flight (step s))) /\
        closed (step s) = closed s ++ [h] /\
        results (step s)
        = (if (so_error E h =? 0)%Z then results s ++ [target_of a]
           else results s) /\
        log (step s) = log s ++ [(h, target_of a, so_resolution h)] /\
        tasks (step s) = tasks s /\
        admitted (step s) = admitted s) /\
  (forall events now,
      pc s = AtReady events now ->
      pc (run (length events) s) = AtReady [] now /\
      forall h, In h events ->
        ~ In h (dict_keys (in_flight (run (length events) s))) /\
        In h (closed (run (length events) s)) /\
        exists a, In (h, a) (in_flight s) /\
                  In (h, target_of a, so_resolution h)
                     (log (run (length events) s))) /\
  results s = successes (log s) /\
  (forall t, In t (results s) <->
             exists h, In (h, t, Success) (log s) /\
                       so_error E h = 0%Z) /\
  (forall h t err, In (h, t, Failure err) (log s) ->
                   err = so_error E h /\ err <> 0%Z).
Proof.
  intro Hr.
  pose proof (wf_reachable Hr) as W.
  pose proof (log_ok_reachable Hr) as [L1 L2 L3].
  assert (Hso : forall h r, r = Timeout \/ r = so_resolution h ->
                match r with
                | Success => so_error E h = 0%Z
                | Failure err => err = so_error E h /\ err <> 0%Z
                | Timeout => True
                end).
  { intros h r [-> | ->]; [exact I|]. unfold so_resolution.
    destruct (Z.eqb_spec (so_error E h) 0); auto. }
  split; [|split; [|split; [|split]]].
  - intros h events now Hpc.
    destruct (step_ready W Hpc) as (a & d & Hpop & Ha & Hs).
    pose proof (wf_step W) as W1.
    assert (Hlog : In (h, target_of a, so_resolution h) (log (step s))).
    { rewrite Hs. simpl. apply in_or_app. right. now left. }
    pose proof (logged_not_in_flight _ _ _ W1 Hlog) as Hout.
    exists a. split; [exact Ha|]. split; [now rewrite Hs|].
    split; [now rewrite (wf_registered W1)|].
    split; [exact Hout|].
    rewrite Hs. simpl. auto.
  - intros events now Hpc.
    destruct (ready_phase W Hpc) as [P1 P2].
    split; [exact P1|].
    intros h Hin. destruct (P2 h Hin) as (a & Ha & Hlog).
    pose proof (wf_run (length events) W) as Wn.
    split; [eapply logged_not_in_flight; eauto|].
    split; [|eauto].
    rewrite (wf_closed Wn). apply in_map_iff.
    exists (h, target_of a, so_resolution h). auto.
  - exact L1.
  - intro t. rewrite L1. unfold successes. rewrite in_flat_map. split.
    + intros [[[h t'] r] [Hin Ht]]. simpl in Ht.
      destruct r; simpl in Ht; try contradiction.
      destruct Ht as [Ht|Ht]; [subst t | contradiction].
      exists h. split; [exact Hin|].
      exact (Hso h Success (L2 _ _ _ Hin)).
    + intros [h [Hin _]]. exists (h, t, Success). split; [exact Hin|].
      simpl. now left.
  - intros h t err Hin. exact (Hso h (Failure err) (L2 _ _ _ Hin)).
Qed.


(** *** Lifecycle of an admitted attempt *)

Lemma returned_empty ips ports (s : state) :
  reachable ips ports s -> pc s = Returned -> in_flight s = [].
Proof.
  revert s.
  apply (@reachable_ind (fun s => pc s = Returned -> in_flight s = [])).
  - unfold init. simpl. auto.
  - intros s Hr IH. unfold Scan.step.
    destruct (pc s) as [| |events now|items now| |e] eqn:Hpc; auto;
      try (intro; congruence).
    + destruct (Z.of_nat (length (in_flight s)) <? concurrency)%Z;
        [|simpl; discriminate].
      destruct (next (tasks s)) as [[t g]|]; [|simpl; discriminate].
      destruct (kick_off_cases t g s)
      as [[-> _] | [(e' & -> & _) | (reg & -> & _)]]; simpl;
        discriminate.
    + destruct (in_flight s) eqn:Hin; simpl; [auto | discriminate].
    + destruct events as [|h events]; [simpl; discriminate|].
      destruct (handle_ready_cases s h events now)
        as [(e & -> & _)|(a & d & _ & _ & -> & _)]; discriminate.
    + destruct items as [|[h a] items]; [simpl; discriminate|].
      destruct (timeout <=? now - a_start a)%Z; [|simpl; discriminate].
      destruct (expire_cases s h a items now)
        as [(e & -> & _)|(a' & d & _ & _ & -> & _)]; discriminate.
Qed.

(** The entries of the journal of resolutions for socket [h]. *)
Definition resolutions_of (h : handle) (s : state)
  : list (handle * target * resolution) :=
  filter (fun e => Nat.eqb (log_handle e) h) (log s).

Lemma resolutions_of_length (s : state) (h : handle) :
  length (resolutions_of h s)
  = count_occ Nat.eq_dec (map log_handle (log s)) h.
Proof.
  unfold resolutions_of. induction (log s) as [|e l IH]; simpl; auto.
  destruct (Nat.eq_dec (log_handle e) h) as [Heq|Hneq].
  - apply Nat.eqb_eq in Heq. rewrite Heq. simpl. now rewrite IH.
  - apply Nat.eqb_neq in Hneq. now rewrite Hneq.
Qed.

(** With its entry in the journal a socket has no other. *)
Lemma resolutions_of_logged (s : state) h t r :
  wf s -> In (h, t, r) (log s) -> resolutions_of h s = [(h, t, r)].
Proof.
  intros W Hin.
  pose proof (NoDup_app_remove_l _ _ (wf_log_NoDup W)) as Hndl.
  unfold resolutions_of.
  revert Hndl Hin. generalize (log s). intro l.
  induction l as [|e l IH]; simpl; [tauto|].
  intros Hn Hin. inversion Hn as [|? ? Hnin Hn']; subst.
  destruct Hin as [->|Hin].
  - simpl. rewrite Nat.eqb_refl. f_equal.
    clear IH Hn Hn'. induction l as [|e l IH]; simpl; auto.
    destruct (Nat.eqb_spec (log_handle e) h) as [Heq|Hneq].
    + exfalso. apply Hnin. simpl. now left.
    + apply IH. intro K. apply Hnin. simpl. now right.
  - destruct (Nat.eqb_spec (log_handle e) h) as [Heq|Hneq].
    + exfalso. apply Hnin. rewrite Heq.
      apply in_map_iff. exists (h, t, r). auto.
    + now apply IH.
Qed.

(** C2, for a scan that does not raise. In every state no socket has
    two resolutions or two [close()]; an admitted attempt is either
    still in [in_flight], unresolved and open, or out of it with one
    resolution (success, failure or timeout) of its own target and one
    [close()]; only admitted attempts are resolved; and when
    [scan_sctp] returns every admitted attempt is in the second
    case. *)
Theorem resolved_once ips ports (s : state) :
  reachable ips ports s ->
  (forall h, (length (resolutions_of h s) <= 1)%nat /\
             (count_occ Nat.eq_dec (closed s) h <= 1)%nat) /\
  (forall h t,
      In (h, t) (admitted s) ->
      (In h (dict_keys (in_flight s)) /\
       resolutions_of h s = [] /\
       count_occ Nat.eq_dec (closed s) h = 0%nat) \/
      (~ In h (dict_keys (in_flight s)) /\
       (exists r, resolutions_of h s = [(h, t, r)]) /\
       count_occ Nat.eq_dec (closed s) h = 1%nat)) /\
  (forall h t r, In (h, t, r) (log s) -> In (h, t) (admitted s)) /\
  (pc s = Returned ->
   forall h t,
     In (h, t) (admitted s) ->
     (exists r, resolutions_of h s = [(h, t, r)]) /\
     count_occ Nat.eq_dec (closed s) h = 1%nat).
Proof.
  intro Hr. pose proof (wf_reachable Hr) as W.
  pose proof (wf_log_NoDup W) as Hnd.
  pose proof (NoDup_app_remove_l _ _ Hnd) as Hndl.
  assert (Hcount : forall h,
             (count_occ Nat.eq_dec (map log_handle (log s)) h <= 1)%nat).
  { intro h. now apply NoDup_count_occ. }
  pose proof (fun h t r => @resolutions_of_logged s h t r W) as Hone.
  assert (Hcases : forall h t,
             In (h, t) (admitted s) ->
             (In h (dict_keys (in_flight s)) /\
              resolutions_of h s = [] /\
              count_occ Nat.eq_dec (closed s) h = 0%nat) \/
             (~ In h (dict_keys (in_flight s)) /\
              (exists r, resolutions_of h s = [(h, t, r)]) /\
              count_occ Nat.eq_dec (closed s) h = 1%nat)).
  { intros h t Hin.
    apply (Permutation_in _ (wf_admitted W)) in Hin.
    apply in_app_or in Hin. destruct Hin as [Hin|Hin].
    - left. apply in_map_iff in Hin.
      destruct Hin as [[h' a] [Heq Hin]]. injection Heq as -> _.
      assert (Hk : In h (dict_keys (in_flight s))).
      { change h with (fst (h, a)). now apply in_map. }
      assert (Hc : count_occ Nat.eq_dec (map log_handle (log s)) h
                   = 0%nat).
      { apply count_occ_not_In. intro K.
        apply in_map_iff in K. destruct K as [[[h' t'] r'] [Heq K]].
        unfold log_handle in Heq. simpl in Heq. subst h'.
        now apply (logged_not_in_flight _ _ _ W K). }
      split; [exact Hk|]. split.
      + apply length_zero_iff_nil. now rewrite resolutions_of_length.
      + now rewrite (wf_closed W).
    - right. apply in_map_iff in Hin.
      destruct Hin as [[[h' t'] r] [Heq Hin]]. injection Heq as -> ->.
      split; [now apply (logged_not_in_flight _ _ _ W Hin)|].
      split; [exists r; now apply Hone|].
      rewrite (wf_closed W), <- resolutions_of_length.
      now rewrite (Hone _ _ _ Hin). }
  split; [|split; [|split]].
  - intro h. rewrite resolutions_of_length, (wf_closed W). auto.
  - exact Hcases.
  - intros h t r Hin.
    apply (Permutation_in _ (Permutation_sym (wf_admitted W))).
    apply in_or_app. right. apply in_map_iff. exists (h, t, r). auto.
  - intros Hret h t Hin.
    destruct (Hcases h t Hin) as [(Hk & _)|(_ & H1 & H2)]; [|auto].
    rewrite (returned_empty Hr Hret) in Hk. contradiction.
Qed.

(** *** Failures of the system calls *)

(** The first call of an admission that fails, of [socket.socket],
    [connect_ex] and [selector.register] in that order, and what it
    raises. *)
Inductive admission_fails (s : state) : exn -> Prop :=
| CreationFails :
    socket_ok E (opened s) = false \/ can_open E s = false ->
    admission_fails s OSError
| ConnectRaises (e : exn) :
    socket_ok E (opened s) = true -> can_open E s = true ->
    connect_exn (connect_ex E (opened s)) = Some e ->
    admission_fails s e
| RegistrationFails :
    socket_ok E (opened s) = true -> can_open E s = true ->
    connect_ex E (opened s) = Returns ->
    register_ok E (opened s) = false ->
    admission_fails s OSError.

(** C3, as the code has it. When [socket.socket] or
    [selector.register] fails in the refill loop (or [connect_ex]
    raises between them) the exception leaves [scan_sctp]: the scan
    stops there for good and returns no result; the target taken from
    [tasks] is neither admitted, nor recorded as a failure, nor put
    back, and the attempts in flight stay as they were, registered and
    open. When none of the three calls fails the target is admitted. A
    failure of [DefaultSelector()] ends the scan with an exception too,
    before any socket: it is one of the failures that abort the scan,
    not the only one. *)
Theorem admission_failure_aborts ips ports :
  (forall (s : state) t g e,
      reachable ips ports s ->
      pc s = AtRefill ->
      (Z.of_nat (length (in_flight s)) < concurrency)%Z ->
      next (tasks s) = Some (t, g) ->
      admission_fails s e ->
      pc (step s) = Raised e /\
      (forall n, run n (step s) = step s) /\
      (forall n, outcome_of (run (S n) s) = Exception host port e) /\
      tasks (step s) = g /\
      admitted (step s) = admitted s /\
      in_flight (step s) = in_flight s /\
      registered (step s) = registered s /\
      results (step s) = results s /\
      log (step s) = log s /\
      closed (step s) = closed s /\
      advanced (step s) = advanced s) /\
  (forall (s : state) t g,
      reachable ips ports s ->
      pc s = AtRefill ->
      (Z.of_nat (length (in_flight s)) < concurrency)%Z ->
      next (tasks s) = Some (t, g) ->
      (forall e, ~ admission_fails s e) ->
      pc (step s) = AtRefill /\
      tasks (step s) = g /\
      admitted (step s) = admitted s ++ [(opened s, t)] /\
      dict_keys (in_flight (step s))
      = dict_keys (in_flight s) ++ [opened s]) /\
  (selector_ok E = false ->
   forall n,
     scan_sctp E concurrency timeout n ips ports
     = Exception host port OSError /\
     opened (run n (init E ips ports)) = 0%nat).
Proof.
  split; [|split].
  - intros s t g e Hr Hpc Hlt Hnext Hfail.
    assert (Hs : step s = kick_off E t g s).
    { unfold Scan.step. rewrite Hpc.
      apply Z.ltb_lt in Hlt. now rewrite Hlt, Hnext. }
    assert (Hk : exists s0,
               kick_off E t g s = goto (Raised e) s0 /\
               (s0 = set_tasks g s \/ s0 = socket_created (set_tasks g s))).
    { destruct (kick_off_cases t g s)
        as [[K Hc] | [(e' & K & Hc & Hwhy) | (reg & K & Hc & Hcn & Hrg & _)]].
      - exists (set_tasks g s).
        apply andb_false_iff in Hc.
        inversion Hfail as [Hcr | e0 H1 H2 H3 | H1 H2 H3 H4]; subst;
          [auto | destruct Hc; congruence ..].
      - exists (socket_created (set_tasks g s)).
        apply andb_true_iff in Hc. destruct Hc as [Hc1 Hc2].
        inversion Hfail as [Hcr | e0 H1 H2 H3 | H1 H2 H3 H4]; subst.
        + destruct Hcr; congruence.
        + destruct Hwhy as [Hw | [(Hw & _) | (Hw & _)]];
            [assert (e' = e) by congruence; subst; auto
            |rewrite Hw in H3; discriminate ..].
        + destruct Hwhy as [Hw | [(_ & _ & ->) | (_ & Hw & _)]];
            [rewrite H3 in Hw; discriminate | auto | congruence].
      - exfalso.
        apply andb_true_iff in Hc. destruct Hc as [Hc1 Hc2].
        inversion Hfail as [Hcr | e0 H1 H2 H3 | H1 H2 H3 H4]; subst;
          [destruct Hcr; congruence
          |rewrite Hcn in H3; discriminate
          |congruence]. }
    destruct Hk as (s0 & Hk & Hs0).
    rewrite Hs, Hk.
    assert (Hterm : terminal (goto (Raised e) s0)) by (right; simpl; eauto).
    split; [reflexivity|].
    split; [intro n; now apply run_terminal|].
    split.
    { intro n. simpl. rewrite Hs, Hk, run_terminal by exact Hterm.
      reflexivity. }
    destruct Hs0 as [-> | ->]; simpl; repeat split; reflexivity.
  - intros s t g Hr Hpc Hlt Hnext Hnone.
    pose proof (wf_reachable Hr) as W.
    assert (Hnr : forall e, pc s <> Raised e) by (intro; congruence).
    pose proof (wf_fresh W Hnr) as Hfresh.
    assert (Hs : step s = kick_off E t g s).
    { unfold Scan.step. rewrite Hpc.
      apply Z.ltb_lt in Hlt. now rewrite Hlt, Hnext. }
    rewrite Hs.
    destruct (kick_off_cases t g s)
      as [[K Hc] | [(e' & K & Hc & Hwhy) | (reg & -> & Hc & Hcn & Hrg & Hsel)]].
    + exfalso. apply (Hnone OSError). apply CreationFails.
      apply andb_false_iff in Hc. exact Hc.
    + exfalso. apply andb_true_iff in Hc. destruct Hc as [Hc1 Hc2].
      destruct Hwhy as [Hw | [(Hw & Hg & ->) | (_ & _ & Hw & _)]].
      * apply (Hnone e'). now apply ConnectRaises.
      * apply (Hnone OSError). now apply RegistrationFails.
      * unfold sel_register in Hw.
        destruct (mem (opened s) (registered s)) eqn:Hm; [|discriminate].
        apply mem_In in Hm. rewrite (wf_registered W) in Hm. contradiction.
    + simpl. repeat split; auto.
      rewrite dict_set_fresh by exact Hfresh.
      unfold dict_keys. rewrite map_app. reflexivity.
  - intros Hsel n.
    assert (K : terminal (init E ips ports)).
    { right. exists OSError. unfold init. simpl. now rewrite Hsel. }
    unfold scan_sctp. rewrite run_terminal by exact K.
    unfold outcome_of, init. simpl. now rewrite Hsel.
Qed.


(** *** Ready before expired *)

(** C9. Take a poll at which an attempt in flight is reported writable
    while its deadline has passed at the [now] of that poll. When the
    loop over [events] is over (and so before the sweep takes its
    snapshot) the socket is out of [in_flight] and is resolved by its
    [SO_ERROR]; the snapshot the sweep iterates over is the
    [in_flight] left; and from then on, in this turn of the loop and
    ever after, that resolution is the only one of the socket: it is
    neither resolved as a timeout nor resolved twice. *)
Theorem ready_before_sweep ips ports (s : state) h a :
  reachable ips ports s ->
  pc s = AtPoll ->
  In (h, a) (in_flight s) ->
  In h (reported E (polls s)) ->
  (timeout <= wall E (reads s) - a_start a)%Z ->
  let events := sel_select (registered s) (reported E (polls s)) in
  let now := wall E (reads s) in
  let s1 := run (S (length events)) s in
  In h events /\
  pc s1 = AtReady [] now /\
  pc (step s1) = AtSweep (in_flight s1) now /\
  ~ In h (dict_keys (in_flight s1)) /\
  so_resolution h <> Timeout /\
  forall n,
    resolutions_of h (run n s1) = [(h, target_of a, so_resolution h)].
Proof.
  intros Hr Hpc Ha Hrep Hexp events now s1.
  pose proof (wf_reachable Hr) as W.
  assert (Hk : In h (dict_keys (in_flight s))).
  { change h with (fst (h, a)). now apply in_map. }
  assert (Hev : In h events).
  { apply sel_select_In. now rewrite (wf_registered W). }
  assert (Hstep : step s = poll E s).
  { unfold Scan.step. rewrite Hpc.
    destruct (in_flight s); [contradiction | reflexivity]. }
  assert (W0 : wf (poll E s)) by now apply wf_poll.
  assert (Hpc0 : pc (poll E s) = AtReady events now) by reflexivity.
  destruct (ready_phase W0 Hpc0) as [P1 P2].
  assert (Hs1 : s1 = run (length events) (poll E s)).
  { unfold s1. simpl. now rewrite Hstep. }
  assert (W1 : wf s1) by (rewrite Hs1; now apply wf_run).
  destruct (P2 h Hev) as (a' & Ha' & Hlog).
  simpl in Ha'.
  assert (a' = a)
    by exact (@NoDup_keys_functional _ h a' a (in_flight s)
                (wf_nodup W) Ha' Ha).
  subst a'. rewrite <- Hs1 in Hlog, P1.
  split; [exact Hev|]. split; [exact P1|].
  split; [unfold Scan.step; now rewrite P1|].
  split; [eapply logged_not_in_flight; eauto|].
  split.
  - unfold so_resolution. destruct (so_error E h =? 0)%Z; discriminate.
  - intro n. apply resolutions_of_logged.
    + now apply wf_run.
    + now apply run_log_In.
Qed.


(** *** Termination *)

Lemma terminal_dec (s : state) : {terminal s} + {~ terminal s}.
Proof.
  unfold terminal. destruct (pc s); try (left; eauto; fail);
    right; intros [H|[e' H]]; discriminate.
Qed.

(** Three measures that go down in lexicographic order along the
    transitions bring the scan to a terminal state. *)
Lemma lex_terminates (Inv : state -> Prop) (m1 m2 m3 : state -> nat) :
  (forall s, Inv s -> Inv (step s)) ->
  (forall s, Inv s -> ~ terminal s ->
             (m1 (step s) < m1 s)%nat \/
             (m1 (step s) = m1 s /\ (m2 (step s) < m2 s)%nat) \/
             (m1 (step s) = m1 s /\ m2 (step s) = m2 s /\
              (m3 (step s) < m3 s)%nat)) ->
  forall s, Inv s -> exists n, terminal (run n s).
Proof.
  intros Hinv Hdec.
  assert (K : forall a b c s,
             m1 s = a -> m2 s = b -> m3 s = c -> Inv s ->
             exists n, terminal (run n s)).
  { induction a as [a IHa] using lt_wf_ind.
    induction b as [b IHb] using lt_wf_ind.
    induction c as [c IHc] using lt_wf_ind.
    intros s H1 H2 H3 HI.
    destruct (terminal_dec s) as [Ht|Hn]; [now exists 0%nat|].
    assert (Hnext : exists n, terminal (run n (step s))).
    { destruct (Hdec s HI Hn) as [L|[[L1 L]|[L1 [L2 L]]]].
      - eapply (IHa (m1 (step s))); eauto. lia.
      - eapply (IHb (m2 (step s))); eauto; lia.
      - eapply (IHc (m3 (step s))); eauto; lia. }
    destruct Hnext as [n Hterm]. now exists (S n). }
  intros s HI. eapply K; eauto.
Qed.

(** Start stamps and [now] are readings of [time.time()]: the stamp of
    an attempt in flight is an earlier reading, [now] the last one. *)
Record stamped (s : state) : Prop := mkStamped {
  st_stamp : forall x,
      In x (in_flight s) ->
      a_start (snd x) = wall E (a_read (snd x)) /\
      (a_read (snd x) < reads s)%nat;
  st_now :
    match pc s with
    | AtReady _ now | AtSweep _ now =>
        (1 <= reads s)%nat /\ now = wall E (reads s - 1)
    | _ => True
    end
}.

Lemma stamped_init ips ports : stamped (init E ips ports).
Proof.
  unfold init. constructor; simpl; [contradiction|].
  destruct (selector_ok E); exact I.
Qed.

Lemma stamped_step (s : state) : wf s -> stamped s -> stamped (step s).
Proof.
  intros W [T1 T2].
  destruct (pc s) as [| |events now|items now| |e] eqn:Hpc.
  - (* refill *)
    unfold Scan.step. rewrite Hpc.
    destruct (Z.of_nat (length (in_flight s)) <? concurrency)%Z;
      [|constructor; simpl; auto].
    destruct (next (tasks s)) as [[t g]|]; [|constructor; simpl; auto].
    destruct (kick_off_cases t g s)
      as [[-> _] | [(e' & -> & _) | (reg & -> & _)]];
      [constructor; simpl; auto .. |].
    constructor; simpl; [|exact I].
    intros x Hx. apply dict_set_In in Hx. destruct Hx as [->|Hx].
    + simpl. split; [reflexivity | lia].
    + destruct (T1 x Hx). split; [assumption | lia].
  - (* poll *)
    unfold Scan.step. rewrite Hpc.
    destruct (in_flight s) eqn:Hin.
    { constructor; simpl; [|exact I].
      intros x Hx. rewrite Hin in Hx. contradiction. }
    constructor; simpl.
    + intros x Hx. rewrite Hin in Hx. destruct (T1 x Hx).
      split; [assumption | lia].
    + split; [lia|]. now rewrite Nat.sub_0_r.
  - (* ready *)
    destruct events as [|h events].
    + unfold Scan.step. rewrite Hpc. constructor; simpl; auto.
    + destruct (step_ready W Hpc) as (a & d & Hpop & _ & ->).
      destruct (@dict_pop_Some _ _ _ _ _ Hpop) as (_ & _ & _ & P4 & _).
      constructor; simpl; auto.
  - (* sweep *)
    destruct items as [|[h a] items].
    + unfold Scan.step. rewrite Hpc. constructor; simpl; auto.
    + destruct (Z.le_gt_cases timeout (now - a_start a))
        as [Hexp|Hlive].
      * destruct (step_expire W Hpc Hexp) as (d & Hpop & ->).
        destruct (@dict_pop_Some _ _ _ _ _ Hpop)
          as (_ & _ & _ & P4 & _).
        constructor; simpl; auto.
      * rewrite (step_skip s Hpc Hlive).
        constructor; simpl; auto.
  - unfold Scan.step. rewrite Hpc. constructor; auto.
    now rewrite Hpc.
  - unfold Scan.step. rewrite Hpc. constructor; auto.
    now rewrite Hpc.
Qed.

Lemma stamped_reachable ips ports (s : state) :
  reachable ips ports s -> stamped s.
Proof.
  revert s. apply (@reachable_ind stamped).
  - apply stamped_init.
  - intros s Hr. apply stamped_step. eapply wf_reachable; eauto.
Qed.

Section Clock.

(** The clock goes on: any [D] consecutive readings of [time.time()]
    span at least [timeout]. *)
Variable D : nat.

Definition clock_advances : Prop :=
  forall i j, (i + D <= j)%nat -> (timeout <= wall E j - wall E i)%Z.

Hypothesis Hclock : clock_advances.

(** The reading that stamped [x] is less than [D] readings old. *)
Definition fresh (s : state) (x : handle * attempt) : Prop :=
  (reads s <= a_read (snd x) + D)%nat.

(** During the sweep the attempts already looked at are fresh. *)
Definition sweep_fresh (s : state) : Prop :=
  match pc s with
  | AtSweep items _ =>
      forall x, In x (in_flight s) -> fresh s x \/ In x items
  | _ => True
  end.

Definition timed (s : state) : Prop :=
  wf s /\ stamped s /\ sweep_fresh s.

Lemma timed_init ips ports : timed (init E ips ports).
Proof.
  split; [apply wf_init|]. split; [apply stamped_init|].
  unfold sweep_fresh, init. simpl. destruct (selector_ok E); exact I.
Qed.

Lemma sweep_fresh_step (s : state) :
  wf s -> stamped s -> sweep_fresh s -> sweep_fresh (step s).
Proof.
  intros W [T1 T2] T4. unfold sweep_fresh in *.
  destruct (pc s) as [| |events now|items now| |e] eqn:Hpc.
  - unfold Scan.step. rewrite Hpc.
    destruct (Z.of_nat (length (in_flight s)) <? concurrency)%Z;
      [|exact I].
    destruct (next (tasks s)) as [[t g]|]; [|exact I].
    destruct (admit_pc s t g) as [->|[e ->]]; exact I.
  - unfold Scan.step. rewrite Hpc.
    destruct (in_flight s); exact I.
  - destruct events as [|h events].
    + unfold Scan.step. rewrite Hpc. simpl. auto.
    + destruct (step_ready W Hpc) as (a & d & _ & _ & ->). exact I.
  - destruct T2 as [T2 T3].
    destruct items as [|[h a] items].
    + unfold Scan.step. rewrite Hpc. exact I.
    + destruct (Z.le_gt_cases timeout (now - a_start a))
        as [Hexp|Hlive].
      * destruct (step_expire W Hpc Hexp) as (d & Hpop & ->).
        destruct (@dict_pop_Some _ _ _ _ _ Hpop)
          as (_ & _ & _ & P4 & _).
        destruct (@dict_pop_NoDup _ _ _ _ _ (wf_nodup W) Hpop)
          as [_ N2].
        simpl. intros x Hx.
        destruct (T4 x (P4 x Hx)) as [K|[K|K]]; auto.
        exfalso. apply N2. subst x.
        change h with (fst (h, a)). now apply in_map.
      * rewrite (step_skip s Hpc Hlive). simpl.
        intros x Hx. destruct (T4 x Hx) as [K|[K|K]]; auto.
        left. subst x. unfold fresh. simpl.
        destruct (T1 _ Hx) as [Hst Hrd]. simpl in Hst, Hrd.
        destruct (Nat.le_gt_cases (reads s) (a_read a + D))
          as [Hle|Hgt]; [exact Hle|].
        exfalso.
        assert (Hspan : (a_read a + D <= reads s - 1)%nat) by lia.
        apply Hclock in Hspan. rewrite <- T3, <- Hst in Hspan. lia.
  - unfold Scan.step. rewrite Hpc. now rewrite Hpc.
  - unfold Scan.step. rewrite Hpc. now rewrite Hpc.
Qed.

Lemma timed_step (s : state) : timed s -> timed (step s).
Proof.
  intros (W & T & F). split; [now apply wf_step|].
  split; [now apply stamped_step | now apply sweep_fresh_step].
Qed.

(** The three measures: work left (a target still to come counts
    twice, an attempt in flight once); readings left before the
    oldest attempt in flight is [D] readings old; position in the
    current turn of the loop. *)
Definition major (s : state) : nat :=
  2 * length (remaining (tasks s)) + length (in_flight s).

Definition oldest (s : state) : nat :=
  fold_right Nat.min (reads s)
             (map (fun x => a_read (snd x)) (in_flight s)).

Definition slack (s : state) : nat :=
  oldest s + D + 2
  - match pc s with
    | AtReady _ _ | AtSweep _ _ => reads s
    | _ => S (reads s)
    end.

Definition phase (s : state) : nat :=
  match pc s with
  | AtRefill => length (in_flight s) + 3
  | AtPoll => length (in_flight s) + 2
  | AtReady _ _ => length (in_flight s) + 1
  | AtSweep items _ => length items
  | _ => 0
  end.

Lemma fold_min_default (l : list nat) (d d' : nat) :
  l <> [] -> (forall x, In x l -> x <= d /\ x <= d')%nat ->
  fold_right Nat.min d l = fold_right Nat.min d' l.
Proof.
  induction l as [|x l IH]; [congruence|]. intros _ Hb. simpl.
  destruct l as [|y l].
  - simpl. destruct (Hb x); [now left | lia].
  - rewrite IH; [reflexivity | discriminate |].
    intros z Hz. apply Hb. now right.
Qed.

Lemma fold_min_lower (l : list nat) (d b : nat) :
  (b <= d)%nat -> (forall x, In x l -> b <= x)%nat ->
  (b <= fold_right Nat.min d l)%nat.
Proof.
  intros Hd. induction l as [|x l IH]; simpl; intro Hb; [exact Hd|].
  apply Nat.min_glb; [apply Hb; now left|].
  apply IH. intros y Hy. apply Hb. now right.
Qed.

Lemma admit_major (s : state) t g :
  next (tasks s) = Some (t, g) -> (major (kick_off E t g s) < major s)%nat.
Proof.
  intro Hnext. apply next_Some in Hnext.
  pose proof (admit_in_flight s t g) as Hlen.
  assert (Ht : tasks (kick_off E t g s) = g).
  { destruct (kick_off_cases t g s)
      as [[-> _] | [(e' & -> & _) | (reg & -> & _)]]; simpl; auto. }
  unfold major. rewrite Ht, Hnext. simpl. lia.
Qed.

Lemma measure_decreases (s : state) :
  timed s -> ~ terminal s ->
  (major (step s) < major s)%nat \/
  (major (step s) = major s /\ (slack (step s) < slack s)%nat) \/
  (major (step s) = major s /\ slack (step s) = slack s /\
   (phase (step s) < phase s)%nat).
Proof.
  intros (W & [T1 T2] & T4) Hnt. unfold sweep_fresh in T4.
  destruct (pc s) as [| |events now|items now| |e] eqn:Hpc.
  - (* refill *)
    unfold Scan.step. rewrite Hpc.
    destruct (Z.of_nat (length (in_flight s)) <? concurrency)%Z.
    + destruct (next (tasks s)) as [[t g]|] eqn:Hnext.
      * left. now apply admit_major.
      * right. right. unfold major, slack, oldest, phase. simpl.
        rewrite Hpc. repeat split; lia.
    + right. right. unfold major, slack, oldest, phase. simpl.
      rewrite Hpc. repeat split; lia.
  - (* poll *)
    unfold Scan.step. rewrite Hpc.
    destruct (in_flight s) as [|x0 l0] eqn:Hin.
    + right. right. unfold major, slack, oldest, phase. simpl.
      rewrite Hpc, Hin. simpl. repeat split; lia.
    + right. right.
      assert (Ho : oldest (poll E s) = oldest s).
      { unfold oldest. simpl. rewrite Hin.
        apply fold_min_default; [discriminate|].
        intros z Hz. apply in_map_iff in Hz.
        destruct Hz as [x [<- Hx]].
        destruct (T1 x Hx). lia. }
      unfold major, slack, phase. rewrite Ho. simpl.
      rewrite Hpc, Hin. simpl. repeat split; lia.
  - (* ready *)
    destruct events as [|h events].
    + unfold Scan.step. rewrite Hpc. right. right.
      unfold major, slack, oldest, phase. simpl. rewrite Hpc.
      repeat split; lia.
    + destruct (step_ready W Hpc) as (a & d & Hpop & _ & ->).
      destruct (@dict_pop_Some _ _ _ _ _ Hpop) as (_ & _ & P3 & _).
      left. unfold major. simpl. lia.
  - (* sweep *)
    destruct items as [|[h a] items].
    + unfold Scan.step. rewrite Hpc. right. left.
      assert (Hold : (reads s <= oldest s + D)%nat).
      { unfold oldest.
        destruct (Nat.le_gt_cases D (reads s)) as [HD|HD]; [|lia].
        assert (K : (reads s - D
                     <= fold_right Nat.min (reads s)
                          (map (fun x => a_read (snd x))
                               (in_flight s)))%nat).
        { apply fold_min_lower; [lia|].
          intros z Hz. apply in_map_iff in Hz.
          destruct Hz as [x [<- Hx]].
          destruct (T4 x Hx) as [K|[]]. unfold fresh in K. lia. }
        lia. }
      unfold major, slack. simpl. rewrite Hpc.
      unfold oldest in *. simpl. split; lia.
    + destruct (Z.le_gt_cases timeout (now - a_start a))
        as [Hexp|Hlive].
      * destruct (step_expire W Hpc Hexp) as (d & Hpop & ->).
        destruct (@dict_pop_Some _ _ _ _ _ Hpop) as (_ & _ & P3 & _).
        left. unfold major. simpl. lia.
      * rewrite (step_skip s Hpc Hlive). right. right.
        unfold major, slack, oldest, phase. simpl. rewrite Hpc.
        simpl. repeat split; lia.
  - exfalso. apply Hnt. now left.
  - exfalso. apply Hnt. right. eauto.
Qed.

(** Whatever the sockets do, the scan reaches [return] or an
    exception. *)
Lemma scan_reaches_terminal ips ports :
  exists n, terminal (run n (init E ips ports)).
Proof.
  apply (@lex_terminates timed major slack phase).
  - apply timed_step.
  - apply measure_decreases.
  - apply timed_init.
Qed.

End Clock.


(** *** Leaving the loop *)

(** The only transition to [return] is the [break] of the test
    [if not in_flight]. *)
Lemma step_returned (s : state) :
  pc (step s) = Returned ->
  pc s = Returned \/
  (pc s = AtPoll /\ in_flight s = [] /\ step s = goto Returned s).
Proof.
  unfold Scan.step.
  destruct (pc s) as [| |events now|items now| |e] eqn:Hpc; auto;
    try (intro; congruence).
  - destruct (Z.of_nat (length (in_flight s)) <? concurrency)%Z;
      [|simpl; discriminate].
    destruct (next (tasks s)) as [[t g]|]; [|simpl; discriminate].
    destruct (admit_pc s t g) as [->|[e ->]]; discriminate.
  - destruct (in_flight s) eqn:Hin; simpl; [auto | discriminate].
  - destruct events as [|h events]; [simpl; discriminate|].
    destruct (handle_ready_cases s h events now)
      as [(e & -> & _)|(a & d & _ & _ & -> & _)]; discriminate.
  - destruct items as [|[h a] items]; [simpl; discriminate|].
    destruct (timeout <=? now - a_start a)%Z; [|simpl; discriminate].
    destruct (expire_cases s h a items now)
      as [(e & -> & _)|(a' & d & _ & _ & -> & _)]; discriminate.
Qed.

(** With a positive bound the refill loop stops on an empty
    [in_flight] only by [StopIteration]. *)
Lemma exhausted_at_poll ips ports (s : state) :
  (0 < concurrency)%Z ->
  reachable ips ports s ->
  pc s = AtPoll -> in_flight s = [] -> remaining (tasks s) = [].
Proof.
  intro Hc. revert s.
  apply (@reachable_ind
           (fun s => pc s = AtPoll -> in_flight s = [] ->
                     remaining (tasks s) = [])).
  - unfold init. simpl. destruct (selector_ok E); discriminate.
  - intros s Hr IH. unfold Scan.step.
    destruct (pc s) as [| |events now|items now| |e] eqn:Hpc; auto;
      try (intro; congruence).
    + destruct (Z.ltb_spec (Z.of_nat (length (in_flight s))) concurrency)
        as [Hlt|Hge].
      * destruct (next (tasks s)) as [[t g]|] eqn:Hnext.
        -- destruct (admit_pc s t g) as [->|[e ->]]; discriminate.
        -- simpl. intros _ _. now apply next_None.
      * simpl. intros _ Hin. rewrite Hin in Hge. simpl in Hge. lia.
    + destruct (in_flight s) eqn:Hin; simpl; discriminate.
    + destruct events as [|h events]; [simpl; discriminate|].
      destruct (handle_ready_cases s h events now)
        as [(e & -> & _)|(a & d & _ & _ & -> & _)]; discriminate.
    + destruct items as [|[h a] items]; [simpl; discriminate|].
      destruct (timeout <=? now - a_start a)%Z; [|simpl; discriminate].
      destruct (expire_cases s h a items now)
        as [(e & -> & _)|(a' & d & _ & _ & -> & _)]; discriminate.
Qed.

Lemma returned_exhausted ips ports (s : state) :
  (0 < concurrency)%Z ->
  reachable ips ports s ->
  pc s = Returned -> remaining (tasks s) = [].
Proof.
  intro Hc. revert s.
  apply (@reachable_ind
           (fun s => pc s = Returned -> remaining (tasks s) = [])).
  - unfold init. simpl. destruct (selector_ok E); discriminate.
  - intros s Hr IH Hret.
    destruct (step_returned s Hret) as [K|(K1 & K2 & K3)].
    + rewrite step_terminal; [auto | now left].
    + rewrite K3. simpl. eapply exhausted_at_poll; eauto.
Qed.




(** *** Which targets are admitted *)

(** A transition takes from [tasks] only for an admission. *)
Lemma step_tasks (s : state) :
  (tasks (step s) = tasks s /\ admitted (step s) = admitted s) \/
  (pc s = AtRefill /\
   exists t g, next (tasks s) = Some (t, g) /\ step s = kick_off E t g s).
Proof.
  unfold Scan.step.
  destruct (pc s) as [| |events now|items now| |e] eqn:Hpc; auto.
  - destruct (Z.of_nat (length (in_flight s)) <? concurrency)%Z; auto.
    destruct (next (tasks s)) as [[t g]|]; auto.
    right. split; [reflexivity|]. eauto.
  - destruct (in_flight s); auto.
  - destruct events as [|h events]; auto.
    left. unfold handle_ready.
    destruct (dict_pop h (in_flight s)) as [[a d]|]; simpl; auto.
    destruct (sel_unregister h (registered s)); simpl; auto.
  - destruct items as [|[h a] items]; auto.
    destruct (timeout <=? now - a_start a)%Z; auto.
    left. unfold expire.
    destruct (sel_unregister h (registered s)); simpl; auto.
    destruct (dict_pop h (in_flight s)) as [[a' d]|]; simpl; auto.
Qed.

Lemma skipn_cons_firstn (A : Type) (l : list A) (k : nat) (x : A) r :
  skipn k l = x :: r ->
  firstn (S k) l = firstn k l ++ [x] /\ skipn (S k) l = r.
Proof.
  revert l. induction k as [|k IH]; intros l H.
  - simpl in H. subst l. simpl. split; reflexivity.
  - destruct l as [|y l]; [discriminate|].
    simpl in H. destruct (IH l H) as [I1 I2].
    split; [|exact I2].
    change (firstn (S (S k)) (y :: l)) with (y :: firstn (S k) l).
    rewrite I1. reflexivity.
Qed.

(** The attempts admitted are those of the first targets of the
    sequence, socket [k] for the [k]-th, and [tasks] holds the rest. *)
Record targets_ok ips ports (s : state) : Prop := mkTargetsOk {
  tg_admitted :
    map snd (admitted s)
    = firstn (length (admitted s)) (host_major ips ports);
  tg_tasks :
    (forall e, pc s <> Raised e) ->
    remaining (tasks s)
    = skipn (length (admitted s)) (host_major ips ports)
}.

Lemma targets_ok_reachable ips ports (s : state) :
  reachable ips ports s -> targets_ok ips ports s.
Proof.
  revert s. apply (@reachable_ind (targets_ok ips ports)).
  - unfold init. constructor; simpl; auto.
  - intros s Hr [G1 G2]. pose proof (wf_reachable Hr) as W.
    destruct (step_tasks s) as [[Ht Ha]|(Hpc & t & g & Hnext & Hs)].
    + constructor; rewrite ?Ht, ?Ha; auto.
      intro Hnr. apply G2. intros e He. apply (Hnr e).
      rewrite step_terminal; [exact He | right; eauto].
    + assert (Hnr : forall e, pc s <> Raised e) by (intro; congruence).
      specialize (G2 Hnr).
      apply next_Some in Hnext. rewrite G2 in Hnext.
      destruct (skipn_cons_firstn _ _ Hnext) as [F1 F2].
      rewrite Hs.
      destruct (kick_off_cases t g s)
        as [[-> _] | [(e' & -> & _) | (reg & -> & _)]];
        [constructor; simpl; auto; intro K; now elim (K OSError)
        |constructor; simpl; auto; intro K; now elim (K e')|].
      constructor; simpl.
      * rewrite map_app, length_app, G1. simpl.
        rewrite Nat.add_1_r, F1. reflexivity.
      * intros _. rewrite length_app. simpl.
        rewrite Nat.add_1_r. symmetry. exact F2.
Qed.

Lemma combine_fst_snd (A B : Type) (l : list (A * B)) :
  l = combine (map fst l) (map snd l).
Proof.
  induction l as [|[a b] l IH]; simpl; [reflexivity | now rewrite <- IH].
Qed.

(** At [return], with a positive bound, all targets have been
    admitted. *)
Lemma returned_admitted ips ports (s : state) :
  (0 < concurrency)%Z ->
  reachable ips ports s -> pc s = Returned ->
  admitted s
  = combine (seq 0 (length (host_major ips ports)))
            (host_major ips ports).
Proof.
  intros Hc Hr Hret.
  pose proof (wf_reachable Hr) as W.
  destruct (targets_ok_reachable Hr) as [G1 G2].
  assert (Hnr : forall e, pc s <> Raised e) by (intro; congruence).
  specialize (G2 Hnr).
  rewrite (returned_exhausted Hc Hr Hret) in G2.
  assert (Hlen : length (admitted s) = length (host_major ips ports)).
  { apply (f_equal (@length _)) in G1, G2.
    rewrite length_map, length_firstn in G1.
    rewrite length_skipn in G2. simpl in G2. lia. }
  rewrite (combine_fst_snd (admitted s)) at 1.
  rewrite (wf_handles W), G1, Hlen, firstn_all. reflexivity.
Qed.


(** *** Outcomes that do not depend on the moment of the poll *)

Section Outcomes.

(** Whether the system reports a socket writable is the same at
    every poll ([so_error] is a function of the socket already). *)
Definition fixed_outcomes : Prop :=
  forall k k' h, In h (reported E k) -> In h (reported E k').

Hypothesis Hfixed : fixed_outcomes.

Definition responds (h : handle) : bool := mem h (reported E 0).

(** How the attempt on socket [h] must end. *)
Definition resolution_for (h : handle) : resolution :=
  if responds h then so_resolution h else Timeout.

Record outcomes_ok (s : state) : Prop := mkOutcomesOk {
  oc_log : forall h t r, In (h, t, r) (log s) -> r = resolution_for h;
  oc_pc :
    match pc s with
    | AtReady events _ =>
        (forall h, In h events -> responds h = true) /\
        (forall h, In h (dict_keys (in_flight s)) ->
                   responds h = true -> In h events)
    | AtSweep _ _ =>
        forall h, In h (dict_keys (in_flight s)) -> responds h = false
    | _ => True
    end
}.

Lemma outcomes_ok_step (s : state) :
  wf s -> outcomes_ok s -> outcomes_ok (step s).
Proof.
  intros W [O1 O2].
  destruct (pc s) as [| |events now|items now| |e] eqn:Hpc.
  - destruct (step_quiet s) as (_ & Q & _); [now rewrite Hpc|].
    constructor; [now rewrite Q|].
    unfold Scan.step. rewrite Hpc.
    destruct (Z.of_nat (length (in_flight s)) <? concurrency)%Z;
      [|exact I].
    destruct (next (tasks s)) as [[t g]|]; [|exact I].
    destruct (admit_pc s t g) as [->|[e ->]]; exact I.
  - destruct (step_quiet s) as (_ & Q & _); [now rewrite Hpc|].
    constructor; [now rewrite Q|].
    unfold Scan.step. rewrite Hpc.
    destruct (in_flight s) eqn:Hin; [exact I|]. simpl. split.
    + intros h Hh. apply sel_select_In in Hh. destruct Hh as [_ Hh].
      apply mem_In. exact (Hfixed _ 0%nat _ Hh).
    + intros h Hh Hresp. apply sel_select_In. split.
      * rewrite (wf_registered W). exact Hh.
      * apply mem_In in Hresp. exact (Hfixed _ (polls s) _ Hresp).
  - destruct O2 as [O2 O3].
    destruct events as [|h events].
    + destruct (step_quiet s) as (_ & Q & _); [now rewrite Hpc|].
      constructor; [now rewrite Q|].
      unfold Scan.step. rewrite Hpc. simpl.
      intros h Hh. destruct (responds h) eqn:Hresp; [|reflexivity].
      destruct (O3 h Hh Hresp).
    + destruct (step_ready W Hpc) as (a & d & Hpop & _ & ->).
      destruct (@dict_pop_Some _ _ _ _ _ Hpop) as (_ & P2 & _).
      destruct (@dict_pop_NoDup _ _ _ _ _ (wf_nodup W) Hpop)
        as [_ N2].
      constructor; simpl.
      * intros h' t r Hin. apply in_app_or in Hin.
        destruct Hin as [Hin|[Hin|[]]]; [eauto|].
        injection Hin as <- <- <-. unfold resolution_for.
        rewrite O2; [reflexivity | now left].
      * split; [intros h' Hh'; apply O2; now right|].
        intros h' Hh' Hresp.
        assert (K : In h' (dict_keys (in_flight s))).
        { rewrite P2 in Hh'. eapply remove_first_incl; eauto. }
        destruct (O3 h' K Hresp) as [<-|]; [contradiction | assumption].
  - destruct items as [|[h a] items].
    + destruct (step_quiet s) as (_ & Q & _); [now rewrite Hpc|].
      constructor; [now rewrite Q|].
      unfold Scan.step. rewrite Hpc. exact I.
    + destruct (Z.le_gt_cases timeout (now - a_start a))
        as [Hexp|Hlive].
      * destruct (step_expire W Hpc Hexp) as (d & Hpop & ->).
        destruct (@dict_pop_Some _ _ _ _ _ Hpop) as (P1 & P2 & _).
        constructor; simpl.
        -- intros h' t r Hin. apply in_app_or in Hin.
           destruct Hin as [Hin|[Hin|[]]]; [eauto|].
           injection Hin as <- <- <-. unfold resolution_for.
           rewrite O2; [reflexivity|].
           change h with (fst (h, a)). now apply in_map.
        -- intros h' Hh'. apply O2.
           rewrite P2 in Hh'. eapply remove_first_incl; eauto.
      * rewrite (step_skip s Hpc Hlive).
        constructor; simpl; auto.
  - rewrite step_terminal; [|now left].
    constructor; [exact O1 | now rewrite Hpc].
  - rewrite step_terminal; [|right; eauto].
    constructor; [exact O1 | now rewrite Hpc].
Qed.

Lemma outcomes_ok_reachable ips ports (s : state) :
  reachable ips ports s -> outcomes_ok s.
Proof.
  revert s. apply (@reachable_ind outcomes_ok).
  - unfold init. constructor; simpl; [contradiction|].
    destruct (selector_ok E); exact I.
  - intros s Hr. apply outcomes_ok_step. eapply wf_reachable; eauto.
Qed.

(** Every target with the socket of its attempt and the resolution
    its outcome imposes. *)
Definition expected_log ips ports
  : list (handle * target * resolution) :=
  map (fun p => (p, resolution_for (fst p)))
      (combine (seq 0 (length (host_major ips ports)))
               (host_major ips ports)).

(** At [return] the journal of resolutions is [expected_log] up to
    the order. *)
Lemma returned_log ips ports (s : state) :
  (0 < concurrency)%Z ->
  reachable ips ports s -> pc s = Returned ->
  Permutation (log s) (expected_log ips ports).
Proof.
  intros Hc Hr Hret.
  pose proof (wf_reachable Hr) as W.
  destruct (outcomes_ok_reachable Hr) as [O1 _].
  assert (Hlog : log s = map (fun p => (p, resolution_for (fst p)))
                             (map fst (log s))).
  { revert O1. generalize (log s). intro l.
    induction l as [|[[h t] r] l IH]; intro O1; simpl; [reflexivity|].
    rewrite <- IH; [|intros; eapply O1; right; eauto].
    rewrite (O1 h t r); [reflexivity | now left]. }
  rewrite Hlog. unfold expected_log.
  apply Permutation_map.
  rewrite <- (returned_admitted Hc Hr Hret).
  pose proof (wf_admitted W) as K.
  rewrite (returned_empty Hr Hret) in K. simpl in K.
  now apply Permutation_sym.
Qed.

End Outcomes.


(** With a clock that goes on and no failing system call the scan
    returns. *)
Lemma scan_returns ips ports (D : nat) :
  clock_advances D ->
  calls_succeed ->
  exists n, pc (run n (init E ips ports)) = Returned.
Proof.
  intros Hclock Hcalls.
  destruct (scan_reaches_terminal Hclock ips ports) as [n Hterm].
  exists n. destruct Hterm as [Hret|[e Hexn]]; [exact Hret|].
  exfalso.
  assert (Hr : reachable ips ports (run n (init E ips ports)))
    by now exists n.
  destruct (raised_by_failing_call Hr Hexn) as [_ Hf].
  exact (calls_succeed_not_fails Hcalls Hf).
Qed.

End Facts.


(** ** Independence from the admission width *)

Section Width.

Variables host port : Type.

Local Abbreviation target := (Producer.target host port).
Local Abbreviation journal := (list (handle * target * resolution)).

Definition is_success (r : resolution) : bool :=
  match r with Success => true | _ => false end.

Definition is_failure (r : resolution) : bool :=
  match r with Failure _ => true | _ => false end.

Definition is_timeout (r : resolution) : bool :=
  match r with Timeout => true | _ => false end.

(** How many resolutions of a kind a journal holds. *)
Definition count_kind (k : resolution -> bool) (lg : journal) : nat :=
  length (filter (fun e => k (snd e)) lg).

Lemma count_kind_perm (k : resolution -> bool) (lg lg' : journal) :
  Permutation lg lg' -> count_kind k lg = count_kind k lg'.
Proof.
  unfold count_kind. induction 1 as [|e l l' _ IH|e e' l|l l' l'' _ IH1 _ IH2];
    simpl; auto.
  - destruct (k (snd e)); simpl; auto.
  - destruct (k (snd e)), (k (snd e')); simpl; auto.
  - congruence.
Qed.

(** C8, as the code has it. Let the outcome of every attempt be fixed:
    whether its socket is reported writable does not depend on the
    poll, its [SO_ERROR] is a function of the socket, and the clock
    goes on. Let [c1] and [c2] be two positive values of [concurrency]
    at which no system call fails: in particular the process can hold
    [c1] sockets open, and [c2]. Then for the same [ips] and [ports] the
    two scans both return, their journals of resolutions are the same
    up to the order (that of [expected_log]), so they count as many
    successes, failures and timeouts, and their results hold the same
    targets. Beyond the number of sockets the process can hold open the
    width does matter. *)
Theorem concurrency_independent
        (E : env) (timeout : Z) (D : nat)
        (ips : list host) (ports : list port) (c1 c2 : Z) :
  calls_succeed E c1 ->
  calls_succeed E c2 ->
  fixed_outcomes E ->
  clock_advances E timeout D ->
  (0 < c1)%Z -> (0 < c2)%Z ->
  exists n1 n2,
    let s1 := Scan.run E c1 timeout n1 (init E ips ports) in
    let s2 := Scan.run E c2 timeout n2 (init E ips ports) in
    scan_sctp E c1 timeout n1 ips ports = Result (results s1) /\
    scan_sctp E c2 timeout n2 ips ports = Result (results s2) /\
    Permutation (log s1) (expected_log E ips ports) /\
    Permutation (log s1) (log s2) /\
    count_kind is_success (log s1) = count_kind is_success (log s2) /\
    count_kind is_failure (log s1) = count_kind is_failure (log s2) /\
    count_kind is_timeout (log s1) = count_kind is_timeout (log s2) /\
    Permutation (results s1) (results s2).
Proof.
  intros Hcalls1 Hcalls2 Hfixed Hclock Hc1 Hc2.
  destruct (scan_returns ips ports Hclock Hcalls1) as [n1 Hret1].
  destruct (scan_returns ips ports Hclock Hcalls2) as [n2 Hret2].
  exists n1, n2. intros s1 s2.
  change (pc s1 = Returned) in Hret1.
  change (pc s2 = Returned) in Hret2.
  assert (Hr1 : reachable E c1 timeout ips ports s1) by now exists n1.
  assert (Hr2 : reachable E c2 timeout ips ports s2) by now exists n2.
  pose proof (returned_log Hfixed Hc1 Hr1 Hret1) as P1.
  pose proof (returned_log Hfixed Hc2 Hr2 Hret2) as P2.
  assert (P : Permutation (log s1) (log s2)).
  { eapply Permutation_trans; [exact P1 | now apply Permutation_sym]. }
  split; [unfold scan_sctp, outcome_of; fold s1; now rewrite Hret1|].
  split; [unfold scan_sctp, outcome_of; fold s2; now rewrite Hret2|].
  split; [exact P1|]. split; [exact P|].
  split; [now apply count_kind_perm|].
  split; [now apply count_kind_perm|].
  split; [now apply count_kind_perm|].
  rewrite (lo_results (log_ok_reachable Hr1)).
  rewrite (lo_results (log_ok_reachable Hr2)).
  unfold successes. now apply Permutation_flat_map.
Qed.

End Width.

(** ** Which clock decides *)

Section WhichClock.

Variables host port : Type.

(** Two environments that differ at most in their monotonic clock. *)
Definition same_but_mono (E1 E2 : env) : Prop :=
  selector_ok E1 = selector_ok E2 /\
  (forall h, socket_ok E1 h = socket_ok E2 h) /\
  (forall h, register_ok E1 h = register_ok E2 h) /\
  (forall k, wall E1 k = wall E2 k) /\
  (forall k, reported E1 k = reported E2 k) /\
  (forall h, so_error E1 h = so_error E2 h) /\
  (forall h, connect_ex E1 h = connect_ex E2 h) /\
  max_open E1 = max_open E2.

Lemma step_same_but_mono (E1 E2 : env) (c t : Z)
      (s : state host port) :
  same_but_mono E1 E2 -> Scan.step E1 c t s = Scan.step E2 c t s.
Proof.
  intros (H1 & H2 & H3 & H4 & H5 & H6 & H7 & H8).
  unfold Scan.step, kick_off, can_open, poll, handle_ready. simpl.
  destruct (pc s) as [| |[|h events] now|items now| |e]; auto.
  - rewrite H2, H3, H4, H7, H8. reflexivity.
  - rewrite H4, H5. reflexivity.
  - rewrite H6. reflexivity.
Qed.

Lemma run_same_but_mono (E1 E2 : env) (c t : Z) (n : nat)
      (s : state host port) :
  same_but_mono E1 E2 -> Scan.run E1 c t n s = Scan.run E2 c t n s.
Proof.
  intro H. revert s. induction n as [|n IH]; intro s; simpl; auto.
  rewrite (step_same_but_mono c t s H). apply IH.
Qed.

(** C4, as the code has it. Both times are readings of [time.time()],
    the wall clock: in every state of a scan the start stamp of an
    attempt in flight is an earlier reading of it and the [now] of the
    sweep its last reading; the sweep expires the attempt exactly when
    the difference of these two readings is at least [timeout]; and
    the scan is the same in two environments that differ in their
    monotonic clock only. *)
Theorem expiry_on_wall_clock
        (E : env) (c t : Z) (ips : list host) (ports : list port)
        (s : state host port) :
  reachable E c t ips ports s ->
  (forall h a,
      In (h, a) (in_flight s) ->
      a_start a = wall E (a_read a) /\ (a_read a < reads s)%nat) /\
  (forall h a items now,
      pc s = AtSweep ((h, a) :: items) now ->
      now = wall E (reads s - 1) /\
      a_start a = wall E (a_read a) /\
      (a_read a < reads s - 1 \/ a_read a = (reads s - 1)%nat)%nat /\
      ((t <= wall E (reads s - 1) - wall E (a_read a))%Z ->
       log (Scan.step E c t s) = log s ++ [(h, target_of a, Timeout)]) /\
      ((wall E (reads s - 1) - wall E (a_read a) < t)%Z ->
       Scan.step E c t s = goto (AtSweep items now) s)) /\
  (forall E', same_but_mono E E' ->
              forall n, Scan.run E c t n (init E ips ports)
                        = Scan.run E' c t n (init E' ips ports)).
Proof.
  intro Hr.
  pose proof (wf_reachable Hr) as W.
  destruct (stamped_reachable Hr) as [T1 T2].
  split; [|split].
  - intros h a Hin. exact (T1 (h, a) Hin).
  - intros h a items now Hpc. rewrite Hpc in T2. destruct T2 as [T2 T3].
    pose proof (wf_pc W) as Hp. rewrite Hpc in Hp.
    destruct Hp as [_ Hincl].
    destruct (T1 (h, a) (Hincl _ (or_introl eq_refl))) as [Hst Hrd].
    simpl in Hst, Hrd.
    split; [exact T3|]. split; [exact Hst|]. split; [lia|]. split.
    + intro Hexp. rewrite <- T3, <- Hst in Hexp.
      destruct (step_expire W Hpc Hexp) as (d & _ & ->). reflexivity.
    + intro Hlive. rewrite <- T3, <- Hst in Hlive.
      exact (step_skip E c s Hpc Hlive).
  - intros E' Hsame n.
    rewrite (run_same_but_mono c t n _ Hsame).
    f_equal. unfold init. destruct Hsame as [-> _]. reflexivity.
Qed.

End WhichClock.



(** ** Concrete scans *)

(** An environment whose selector is created, whose sockets are
    created as [sock] says, whose registrations succeed, with the given
    wall clock and reports of the selector; [SO_ERROR] is 0 for the
    sockets of even number and 111 ([ECONNREFUSED]) for the others. *)
Definition env_demo (sock : handle -> bool) (clock : nat -> Z)
           (rep : nat -> list handle) : env :=
  mkEnv true sock (fun _ => true)
        clock (fun k => Z.of_nat k) rep
        (fun h => if Nat.even h then 0%Z else 111%Z)
        (fun _ => Returns) None.

(** Every [socket.socket] succeeds; only the first [n] do. *)
Definition unlimited (h : handle) : bool := true.
Definition up_to (n : nat) (h : handle) : bool := Nat.ltb h n.

(** A clock that gains one unit per reading, and one set forward by a
    hundred units after its first reading. *)
Definition steady (k : nat) : Z := Z.of_nat k.

Definition stepped (k : nat) : Z :=
  if Nat.eqb k 0 then 0%Z else (100 + Z.of_nat k)%Z.

Definition nobody (k : nat) : list handle := [].
Definition both (k : nat) : list handle := [0%nat; 1%nat].
Definition first_only (k : nat) : list handle := [0%nat].
Definition first_later (k : nat) : list handle :=
  if Nat.eqb k 0 then [] else [0%nat].


(** The environments of [env_demo] let every [connect_ex] return and
    put no bound on the open sockets. The three that follow differ from
    [env_demo unlimited steady both] in one point each: the selector
    cannot be created; the second target has a port that [connect_ex]
    refuses; the process can hold two sockets open. *)
Definition E_no_selector : env :=
  mkEnv false unlimited (fun _ => true) steady steady both
        (fun h => if Nat.even h then 0%Z else 111%Z)
        (fun _ => Returns) None.

Definition E_bad_port : env :=
  mkEnv true unlimited (fun _ => true) steady steady both
        (fun h => if Nat.even h then 0%Z else 111%Z)
        (fun h => if Nat.eqb h 1 then BadPort else Returns) None.

Definition E_two_descriptors : env :=
  mkEnv true unlimited (fun _ => true) steady steady both
        (fun h => if Nat.even h then 0%Z else 111%Z)
        (fun _ => Returns) (Some 2%nat).

Definition E_idle : env := env_demo unlimited steady nobody.
Definition E_both : env := env_demo unlimited steady both.
Definition E_short : env := env_demo (up_to 1) steady nobody.
Definition E_jump : env := env_demo unlimited stepped first_only.
Definition E_jump_idle : env := env_demo unlimited stepped nobody.

Lemma steady_advances (sock : handle -> bool) (rep : nat -> list handle) :
  clock_advances (env_demo sock steady rep) 5 5.
Proof. intros i j H. simpl. unfold steady. lia. Qed.

(** Two attempts admitted under [concurrency = 2]: the bound is reached
    and the next transition admits nothing. *)
Lemma in_flight_bounded_witness :
  let s := Scan.run E_idle 2 5 2 (init E_idle [7] [1; 2; 3]) in
  (0 < 2)%Z /\
  reachable E_idle 2 5 [7] [1; 2; 3] s /\
  (Z.of_nat (length (in_flight s)) <= 2)%Z /\
  opened (Scan.step E_idle 2 5 s) = opened s.
Proof.
  intro s.
  assert (Hc : (0 < 2)%Z) by lia.
  assert (Hr : reachable E_idle 2 5 [7] [1; 2; 3] s)
    by (exists 2%nat; reflexivity).
  destruct (in_flight_bounded Hc Hr) as [H1 H2].
  split; [exact Hc|]. split; [exact Hr|]. split; [exact H1|].
  apply H2. vm_compute. reflexivity.
Defined.

(** A scan of three targets that returns: the first attempt has one
    resolution and one [close()]. *)
Lemma resolved_once_witness :
  let s := Scan.run E_both 2 5 40 (init E_both [7] [1; 2; 3]) in
  reachable E_both 2 5 [7] [1; 2; 3] s /\
  pc s = Returned /\
  In (0%nat, (7, 1)) (admitted s) /\
  (exists r, resolutions_of 0 s = [(0%nat, (7, 1), r)]) /\
  count_occ Nat.eq_dec (closed s) 0%nat = 1%nat.
Proof.
  intro s.
  assert (Hr : reachable E_both 2 5 [7] [1; 2; 3] s)
    by (exists 40%nat; reflexivity).
  assert (Hret : pc s = Returned) by (vm_compute; reflexivity).
  assert (Hin : In (0%nat, (7, 1)) (admitted s))
    by (vm_compute; left; reflexivity).
  destruct (resolved_once Hr) as (_ & _ & _ & H4).
  split; [exact Hr|]. split; [exact Hret|]. split; [exact Hin|].
  exact (H4 Hret _ _ Hin).
Defined.

(** C2 as stated fails where the scan raises: the second
    [socket.socket] fails, [scan_sctp] raises [OSError], and the first
    attempt, admitted, is left in [in_flight], registered, unresolved
    and not closed. *)
Lemma admitted_left_open_on_raise :
  let s := Scan.run E_short 2 5 2 (init E_short [7] [1; 2; 3]) in
  scan_sctp E_short 2 5 2 [7] [1; 2; 3] = Exception nat nat OSError /\
  Scan.step E_short 2 5 s = s /\
  In (0%nat, (7, 1)) (admitted s) /\
  In 0%nat (dict_keys (in_flight s)) /\
  In 0%nat (registered s) /\
  resolutions_of 0 s = [] /\
  count_occ Nat.eq_dec (closed s) 0%nat = 0%nat.
Proof.
  vm_compute. repeat split; auto.
Qed.

(** The second [socket.socket] of a scan fails; the [connect_ex] of the
    second target raises; the selector cannot be created; and an
    admission during which nothing fails. *)
Lemma admission_failure_aborts_witness :
  let g := Producer.mkGen [] (Some (7, [3])) [1; 2; 3] in
  let s := Scan.run E_short 2 5 1 (init E_short [7] [1; 2; 3]) in
  let s' := Scan.run E_bad_port 2 5 1 (init E_bad_port [7] [1; 2; 3]) in
  let s0 := Scan.run E_idle 2 5 1 (init E_idle [7] [1; 2; 3]) in
  (reachable E_short 2 5 [7] [1; 2; 3] s /\
   pc s = AtRefill /\
   (Z.of_nat (length (in_flight s)) < 2)%Z /\
   next (tasks s) = Some ((7, 2), g) /\
   admission_fails E_short s OSError /\
   pc (Scan.step E_short 2 5 s) = Raised OSError /\
   (forall n, outcome_of (Scan.run E_short 2 5 (S n) s)
              = Exception nat nat OSError) /\
   tasks (Scan.step E_short 2 5 s) = g /\
   admitted (Scan.step E_short 2 5 s) = admitted s /\
   in_flight (Scan.step E_short 2 5 s) = in_flight s /\
   closed (Scan.step E_short 2 5 s) = closed s) /\
  (admission_fails E_bad_port s' OverflowError /\
   pc (Scan.step E_bad_port 2 5 s') = Raised OverflowError /\
   admitted (Scan.step E_bad_port 2 5 s') = admitted s' /\
   closed (Scan.step E_bad_port 2 5 s') = closed s') /\
  (pc (Scan.step E_idle 2 5 s0) = AtRefill /\
   admitted (Scan.step E_idle 2 5 s0) = admitted s0 ++ [(1%nat, (7, 2))]) /\
  (selector_ok E_no_selector = false /\
   scan_sctp E_no_selector 2 5 0 [7] [1; 2; 3]
   = Exception nat nat OSError /\
   opened (Scan.run E_no_selector 2 5 0 (init E_no_selector [7] [1; 2; 3]))
   = 0%nat).
Proof.
  intros g s s' s0.
  assert (Hr : reachable E_short 2 5 [7] [1; 2; 3] s)
    by (exists 1%nat; reflexivity).
  assert (Hpc : pc s = AtRefill) by (vm_compute; reflexivity).
  assert (Hlt : (Z.of_nat (length (in_flight s)) < 2)%Z)
    by (vm_compute; reflexivity).
  assert (Hnext : next (tasks s) = Some ((7, 2), g))
    by (vm_compute; reflexivity).
  assert (Hfail : admission_fails E_short s OSError)
    by (apply CreationFails; left; vm_compute; reflexivity).
  assert (Hr' : reachable E_bad_port 2 5 [7] [1; 2; 3] s')
    by (exists 1%nat; reflexivity).
  assert (Hpc' : pc s' = AtRefill) by (vm_compute; reflexivity).
  assert (Hlt' : (Z.of_nat (length (in_flight s')) < 2)%Z)
    by (vm_compute; reflexivity).
  assert (Hnext' : next (tasks s') = Some ((7, 2), g))
    by (vm_compute; reflexivity).
  assert (Hfail' : admission_fails E_bad_port s' OverflowError)
    by (apply ConnectRaises; vm_compute; reflexivity).
  assert (Hr0 : reachable E_idle 2 5 [7] [1; 2; 3] s0)
    by (exists 1%nat; reflexivity).
  assert (Hpc0 : pc s0 = AtRefill) by (vm_compute; reflexivity).
  assert (Hlt0 : (Z.of_nat (length (in_flight s0)) < 2)%Z)
    by (vm_compute; reflexivity).
  assert (Hnext0 : next (tasks s0) = Some ((7, 2), g))
    by (vm_compute; reflexivity).
  assert (Hnone0 : forall e, ~ admission_fails E_idle s0 e).
  { intros e H.
    inversion H as [[Hc | Hc] | e0 _ _ Hc | _ _ _ Hc]; discriminate Hc. }
  assert (Hsel : selector_ok E_no_selector = false) by reflexivity.
  split; [|split; [|split]].
  - destruct (proj1 (@admission_failure_aborts nat nat E_short 2 5
                       [7] [1; 2; 3])
                    s (7, 2) g OSError Hr Hpc Hlt Hnext Hfail)
      as (H1 & _ & H3 & H4 & H5 & H6 & _ & _ & _ & H10 & _).
    repeat (split; [assumption|]). exact H10.
  - destruct (proj1 (@admission_failure_aborts nat nat E_bad_port 2 5
                       [7] [1; 2; 3])
                    s' (7, 2) g OverflowError Hr' Hpc' Hlt' Hnext' Hfail')
      as (H1 & _ & _ & _ & H5 & _ & _ & _ & _ & H10 & _).
    repeat (split; [assumption|]). exact H10.
  - destruct (proj1 (proj2 (@admission_failure_aborts nat nat E_idle 2 5
                              [7] [1; 2; 3]))
                    s0 (7, 2) g Hr0 Hpc0 Hlt0 Hnext0 Hnone0)
      as (H1 & _ & H3 & _).
    split; [exact H1|]. exact H3.
  - split; [exact Hsel|].
    exact (proj2 (proj2 (@admission_failure_aborts nat nat E_no_selector
                           2 5 [7] [1; 2; 3])) Hsel 0%nat).
Defined.

(** C3 as stated fails: the second [socket.socket] fails; the scan does
    not go on to the third target, it raises [OSError] and stays there,
    with the third target still in [tasks] and never admitted. *)
Lemma scan_aborted_by_admission_failure :
  let s := Scan.run E_short 2 5 50 (init E_short [7] [1; 2; 3]) in
  scan_sctp E_short 2 5 50 [7] [1; 2; 3] = Exception nat nat OSError /\
  Scan.step E_short 2 5 s = s /\
  remaining (tasks s) = [(7, 3)] /\
  admitted s = [(0%nat, (7, 1))] /\
  results s = [] /\ log s = [].
Proof.
  vm_compute. repeat split; reflexivity.
Qed.

(** The wall clock is set forward by a hundred units between two
    admissions and nobody answers. At the first sweep, two readings of
    the monotonic clock after the first admission, the first attempt
    (stamped 0, [now] = 102) is expired and the second (stamped 101) is
    kept, with [timeout = 5]. *)
Lemma expiry_on_wall_clock_witness :
  let a0 := mkAttempt 7%nat 1%nat 0%Z 0%nat in
  let a1 := mkAttempt 7%nat 2%nat 101%Z 1%nat in
  let s := Scan.run E_jump_idle 2 5 5 (init E_jump_idle [7] [1; 2; 3]) in
  let s' := Scan.run E_jump_idle 2 5 6 (init E_jump_idle [7] [1; 2; 3]) in
  reachable E_jump_idle 2 5 [7] [1; 2; 3] s /\
  pc s = AtSweep [(0%nat, a0); (1%nat, a1)] 102 /\
  pc s' = AtSweep [(1%nat, a1)] 102 /\
  (mono E_jump_idle (reads s - 1) - mono E_jump_idle (a_read a0) < 5)%Z /\
  (102%Z = wall E_jump_idle (reads s - 1) /\
   a_start a0 = wall E_jump_idle (a_read a0) /\
   log (Scan.step E_jump_idle 2 5 s)
   = log s ++ [(0%nat, target_of a0, Timeout)]) /\
  (a_start a1 = wall E_jump_idle (a_read a1) /\
   Scan.step E_jump_idle 2 5 s' = goto (AtSweep [] 102) s') /\
  (forall h a,
      In (h, a) (in_flight s) ->
      a_start a = wall E_jump_idle (a_read a) /\ (a_read a < reads s)%nat) /\
  (forall E', same_but_mono E_jump_idle E' ->
              forall n,
                Scan.run E_jump_idle 2 5 n (init E_jump_idle [7] [1; 2; 3])
                = Scan.run E' 2 5 n (init E' [7] [1; 2; 3])).
Proof.
  intros a0 a1 s s'.
  assert (Hr : reachable E_jump_idle 2 5 [7] [1; 2; 3] s)
    by (exists 5%nat; reflexivity).
  assert (Hr' : reachable E_jump_idle 2 5 [7] [1; 2; 3] s')
    by (exists 6%nat; reflexivity).
  assert (Hpc : pc s = AtSweep [(0%nat, a0); (1%nat, a1)] 102)
    by (vm_compute; reflexivity).
  assert (Hpc' : pc s' = AtSweep [(1%nat, a1)] 102)
    by (vm_compute; reflexivity).
  assert (Hmono : (mono E_jump_idle (reads s - 1)
                   - mono E_jump_idle (a_read a0) < 5)%Z)
    by (vm_compute; reflexivity).
  destruct (expiry_on_wall_clock Hr) as (S1 & S2 & S3).
  destruct (S2 _ _ _ _ Hpc) as (N1 & N2 & _ & N4 & _).
  destruct (expiry_on_wall_clock Hr') as (_ & S2' & _).
  destruct (S2' _ _ _ _ Hpc') as (_ & N2' & _ & _ & N5').
  split; [exact Hr|]. split; [exact Hpc|]. split; [exact Hpc'|].
  split; [exact Hmono|].
  split; [|split; [|split; [exact S1 | exact S3]]].
  - split; [exact N1|]. split; [exact N2|].
    apply N4. vm_compute. discriminate.
  - split; [exact N2'|]. apply N5'. vm_compute. reflexivity.
Defined.

(** C4 as stated fails: two environments with the same monotonic clock
    and the same sockets, reports and errors, whose wall clocks differ
    (one is set forward by a hundred units after the admission). With
    [timeout = 5] the attempt is kept and then succeeds in the first,
    and is expired at the first sweep in the second: the results
    differ. *)
Lemma expiry_follows_wall_clock_adjustment :
  let EA := env_demo unlimited steady first_later in
  let EB := env_demo unlimited stepped first_later in
  (forall k, mono EA k = mono EB k) /\
  selector_ok EA = selector_ok EB /\
  (forall h, socket_ok EA h = socket_ok EB h) /\
  (forall h, register_ok EA h = register_ok EB h) /\
  (forall k, reported EA k = reported EB k) /\
  (forall h, so_error EA h = so_error EB h) /\
  scan_sctp EA 1 5 20 [7] [2905] = Result [(7, 2905)] /\
  scan_sctp EB 1 5 20 [7] [2905] = Result [] /\
  log (Scan.run EA 1 5 20 (init EA [7] [2905]))
  = [(0%nat, (7, 2905), Success)] /\
  log (Scan.run EB 1 5 20 (init EB [7] [2905]))
  = [(0%nat, (7, 2905), Timeout)].
Proof.
  intros EA EB. repeat split; vm_compute; reflexivity.
Qed.

(** A poll that finds two sockets writable. *)
Lemma ready_resolution_witness :
  let s := Scan.run E_both 2 5 4 (init E_both [7] [1; 2; 3]) in
  reachable E_both 2 5 [7] [1; 2; 3] s /\
  pc s = AtReady [0%nat; 1%nat] 2 /\
  (exists a,
      In (0%nat, a) (in_flight s) /\
      pc (Scan.step E_both 2 5 s) = AtReady [1%nat] 2 /\
      ~ In 0%nat (registered (Scan.step E_both 2 5 s)) /\
      ~ In 0%nat (dict_keys (in_flight (Scan.step E_both 2 5 s))) /\
      closed (Scan.step E_both 2 5 s) = closed s ++ [0%nat] /\
      results (Scan.step E_both 2 5 s)
      = (if (so_error E_both 0%nat =? 0)%Z then results s ++ [target_of a]
         else results s) /\
      log (Scan.step E_both 2 5 s)
      = log s ++ [(0%nat, target_of a, so_resolution E_both 0)] /\
      tasks (Scan.step E_both 2 5 s) = tasks s /\
      admitted (Scan.step E_both 2 5 s) = admitted s).
Proof.
  intro s.
  assert (Hr : reachable E_both 2 5 [7] [1; 2; 3] s)
    by (exists 4%nat; reflexivity).
  assert (Hpc : pc s = AtReady [0%nat; 1%nat] 2)
    by (vm_compute; reflexivity).
  split; [exact Hr|]. split; [exact Hpc|].
  exact (proj1 (ready_resolution Hr) _ _ _ Hpc).
Defined.



Lemma calls_succeed_two_descriptors (c : Z) :
  (c <= 2)%Z -> calls_succeed E_two_descriptors c.
Proof.
  intro Hc. repeat split; try reflexivity.
  intros limit [= <-]. exact Hc.
Qed.

Lemma clock_advances_two_descriptors :
  clock_advances E_two_descriptors 5 5.
Proof. intros i j H. simpl. unfold steady. lia. Qed.

(** The same three targets scanned one at a time and two at a time by a
    process that can hold two sockets open. *)
Lemma concurrency_independent_witness :
  calls_succeed E_two_descriptors 1 /\
  calls_succeed E_two_descriptors 2 /\
  fixed_outcomes E_two_descriptors /\
  clock_advances E_two_descriptors 5 5 /\
  (0 < 1)%Z /\ (0 < 2)%Z /\
  exists n1 n2,
    let s1 := Scan.run E_two_descriptors 1 5 n1
                       (init E_two_descriptors [7] [1; 2; 3]) in
    let s2 := Scan.run E_two_descriptors 2 5 n2
                       (init E_two_descriptors [7] [1; 2; 3]) in
    scan_sctp E_two_descriptors 1 5 n1 [7] [1; 2; 3] = Result (results s1) /\
    scan_sctp E_two_descriptors 2 5 n2 [7] [1; 2; 3] = Result (results s2) /\
    Permutation (log s1) (expected_log E_two_descriptors [7] [1; 2; 3]) /\
    Permutation (log s1) (log s2) /\
    count_kind is_success (log s1) = count_kind is_success (log s2) /\
    count_kind is_failure (log s1) = count_kind is_failure (log s2) /\
    count_kind is_timeout (log s1) = count_kind is_timeout (log s2) /\
    Permutation (results s1) (results s2).
Proof.
  assert (Hcalls1 : calls_succeed E_two_descriptors 1)
    by (apply calls_succeed_two_descriptors; lia).
  assert (Hcalls2 : calls_succeed E_two_descriptors 2)
    by (apply calls_succeed_two_descriptors; lia).
  assert (Hfixed : fixed_outcomes E_two_descriptors)
    by (intros k k' h H; exact H).
  assert (Hclock : clock_advances E_two_descriptors 5 5)
    by apply clock_advances_two_descriptors.
  assert (H1 : (0 < 1)%Z) by lia.
  assert (H2 : (0 < 2)%Z) by lia.
  repeat (split; [assumption|]).
  exact (concurrency_independent [7] [1; 2; 3]
           Hcalls1 Hcalls2 Hfixed Hclock H1 H2).
Defined.

(** C8 as stated fails: the outcomes of the attempts are fixed and the
    clock goes on, the process can hold two sockets open. One target at
    a time the scan returns, with one success, one failure and one
    timeout; three at a time the third [socket.socket] fails and the
    scan raises [OSError] and returns nothing, however long it is let
    run. *)
Lemma width_beyond_descriptors_aborts :
  fixed_outcomes E_two_descriptors /\
  clock_advances E_two_descriptors 5 5 /\
  (forall h, connect_ex E_two_descriptors h = Returns) /\
  scan_sctp E_two_descriptors 1 5 60 [7] [1; 2; 3] = Result [(7, 1)] /\
  log (Scan.run E_two_descriptors 1 5 60
                (init E_two_descriptors [7] [1; 2; 3]))
  = [(0%nat, (7, 1), Success); (1%nat, (7, 2), Failure 111);
     (2%nat, (7, 3), Timeout)] /\
  (forall n, scan_sctp E_two_descriptors 3 5 (3 + n) [7] [1; 2; 3]
             = Exception nat nat OSError) /\
  (forall n rs, scan_sctp E_two_descriptors 3 5 n [7] [1; 2; 3]
                <> Result rs) /\
  log (Scan.run E_two_descriptors 3 5 3
                (init E_two_descriptors [7] [1; 2; 3])) = [].
Proof.
  assert (Hterm : terminal (Scan.run E_two_descriptors 3 5 3
                              (init E_two_descriptors [7] [1; 2; 3]))).
  { right. exists OSError. vm_compute. reflexivity. }
  assert (Hexn : forall n,
             scan_sctp E_two_descriptors 3 5 (3 + n) [7] [1; 2; 3]
             = Exception nat nat OSError).
  { intro n. unfold scan_sctp. rewrite run_add.
    rewrite run_terminal by exact Hterm. vm_compute. reflexivity. }
  split; [intros k k' h H; exact H|].
  split; [apply clock_advances_two_descriptors|].
  split; [intro; reflexivity|].
  split; [vm_compute; reflexivity|].
  split; [vm_compute; reflexivity|].
  split; [exact Hexn|].
  split; [|vm_compute; reflexivity].
  intros n rs.
  destruct n as [|[|[|n]]]; try (vm_compute; discriminate).
  change (S (S (S n))) with (3 + n)%nat. rewrite Hexn. discriminate.
Qed.

(** A socket reported writable at a poll whose [now] is a hundred units
    after its start. *)
Lemma ready_before_sweep_witness :
  let s := Scan.run E_jump 1 5 2 (init E_jump [7] [1; 2; 3]) in
  let a := mkAttempt 7 1 0%Z 0%nat in
  let s1 :=
    Scan.run E_jump 1 5
             (S (length (sel_select (registered s)
                                    (reported E_jump (polls s))))) s in
  reachable E_jump 1 5 [7] [1; 2; 3] s /\
  pc s = AtPoll /\
  In (0%nat, a) (in_flight s) /\
  In 0%nat (reported E_jump (polls s)) /\
  (5 <= wall E_jump (reads s) - a_start a)%Z /\
  ~ In 0%nat (dict_keys (in_flight s1)) /\
  forall n,
    resolutions_of 0 (Scan.run E_jump 1 5 n s1)
    = [(0%nat, target_of a, so_resolution E_jump 0)].
Proof.
  intros s a s1.
  assert (Hr : reachable E_jump 1 5 [7] [1; 2; 3] s)
    by (exists 2%nat; reflexivity).
  assert (Hpc : pc s = AtPoll) by (vm_compute; reflexivity).
  assert (Hin : In (0%nat, a) (in_flight s))
    by (vm_compute; left; reflexivity).
  assert (Hrep : In 0%nat (reported E_jump (polls s)))
    by (vm_compute; left; reflexivity).
  assert (Hexp : (5 <= wall E_jump (reads s) - a_start a)%Z)
    by (vm_compute; discriminate).
  destruct (@ready_before_sweep _ _ _ _ _ _ _ _ _ _ Hr Hpc Hin Hrep Hexp)
    as (_ & _ & _ & H4 & _ & H6).
  repeat (split; [assumption|]). exact H6.
Defined.

End ScanFacts.

(* ================================================================== *)
(** * The rest of [connect.py]                                         *)
(* ================================================================== *)

(** ** [struct.unpack] and [struct.calcsize] *)

Module StructUnpack.

Import Struct.
Local Open Scope Z_scope.

(** [struct.calcsize("!" ++ fmt)]. *)
Definition calcsize (fmt : list fmt_char) : nat :=
  fold_right (fun c n => (size_of c + n)%nat) 0%nat fmt.

(** The fields of a buffer of the right length, one after the other. *)
Fixpoint unpack_fields (fmt : list fmt_char) (bs : list byte) : list Z :=
  match fmt with
  | [] => []
  | c :: fmt' =>
      be_value (firstn (size_of c) bs)
      :: unpack_fields fmt' (skipn (size_of c) bs)
  end.

(** [struct.unpack("!" ++ fmt, bs)]: [struct.error] ([None]) unless the
    buffer has exactly [calcsize] bytes. *)
Definition unpack (fmt : list fmt_char) (bs : list byte)
  : option (list Z) :=
  if Nat.eqb (length bs) (calcsize fmt) then Some (unpack_fields fmt bs)
  else None.

End StructUnpack.

Module StructFacts.

Import Struct StructUnpack ConnectFacts.
Local Open Scope Z_scope.

Lemma Z_of_byte_range (b : byte) : 0 <= Z_of_byte b < 256.
Proof.
  unfold Z_of_byte. pose proof (Byte.to_N_bounded b). lia.
Qed.

Lemma Z_of_byte_of_Z (v : Z) : Z_of_byte (byte_of_Z v) = v mod 256.
Proof.
  unfold Z_of_byte, byte_of_Z.
  pose proof (Z.mod_pos_bound v 256 ltac:(lia)) as Hb.
  destruct (Byte.of_N (Z.to_N (v mod 256))) as [b|] eqn:Hof.
  - apply Byte.to_of_N in Hof. rewrite Hof. lia.
  - apply Byte.of_N_None_iff in Hof. lia.
Qed.

Lemma byte_of_Z_of_byte (b : byte) : byte_of_Z (Z_of_byte b) = b.
Proof.
  unfold byte_of_Z. pose proof (Z_of_byte_range b) as Hb.
  rewrite Z.mod_small by exact Hb.
  unfold Z_of_byte. rewrite N2Z.id, Byte.of_to_N. reflexivity.
Qed.

(** Shifting in one more byte is base-256 positional notation. *)
Lemma lor_shiftl_byte (acc : Z) (b : byte) :
  Z.lor (Z.shiftl acc 8) (Z_of_byte b) = acc * 256 + Z_of_byte b.
Proof.
  pose proof (Z_of_byte_range b) as Hb.
  rewrite Z.shiftl_mul_pow2 by lia. change (2 ^ 8) with 256.
  assert (Hland : Z.land (acc * 256) (Z_of_byte b) = 0).
  { apply Z.bits_inj'. intros n Hn. rewrite Z.land_spec, Z.bits_0.
    destruct (Z.ltb_spec n 8) as [Hlt|Hge].
    - replace (acc * 256) with (acc * 2 ^ 8) by reflexivity.
      rewrite Z.mul_pow2_bits_low by lia. reflexivity.
    - assert (Hhigh : Z.testbit (Z_of_byte b) n = false).
      { destruct (Z.eq_dec (Z_of_byte b) 0) as [->|Hnz];
          [apply Z.bits_0|].
        apply Z.bits_above_log2; [lia|].
        assert (Z.log2 (Z_of_byte b) < 8); [|lia].
        apply Z.log2_lt_pow2; lia. }
      rewrite Hhigh. apply andb_false_r. }
  rewrite <- Z.lxor_lor by exact Hland.
  symmetry. apply Z.add_nocarry_lxor. exact Hland.
Qed.

Lemma pow256 (n : nat) : 2 ^ (8 * Z.of_nat n) = 256 ^ Z.of_nat n.
Proof. rewrite Z.pow_mul_r by lia. reflexivity. Qed.

Lemma be_value_acc (bs : list byte) (acc : Z) :
  fold_left (fun a b => Z.lor (Z.shiftl a 8) (Z_of_byte b)) bs acc
  = acc * 256 ^ Z.of_nat (length bs) + be_value bs.
Proof.
  revert acc. induction bs as [|b bs IH]; intro acc.
  - unfold be_value. simpl. lia.
  - assert (Hc : be_value (b :: bs)
                 = Z_of_byte b * 256 ^ Z.of_nat (length bs) + be_value bs).
    { unfold be_value at 1. cbn [fold_left].
      rewrite IH, lor_shiftl_byte. lia. }
    cbn [fold_left]. rewrite IH, Hc, lor_shiftl_byte.
    change (length (b :: bs)) with (S (length bs)).
    rewrite Nat2Z.inj_succ, Z.pow_succ_r by lia. ring.
Qed.

Lemma be_value_cons (b : byte) (bs : list byte) :
  be_value (b :: bs)
  = Z_of_byte b * 256 ^ Z.of_nat (length bs) + be_value bs.
Proof.
  unfold be_value at 1. cbn [fold_left].
  rewrite be_value_acc, lor_shiftl_byte. lia.
Qed.

Lemma be_value_range (bs : list byte) :
  0 <= be_value bs < 256 ^ Z.of_nat (length bs).
Proof.
  induction bs as [|b bs IH].
  - unfold be_value. simpl. lia.
  - rewrite be_value_cons. pose proof (Z_of_byte_range b) as Hb.
    change (length (b :: bs)) with (S (length bs)).
    rewrite Nat2Z.inj_succ, Z.pow_succ_r by lia.
    assert (0 < 256 ^ Z.of_nat (length bs)) by (apply Z.pow_pos_nonneg; lia).
    nia.
Qed.

(** The value of the [n] big-endian bytes of [v] is [v] modulo 256^n. *)
Lemma be_value_be_bytes (n : nat) (v : Z) :
  be_value (be_bytes n v) = v mod 256 ^ Z.of_nat n.
Proof.
  induction n as [|n IH].
  - unfold be_value. simpl. now rewrite Z.mod_1_r.
  - cbn [be_bytes]. rewrite be_value_cons, IH, be_bytes_length.
    rewrite Z_of_byte_of_Z, Z.shiftr_div_pow2 by lia. rewrite pow256.
    rewrite Nat2Z.inj_succ, Z.pow_succ_r by lia.
    assert (Hp : 0 < 256 ^ Z.of_nat n) by (apply Z.pow_pos_nonneg; lia).
    rewrite (Z.mul_comm 256), Z.rem_mul_r by lia. lia.
Qed.

(** Byte strings of one length with one value are equal. *)
Lemma be_value_inj (bs bs' : list byte) :
  length bs = length bs' -> be_value bs = be_value bs' -> bs = bs'.
Proof.
  revert bs'. induction bs as [|b bs IH]; intros [|b' bs'] Hlen Hval;
    try discriminate; [reflexivity|].
  injection Hlen as Hlen. rewrite !be_value_cons, <- Hlen in Hval.
  pose proof (be_value_range bs) as R. pose proof (be_value_range bs') as R'.
  rewrite <- Hlen in R'.
  pose proof (Z_of_byte_range b) as Hb. pose proof (Z_of_byte_range b') as Hb'.
  assert (Hp : 0 < 256 ^ Z.of_nat (length bs))
    by (apply Z.pow_pos_nonneg; lia).
  assert (Hhead : Z_of_byte b = Z_of_byte b') by nia.
  assert (Htail : be_value bs = be_value bs') by nia.
  f_equal.
  - rewrite <- (byte_of_Z_of_byte b), <- (byte_of_Z_of_byte b'). now f_equal.
  - now apply IH.
Qed.

Lemma be_bytes_be_value (bs : list byte) :
  be_bytes (length bs) (be_value bs) = bs.
Proof.
  apply be_value_inj; [apply be_bytes_length|].
  rewrite be_value_be_bytes. apply Z.mod_small, be_value_range.
Qed.

(** What [struct.pack] accepts for a format character. *)
Definition in_range (c : fmt_char) (v : Z) : Prop :=
  0 <= v < 2 ^ (8 * Z.of_nat (size_of c)).

Lemma pack_one_Some (c : fmt_char) (v : Z) (bs : list byte) :
  pack_one c v = Some bs <-> in_range c v /\ bs = be_bytes (size_of c) v.
Proof.
  unfold pack_one, in_range.
  destruct (Z.leb_spec 0 v) as [H1|H1],
           (Z.ltb_spec v (2 ^ (8 * Z.of_nat (size_of c)))) as [H2|H2];
    cbn [andb].
  - split.
    + intros [= <-]. split; [lia | reflexivity].
    + intros [_ ->]. reflexivity.
  - split; [discriminate | intros [K _]; lia].
  - split; [discriminate | intros [K _]; lia].
  - split; [discriminate | intros [K _]; lia].
Qed.

Lemma pack_one_None (c : fmt_char) (v : Z) :
  pack_one c v = None <-> ~ in_range c v.
Proof.
  unfold pack_one, in_range.
  destruct (Z.leb_spec 0 v) as [H1|H1],
           (Z.ltb_spec v (2 ^ (8 * Z.of_nat (size_of c)))) as [H2|H2];
    cbn [andb].
  - split; [discriminate | intro K; exfalso; apply K; lia].
  - split; [intros _ K; lia | reflexivity].
  - split; [intros _ K; lia | reflexivity].
  - split; [intros _ K; lia | reflexivity].
Qed.

Lemma pack_cons (c : fmt_char) (fmt : list fmt_char) (v : Z) (vs : list Z)
      (bs : list byte) :
  pack (c :: fmt) (v :: vs) = Some bs <->
  exists b1 rest, pack_one c v = Some b1 /\ pack fmt vs = Some rest /\
                  bs = b1 ++ rest.
Proof.
  simpl. destruct (pack_one c v) as [b1|], (pack fmt vs) as [rest|]; split;
    try discriminate.
  - intros [= <-]. eauto.
  - intros (b & r & [= <-] & [= <-] & ->). reflexivity.
  - intros (b & r & _ & H & _). discriminate.
  - intros (b & r & H & _). discriminate.
  - intros (b & r & H & _). discriminate.
Qed.

Lemma pack_length (fmt : list fmt_char) (vs : list Z) (bs : list byte) :
  pack fmt vs = Some bs -> length bs = calcsize fmt.
Proof.
  revert vs bs. induction fmt as [|c fmt IH]; intros [|v vs] bs H;
    try discriminate.
  - injection H as <-. reflexivity.
  - apply pack_cons in H. destruct H as (b1 & rest & H1 & H2 & ->).
    rewrite length_app, (pack_one_length _ _ H1), (IH _ _ H2). reflexivity.
Qed.

Lemma pack_Some_iff (fmt : list fmt_char) (vs : list Z) :
  (exists bs, pack fmt vs = Some bs) <-> Forall2 in_range fmt vs.
Proof.
  revert vs. induction fmt as [|c fmt IH]; intros [|v vs]; simpl.
  - split; [constructor | eauto].
  - split; [intros [bs H]; discriminate | intro H; inversion H].
  - split; [intros [bs H]; discriminate | intro H; inversion H].
  - split.
    + intros [bs H]. change (pack (c :: fmt) (v :: vs) = Some bs) in H.
      apply pack_cons in H. destruct H as (b1 & rest & H1 & H2 & _).
      constructor; [now apply pack_one_Some in H1 | apply IH; eauto].
    + intro H. inversion H as [|? ? ? ? Hr Hrest]; subst.
      apply IH in Hrest. destruct Hrest as [rest Hrest].
      rewrite Hrest.
      destruct (pack_one c v) as [b1|] eqn:H1; [eauto|].
      apply pack_one_None in H1. contradiction.
Qed.

Lemma firstn_skipn_app (A : Type) (l1 l2 : list A) (n : nat) :
  length l1 = n -> firstn n (l1 ++ l2) = l1 /\ skipn n (l1 ++ l2) = l2.
Proof.
  intros <-. split.
  - rewrite firstn_app, Nat.sub_diag, firstn_all, firstn_O.
    apply app_nil_r.
  - rewrite skipn_app, Nat.sub_diag, skipn_all. reflexivity.
Qed.

(** X1. What [struct.pack] produces, [struct.unpack] reads back: a packed
    message has the length [calcsize] of its format, and unpacking it
    with the same format gives the values packed, for every format made
    of [B] and [I] and every list of values [pack] accepts. *)
Theorem unpack_pack (fmt : list fmt_char) (vs : list Z) (bs : list byte) :
  pack fmt vs = Some bs ->
  length bs = calcsize fmt /\ unpack fmt bs = Some vs.
Proof.
  intro H. pose proof (pack_length _ _ H) as Hlen. split; [exact Hlen|].
  unfold unpack. rewrite Hlen, Nat.eqb_refl. f_equal. clear Hlen.
  revert vs bs H. induction fmt as [|c fmt IH]; intros [|v vs] bs H;
    try discriminate; [reflexivity|].
  apply pack_cons in H. destruct H as (b1 & rest & H1 & H2 & ->).
  pose proof (pack_one_length _ _ H1) as Hl1.
  apply pack_one_Some in H1. destruct H1 as [Hr ->].
  cbn [unpack_fields].
  destruct (firstn_skipn_app (be_bytes (size_of c) v) rest
              (be_bytes_length _ _)) as [-> ->].
  rewrite be_value_be_bytes, <- pow256, (IH _ _ H2).
  rewrite Z.mod_small by exact Hr. reflexivity.
Qed.

(** X2. [struct.unpack] succeeds exactly on the buffers of [calcsize]
    bytes ([struct.error] on any other length), every field it returns is
    in the range of its format character, and packing the fields again
    gives the buffer back. *)
Theorem pack_unpack (fmt : list fmt_char) (bs : list byte) :
  (unpack fmt bs = None <-> length bs <> calcsize fmt) /\
  forall vs, unpack fmt bs = Some vs ->
             Forall2 in_range fmt vs /\ pack fmt vs = Some bs.
Proof.
  split.
  - unfold unpack. destruct (Nat.eqb_spec (length bs) (calcsize fmt));
      split; congruence.
  - intros vs H. unfold unpack in H.
    destruct (Nat.eqb_spec (length bs) (calcsize fmt)) as [Hlen|];
      [|discriminate].
    injection H as <-.
    assert (K : pack fmt (unpack_fields fmt bs) = Some bs).
    { revert bs Hlen. induction fmt as [|c fmt IH]; intros bs Hlen.
      - destruct bs; [reflexivity | discriminate].
      - cbn [calcsize fold_right] in Hlen. fold (calcsize fmt) in Hlen.
        cbn [unpack_fields]. apply pack_cons.
        exists (firstn (size_of c) bs), (skipn (size_of c) bs).
        assert (Hl : length (firstn (size_of c) bs) = size_of c)
          by (rewrite length_firstn; lia).
        split; [|split].
        + apply pack_one_Some. split.
          * unfold in_range. rewrite pow256.
            pose proof (be_value_range (firstn (size_of c) bs)) as R.
            rewrite Hl in R. exact R.
          * pose proof (be_bytes_be_value (firstn (size_of c) bs)) as R.
            rewrite Hl in R. symmetry. exact R.
        + apply IH. rewrite length_skipn. lia.
        + symmetry. apply firstn_skipn. }
    split; [apply pack_Some_iff; eauto | exact K].
Qed.

(** X3. [struct.pack] raises [struct.error] exactly when the number of
    values is not that of the format or some value is outside
    [0, 256^size) for its format character. *)
Theorem pack_error_iff (fmt : list fmt_char) (vs : list Z) :
  pack fmt vs = None <-> ~ Forall2 in_range fmt vs.
Proof.
  rewrite <- pack_Some_iff. destruct (pack fmt vs) as [bs|]; split.
  - discriminate.
  - intro H. exfalso. apply H. eauto.
  - intros _ [bs H]. discriminate.
  - reflexivity.
Qed.

End StructFacts.

(** ** [test_m3ua] *)

Module M3uaTest.

Import Struct StructUnpack Connect.
Import Strings.String.
Local Open Scope Z_scope.

(** The exceptions the function can meet. All but [UnboundLocalError]
    arise inside the [try] and are caught by [except Exception]. *)
Inductive exn : Type :=
| EOFError            (* [input] at the end of the input *)
| ValueError          (* [int] of a string that is no integer *)
| OSError             (* a call on the socket fails or times out *)
| StructError         (* [struct.error] *)
| UnboundLocalError.  (* [sock] read before any assignment *)

(** The lines printed, by what they report (the texts are the f-strings
    of the source). *)
Inductive message : Type :=
| MsgBound (ip : string) (port : Z)
| MsgConnected (ip : string) (port : Z)
| MsgSent
| MsgReceived (msg_class msg_type msg_len : Z)
| MsgAck
| MsgUnexpected
| MsgNoResponse
| MsgError (e : exn)
| MsgClosed.

(** What the function does to the outside, call by call; a call that
    fails is in the trace too. *)
Inductive action : Type :=
| ReadLine                              (* [input(...)] *)
| Create                                (* [sctpsocket_tcp(socket.AF_INET)] *)
| Bind (ip : string) (port : Z)
| Connect (ip : string) (port : Z)
| Send (data : list byte)               (* [sock.sctp_send] *)
| SetTimeout (seconds : Z)
| Recv (bufsize : Z)
| Close
| Print (m : message).

(** The outside: the lines on the standard input, which calls succeed,
    and what [recv] returns ([None]: it raises, a timeout for one). *)
Record env : Type := mkEnv {
  stdin : list string;
  create_ok : bool;
  bind_ok : bool;
  connect_ok : bool;
  send_ok : bool;
  received : option (list byte)
}.

(** A computation: what it did, and an exception or a value. *)
Definition M (A : Type) : Type := (list action * (exn + A))%type.

Definition ret {A : Type} (a : A) : M A := ([], inr a).

Definition raise {A : Type} (e : exn) : M A := ([], inl e).

Definition bind {A B : Type} (m : M A) (k : A -> M B) : M B :=
  match m with
  | (tr, inl e) => (tr, inl e)
  | (tr, inr a) => let (tr', r) := k a in (tr ++ tr', r)
  end.

Notation "x <- m ;; k" := (bind m (fun x => k))
  (at level 61, m at next level, right associativity).
Notation "m ;; k" := (bind m (fun _ => k))
  (at level 61, right associativity).

(** A call that succeeds or raises [OSError]. *)
Definition call (a : action) (ok : bool) : M unit :=
  ([a], if ok then inr tt else inl OSError).

Definition say (m : message) : M unit := ([Print m], inr tt).

Definition lift {A : Type} (e : exn) (o : option A) : M A :=
  match o with
  | Some a => ret a
  | None => raise e
  end.

Definition header_format : list fmt_char := [FmtB; FmtB; FmtB; FmtB; FmtI].

(** The [if response: ... else: ...] of the [try]. *)
Definition handle_response (response : list byte) : M unit :=
  match response with
  | _ :: _ =>
      fields <- lift StructError (unpack header_format (firstn 8 response)) ;;
      match fields with
      | [version; _; msg_class; msg_type; msg_len] =>
          say (MsgReceived msg_class msg_type msg_len) ;;
          if (msg_class =? 3) && (msg_type =? 4)
          then say MsgAck
          else say MsgUnexpected
      | _ => raise ValueError
      end
  | [] => say MsgNoResponse
  end.

Section Body.

(** [int] on strings, [None] for [ValueError]. *)
Variable py_int : string -> option Z.

Variable E : env.

(** [sock.recv(1024)]: at most 1024 bytes of what arrives. *)
Definition recv (bufsize : nat) : M (list byte) :=
  match received E with
  | Some bs => ([Recv (Z.of_nat bufsize)], inr (firstn bufsize bs))
  | None => ([Recv (Z.of_nat bufsize)], inl OSError)
  end.

(** The body of the [try]. *)
Definition try_body (dest_ip : string) (dest_port : Z) : M unit :=
  let src_ip := "0.0.0.0"%string in
  let src_port := 2905 in
  call Create (create_ok E) ;;
  call (Bind src_ip src_port) (bind_ok E) ;;
  say (MsgBound src_ip src_port) ;;
  call (Connect dest_ip dest_port) (connect_ok E) ;;
  say (MsgConnected dest_ip dest_port) ;;
  aspup <- lift StructError build_m3ua_aspup ;;
  call (Send aspup) (send_ok E) ;;
  say MsgSent ;;
  call (SetTimeout 5) true ;;
  response <- recv 1024 ;;
  handle_response response.

(** [test_m3ua()]: the two [input]s and the [int] are outside the [try];
    the handler prints the exception; the [finally] closes [sock], a
    name that is bound only once [sctpsocket_tcp] has returned. *)
Definition test_m3ua : M unit :=
  match stdin E with
  | [] => ([ReadLine], inl EOFError)
  | dest_ip :: rest =>
      match rest with
      | [] => ([ReadLine; ReadLine], inl EOFError)
      | port_text :: _ =>
          match py_int port_text with
          | None => ([ReadLine; ReadLine], inl ValueError)
          | Some dest_port =>
              let (tr, r) := try_body dest_ip dest_port in
              let handler :=
                match r with
                | inl e => [Print (MsgError e)]
                | inr _ => []
                end in
              if create_ok E
              then ([ReadLine; ReadLine] ++ tr ++ handler
                      ++ [Close; Print MsgClosed], inr tt)
              else ([ReadLine; ReadLine] ++ tr ++ handler,
                    inl UnboundLocalError)
          end
      end
  end.

End Body.

End M3uaTest.

Module M3uaFacts.

Import Struct StructUnpack StructFacts Connect M3uaTest.
Import Strings.String.
Local Open Scope Z_scope.

Definition is_close (a : action) : bool :=
  match a with Close => true | _ => false end.

Definition is_send (a : action) : bool :=
  match a with Send _ => true | _ => false end.

(** The eight bytes [build_m3ua_aspup] returns. *)
Definition aspup_bytes : list byte :=
  [x01; x00; x03; x01; x00; x00; x00; x08].

(** What is printed for a response of eight bytes or more. *)
Definition verdict (b2 b3 : byte) : message :=
  if (Z_of_byte b2 =? 3) && (Z_of_byte b3 =? 4) then MsgAck
  else MsgUnexpected.

Lemma handle_response_cases (r : list byte) :
  (r = [] /\ handle_response r = ([Print MsgNoResponse], inr tt)) \/
  (r <> [] /\ (List.length r < 8)%nat /\
   handle_response r = ([], inl StructError)) \/
  (exists b0 b1 b2 b3 b4 b5 b6 b7 tl,
      r = b0 :: b1 :: b2 :: b3 :: b4 :: b5 :: b6 :: b7 :: tl /\
      handle_response r
      = ([Print (MsgReceived (Z_of_byte b2) (Z_of_byte b3)
                             (be_value [b4; b5; b6; b7]));
          Print (verdict b2 b3)], inr tt)).
Proof.
  destruct r as [|b0 [|b1 [|b2 [|b3 [|b4 [|b5 [|b6 [|b7 tl]]]]]]]].
  1: left; split; reflexivity.
  1-7: right; left; split; [discriminate|]; split; [simpl; lia|];
       reflexivity.
  right. right. exists b0, b1, b2, b3, b4, b5, b6, b7, tl.
  split; [reflexivity|].
  unfold handle_response, verdict. cbn.
  destruct ((Z_of_byte b2 =? 3) && (Z_of_byte b3 =? 4)); reflexivity.
Qed.

(** What the [try] has done when [recv] is reached. *)
Definition before_recv (ip : string) (port : Z) : list action :=
  [Create; Bind "0.0.0.0" 2905; Print (MsgBound "0.0.0.0" 2905);
   Connect ip port; Print (MsgConnected ip port);
   Send aspup_bytes; Print MsgSent; SetTimeout 5].

(** The runs of the [try], by the first call that fails. *)
Lemma try_body_cases (E : env) (ip : string) (port : Z) :
  (create_ok E = false /\ try_body E ip port = ([Create], inl OSError)) \/
  (create_ok E = true /\ bind_ok E = false /\
   try_body E ip port = ([Create; Bind "0.0.0.0" 2905], inl OSError)) \/
  (create_ok E = true /\ bind_ok E = true /\ connect_ok E = false /\
   try_body E ip port
   = ([Create; Bind "0.0.0.0" 2905; Print (MsgBound "0.0.0.0" 2905);
       Connect ip port], inl OSError)) \/
  (create_ok E = true /\ bind_ok E = true /\ connect_ok E = true /\
   send_ok E = false /\
   try_body E ip port
   = ([Create; Bind "0.0.0.0" 2905; Print (MsgBound "0.0.0.0" 2905);
       Connect ip port; Print (MsgConnected ip port); Send aspup_bytes],
      inl OSError)) \/
  (create_ok E = true /\ bind_ok E = true /\ connect_ok E = true /\
   send_ok E = true /\
   ((received E = None /\
     try_body E ip port = (before_recv ip port ++ [Recv 1024], inl OSError))
    \/
    (exists bs,
        received E = Some bs /\
        try_body E ip port
        = (before_recv ip port
             ++ Recv 1024 :: fst (handle_response (firstn 1024 bs)),
           snd (handle_response (firstn 1024 bs)))))).
Proof.
  unfold try_body, recv.
  destruct (create_ok E); [right | left; split; reflexivity].
  destruct (bind_ok E); [right | left; repeat split; reflexivity].
  destruct (connect_ok E); [right | left; repeat split; reflexivity].
  destruct (send_ok E); [right | left; repeat split; reflexivity].
  repeat (split; [reflexivity|]).
  destruct (received E) as [bs|]; [right | left; split; reflexivity].
  exists bs. split; [reflexivity|].
  unfold bind, call, say, lift, ret. cbn -[firstn handle_response].
  destruct (handle_response (firstn 1024 bs)) as [tr r]. reflexivity.
Qed.

Lemma handle_response_quiet (r : list byte) :
  filter is_close (fst (handle_response r)) = [] /\
  filter is_send (fst (handle_response r)) = [].
Proof.
  destruct (handle_response_cases r)
    as [[_ ->]|[(_ & _ & ->)|(b0 & b1 & b2 & b3 & b4 & b5 & b6 & b7 & tl
                              & _ & ->)]]; split; reflexivity.
Qed.

(** The [try] never closes the socket, and sends at most the ASPUP
    message, once, after a successful [bind] and [connect]. *)
Lemma try_body_quiet (E : env) (ip : string) (port : Z) :
  filter is_close (fst (try_body E ip port)) = [] /\
  (filter is_send (fst (try_body E ip port)) = [] \/
   (filter is_send (fst (try_body E ip port)) = [Send aspup_bytes] /\
    create_ok E = true /\ bind_ok E = true /\ connect_ok E = true)).
Proof.
  destruct (try_body_cases E ip port)
    as [[H ->]|[(H1 & H2 & ->)|[(H1 & H2 & H3 & ->)|[(H1 & H2 & H3 & H4 & ->)
       |(H1 & H2 & H3 & H4 & [[H5 ->]|(bs & H5 & ->)])]]]];
    try (split; [reflexivity | auto 8; fail]).
  destruct (handle_response_quiet (firstn 1024 bs)) as [Q1 Q2].
  cbn [fst]. split.
  - rewrite filter_app. cbn -[firstn handle_response]. exact Q1.
  - right. rewrite filter_app. cbn -[firstn handle_response].
    rewrite Q2. auto.
Qed.

Definition handler (r : exn + unit) : list action :=
  match r with
  | inl e => [Print (MsgError e)]
  | inr _ => []
  end.

(** [test_m3ua] once the two lines are read and the port is an integer. *)
Lemma test_m3ua_run (py_int : string -> option Z) (E : env)
      (ip ps : string) (rest : list string) (port : Z) :
  stdin E = ip :: ps :: rest -> py_int ps = Some port ->
  test_m3ua py_int E
  = ([ReadLine; ReadLine] ++ fst (try_body E ip port)
       ++ handler (snd (try_body E ip port))
       ++ (if create_ok E then [Close; Print MsgClosed] else []),
     if create_ok E then inr tt else inl UnboundLocalError).
Proof.
  intros Hin Hport. unfold test_m3ua. rewrite Hin, Hport.
  destruct (try_body E ip port) as [tr r]. cbn [fst snd].
  destruct (create_ok E); unfold handler; destruct r;
    rewrite ?app_nil_r; reflexivity.
Qed.

Lemma response_prefix (bs : list byte) b0 b1 b2 b3 b4 b5 b6 b7 tl :
  firstn 1024 bs = b0 :: b1 :: b2 :: b3 :: b4 :: b5 :: b6 :: b7 :: tl ->
  (8 <= List.length bs)%nat /\
  nth_error bs 2 = Some b2 /\ nth_error bs 3 = Some b3.
Proof.
  intro H. split; [|split].
  - apply (f_equal (@List.length _)) in H. rewrite length_firstn in H.
    cbn [List.length] in H. lia.
  - pose proof (nth_error_firstn 1024 bs 2) as K. rewrite H in K.
    symmetry. exact K.
  - pose proof (nth_error_firstn 1024 bs 3) as K. rewrite H in K.
    symmetry. exact K.
Qed.

Lemma Z_of_byte_inj (b b' : byte) : Z_of_byte b = Z_of_byte b' -> b = b'.
Proof.
  intro H. rewrite <- (byte_of_Z_of_byte b), <- (byte_of_Z_of_byte b').
  now f_equal.
Qed.

Lemma verdict_ack (b2 b3 : byte) :
  verdict b2 b3 = MsgAck <-> b2 = x03 /\ b3 = x04.
Proof.
  unfold verdict. split.
  - destruct (Z.eqb_spec (Z_of_byte b2) 3) as [H2|];
      destruct (Z.eqb_spec (Z_of_byte b3) 4) as [H3|]; try discriminate.
    intros _. split; apply Z_of_byte_inj; assumption.
  - intros [-> ->]. reflexivity.
Qed.

(** X4. Once [sctpsocket_tcp] has returned a socket, [test_m3ua] returns
    normally and closes the socket exactly once, as its last action on
    it, whichever of [bind], [connect], [sctp_send], [recv] or the
    decoding of the response fails. *)
Theorem test_m3ua_closes_once (py_int : string -> option Z) (E : env)
        (ip ps : string) (rest : list string) (port : Z) :
  stdin E = ip :: ps :: rest -> py_int ps = Some port ->
  create_ok E = true ->
  snd (test_m3ua py_int E) = inr tt /\
  exists tr,
    fst (test_m3ua py_int E) = tr ++ [Close; Print MsgClosed] /\
    filter is_close tr = [].
Proof.
  intros Hin Hport Hc. rewrite (test_m3ua_run _ _ Hin Hport), Hc.
  split; [reflexivity|]. cbn [fst].
  exists ([ReadLine; ReadLine] ++ fst (try_body E ip port)
            ++ handler (snd (try_body E ip port))).
  split; [now rewrite <- !app_assoc|].
  rewrite !filter_app. destruct (try_body_quiet E ip port) as [-> _].
  destruct (snd (try_body E ip port)); reflexivity.
Qed.

(** X5. When [sctpsocket_tcp] raises, the handler prints the error and
    the [finally] then fails on the unbound name [sock]: [test_m3ua]
    raises [UnboundLocalError], having bound, sent and closed nothing. *)
Theorem test_m3ua_unbound_sock (py_int : string -> option Z) (E : env)
        (ip ps : string) (rest : list string) (port : Z) :
  stdin E = ip :: ps :: rest -> py_int ps = Some port ->
  create_ok E = false ->
  test_m3ua py_int E
  = ([ReadLine; ReadLine; Create; Print (MsgError OSError)],
     inl UnboundLocalError).
Proof.
  intros Hin Hport Hc. rewrite (test_m3ua_run _ _ Hin Hport), Hc.
  destruct (try_body_cases E ip port)
    as [[_ ->]|[(H & _)|[(H & _)|[(H & _)|(H & _)]]]];
    [reflexivity | congruence ..].
Qed.

(** X6. With the socket created, the error line is printed exactly when
    a later step fails: [bind], [connect], [sctp_send] or [recv] raises,
    or the response has between one and seven bytes (too short for the
    header). An empty response and any response of eight bytes or more
    print no error. *)
Theorem test_m3ua_error_reported (py_int : string -> option Z) (E : env)
        (ip ps : string) (rest : list string) (port : Z) :
  stdin E = ip :: ps :: rest -> py_int ps = Some port ->
  create_ok E = true ->
  ((exists e, In (Print (MsgError e)) (fst (test_m3ua py_int E))) <->
   ~ (bind_ok E = true /\ connect_ok E = true /\ send_ok E = true /\
      exists bs, received E = Some bs /\
                 (bs = [] \/ (8 <= List.length bs)%nat))).
Proof.
  intros Hin Hport Hc. rewrite (test_m3ua_run _ _ Hin Hport), Hc.
  cbn [fst].
  destruct (try_body_cases E ip port)
    as [[H _]|[(_ & H2 & ->)|[(_ & H2 & H3 & ->)|[(_ & H2 & H3 & H4 & ->)
       |(_ & H2 & H3 & H4 & [[H5 ->]|(bs & H5 & ->)])]]]];
    [congruence | ..].
  - split; [intros _ (K & _); congruence|].
    intros _. exists OSError. simpl. auto 10.
  - split; [intros _ (_ & K & _); congruence|].
    intros _. exists OSError. simpl. auto 10.
  - split; [intros _ (_ & _ & K & _); congruence|].
    intros _. exists OSError. simpl. auto 10.
  - split; [intros _ (_ & _ & _ & bs & K & _); congruence|].
    intros _. exists OSError. simpl. auto 15.
  - cbn [fst snd].
    destruct (handle_response_cases (firstn 1024 bs))
      as [[Hr ->]|[(Hr & Hlen & ->)|(b0 & b1 & b2 & b3 & b4 & b5 & b6 & b7
                                    & tl & Hr & ->)]]; cbn [fst snd handler].
    + split.
      * intros [e He]. simpl in He.
        repeat (destruct He as [He|He]; [discriminate|]). contradiction.
      * intro K. exfalso. apply K. repeat (split; [assumption|]).
        exists bs. split; [assumption|]. left.
        destruct bs; [reflexivity | discriminate].
    + split.
      * intros _ (_ & _ & _ & bs' & K & Hbs). rewrite H5 in K.
        injection K as <-. rewrite length_firstn in Hlen.
        destruct Hbs as [->|Hbs]; [now apply Hr | lia].
      * intros _. exists StructError. simpl. auto 15.
    + split.
      * intros [e He]. unfold verdict in He.
        destruct ((Z_of_byte b2 =? 3) && (Z_of_byte b3 =? 4));
          simpl in He;
          repeat (destruct He as [He|He]; [discriminate|]); contradiction.
      * intro K. exfalso. apply K. repeat (split; [assumption|]).
        exists bs. split; [assumption|]. right.
        now apply (response_prefix _ Hr).
Qed.

(** X7. "Received ASPUP_ACK" is printed exactly when every call
    succeeded and the response has at least eight bytes of which the
    third is 3 and the fourth is 4: the version, the reserved byte, the
    length field and whatever follows the eighth byte are not looked
    at. *)
Theorem test_m3ua_ack_iff (py_int : string -> option Z) (E : env)
        (ip ps : string) (rest : list string) (port : Z) :
  stdin E = ip :: ps :: rest -> py_int ps = Some port ->
  (In (Print MsgAck) (fst (test_m3ua py_int E)) <->
   create_ok E = true /\ bind_ok E = true /\ connect_ok E = true /\
   send_ok E = true /\
   exists bs, received E = Some bs /\ (8 <= List.length bs)%nat /\
              nth_error bs 2 = Some x03 /\ nth_error bs 3 = Some x04).
Proof.
  intros Hin Hport. rewrite (test_m3ua_run _ _ Hin Hport). cbn [fst].
  assert (Hfin : forall tr r,
             In (Print MsgAck)
                ([ReadLine; ReadLine] ++ tr ++ handler r
                   ++ (if create_ok E then [Close; Print MsgClosed] else []))
             <-> In (Print MsgAck) tr).
  { intros tr r. rewrite !in_app_iff. split; [|auto].
    intros [K|[K|[K|K]]]; auto.
    - simpl in K. destruct K as [K|[K|[]]]; discriminate.
    - destruct r; simpl in K; [destruct K as [K|[]]; discriminate|].
      contradiction.
    - destruct (create_ok E); simpl in K; [|contradiction].
      destruct K as [K|[K|[]]]; discriminate. }
  rewrite Hfin.
  destruct (try_body_cases E ip port)
    as [[H ->]|[(H1 & H2 & ->)|[(H1 & H2 & H3 & ->)|[(H1 & H2 & H3 & H4 & ->)
       |(H1 & H2 & H3 & H4 & [[H5 ->]|(bs & H5 & ->)])]]]]; cbn [fst].
  - split; [simpl; intuition discriminate | intros (K & _); congruence].
  - split; [simpl; intuition discriminate | intros (_ & K & _); congruence].
  - split; [simpl; intuition discriminate
           | intros (_ & _ & K & _); congruence].
  - split; [simpl; intuition discriminate
           | intros (_ & _ & _ & K & _); congruence].
  - split; [simpl; intuition discriminate
           | intros (_ & _ & _ & _ & bs & K & _); congruence].
  - assert (Hpre : In (Print MsgAck)
                      (before_recv ip port
                         ++ Recv 1024 :: fst (handle_response (firstn 1024 bs)))
                   <-> In (Print MsgAck)
                          (fst (handle_response (firstn 1024 bs)))).
    { rewrite in_app_iff. split; [|intro K; right; now right].
      intros [K|[K|K]]; [|discriminate|exact K].
      simpl in K. intuition discriminate. }
    rewrite Hpre.
    destruct (handle_response_cases (firstn 1024 bs))
      as [[Hr ->]|[(Hr & Hlen & ->)|(b0 & b1 & b2 & b3 & b4 & b5 & b6 & b7
                                    & tl & Hr & ->)]]; cbn [fst].
    + split; [simpl; intuition discriminate|].
      intros (_ & _ & _ & _ & bs' & K & Hlen & _). rewrite H5 in K.
      injection K as <-. apply (f_equal (@List.length _)) in Hr.
      rewrite length_firstn in Hr. cbn [List.length] in Hr. lia.
    + split; [simpl; tauto|].
      intros (_ & _ & _ & _ & bs' & K & Hlen' & _). rewrite H5 in K.
      injection K as <-. rewrite length_firstn in Hlen. lia.
    + destruct (response_prefix _ Hr) as (P1 & P2 & P3). split.
      * intros [K|[K|[]]]; [discriminate|].
        injection K as K. apply verdict_ack in K. destruct K as [-> ->].
        repeat (split; [assumption|]). exists bs. auto.
      * intros (_ & _ & _ & _ & bs' & K & _ & K2 & K3). rewrite H5 in K.
        injection K as <-. rewrite P2 in K2. rewrite P3 in K3.
        injection K2 as ->. injection K3 as ->.
        right. left. reflexivity.
Qed.

(** X8. [test_m3ua] sends at most one message, the eight bytes of
    [build_m3ua_aspup], and only on a socket that was created, bound and
    connected. *)
Theorem test_m3ua_sends_aspup (py_int : string -> option Z) (E : env) :
  filter is_send (fst (test_m3ua py_int E)) = [] \/
  (filter is_send (fst (test_m3ua py_int E)) = [Send aspup_bytes] /\
   build_m3ua_aspup = Some aspup_bytes /\
   create_ok E = true /\ bind_ok E = true /\ connect_ok E = true).
Proof.
  destruct (stdin E) as [|ip [|ps rest]] eqn:Hin;
    [left; unfold test_m3ua; rewrite Hin; reflexivity ..|].
  destruct (py_int ps) as [port|] eqn:Hport;
    [|left; unfold test_m3ua; rewrite Hin, Hport; reflexivity].
  rewrite (test_m3ua_run _ _ Hin Hport). cbn [fst].
  assert (Hh : filter is_send (handler (snd (try_body E ip port))) = [])
    by (destruct (snd (try_body E ip port)); reflexivity).
  assert (Hf : filter is_send
                 (if create_ok E then [Close; Print MsgClosed] else []) = [])
    by (destruct (create_ok E); reflexivity).
  rewrite !filter_app, Hh, Hf, !app_nil_r. cbn [filter is_send app].
  destruct (try_body_quiet E ip port) as [_ [Q|(Q & Q1 & Q2 & Q3)]];
    [left; exact Q | right].
  repeat (split; [assumption|]). split; [reflexivity|]. auto.
Qed.

End M3uaFacts.

(* ================================================================== *)
(** * The rest of [scan.py]                                            *)
(* ================================================================== *)

(** ** Strings, ranges and [sorted] *)

Module Py.

Import Strings.String Strings.Ascii.
Local Open Scope Z_scope.

(** Python strings whose characters are below 256, a character being its
    code point. *)

(** [c in s] for a string [c] of one character. *)
Fixpoint contains (c : ascii) (s : string) : bool :=
  match s with
  | EmptyString => false
  | String x s' => Ascii.eqb x c || contains c s'
  end.

(** [s.split(c, 1)] when [c in s]: what is before the first [c] and what
    is after it. *)
Fixpoint split_once (c : ascii) (s : string) : option (string * string) :=
  match s with
  | EmptyString => None
  | String x s' =>
      if Ascii.eqb x c then Some (EmptyString, s')
      else match split_once c s' with
           | Some (a, b) => Some (String x a, b)
           | None => None
           end
  end.

(** [s.split(c)]: the pieces between the occurrences of [c], one more
    than there are occurrences. *)
Fixpoint split_all (c : ascii) (s : string) : list string :=
  match s with
  | EmptyString => [EmptyString]
  | String x s' =>
      if Ascii.eqb x c then EmptyString :: split_all c s'
      else match split_all c s' with
           | piece :: pieces => String x piece :: pieces
           | [] => [String x EmptyString]
           end
  end.

(** [str.isspace] on the characters below 256: tab to carriage return,
    the four separators 28 to 31, the space, NEL and the no-break
    space. *)
Definition is_space (a : ascii) : bool :=
  let n := N_of_ascii a in
  ((9 <=? n) && (n <=? 13) || (28 <=? n) && (n <=? 32)
   || (n =? 133) || (n =? 160))%N.

Fixpoint lstrip (s : string) : string :=
  match s with
  | EmptyString => EmptyString
  | String x s' => if is_space x then lstrip s' else s
  end.

Fixpoint rstrip (s : string) : string :=
  match s with
  | EmptyString => EmptyString
  | String x s' =>
      match rstrip s' with
      | EmptyString => if is_space x then EmptyString
                       else String x EmptyString
      | r => String x r
      end
  end.

(** [s.strip()]. *)
Definition strip (s : string) : string := rstrip (lstrip s).

(** [list(range(a, b))]. *)
Definition py_range (a b : Z) : list Z :=
  map (fun i => a + Z.of_nat i) (seq 0 (Z.to_nat (b - a))).

Section Sorted.

Variable A : Type.
Variable leb : A -> A -> bool.

Fixpoint insert (x : A) (l : list A) : list A :=
  match l with
  | [] => [x]
  | y :: l' => if leb x y then x :: l else y :: insert x l'
  end.

(** [sorted(l)] for a total order [leb] in which two elements that
    compare equal are the same element (strings, tuples of strings and
    integers): the order of the result does not depend on the method. *)
Definition sorted (l : list A) : list A := fold_right insert [] l.

End Sorted.

(** [set(l)] as the list of its elements in some order; [sorted] makes
    the order irrelevant. *)
Definition str_set (l : list string) : list string :=
  nodup string_dec l.

(** All the results, or the first exception. *)
Fixpoint all_or_none {A B : Type} (f : A -> option B) (l : list A)
  : option (list B) :=
  match l with
  | [] => Some []
  | x :: l' =>
      match f x with
      | None => None
      | Some y =>
          match all_or_none f l' with
          | None => None
          | Some ys => Some (y :: ys)
          end
      end
  end.

End Py.

(** ** [expand_ips], [expand_ports], [ping_host], [filter_alive] *)

Module Inputs.

Import Strings.String Strings.Ascii.
Import Py.
Local Open Scope Z_scope.

Section Expand.

(** [int] on strings; [None] is [ValueError]. *)
Variable py_int : string -> option Z.

(** [[str(ip) for ip in ipaddress.ip_network(s, strict=False).hosts()]];
    [None] is [ValueError]. *)
Variable network_hosts : string -> option (list string).

(** [int(ipaddress.IPv4Address(s))]; [None] is [AddressValueError]. *)
Variable ipv4_int : string -> option Z.

(** [str(ipaddress.IPv4Address(i))] for an integer [i]; [None] is
    [AddressValueError]. *)
Variable ipv4_str : Z -> option string.

(** The addresses one part of the specification adds to [ips]. *)
Definition part_ips (part : string) : option (list string) :=
  let part := strip part in
  if contains "/" part then network_hosts part
  else if contains "-" part then
    match split_once "-" part with
    | Some (a, b) =>
        match ipv4_int a, ipv4_int b with
        | Some lo, Some hi => all_or_none ipv4_str (py_range lo (hi + 1))
        | _, _ => None
        end
    | None => None
    end
  else Some [part].

Definition expand_ips (ipspec : string) : option (list string) :=
  match all_or_none part_ips (split_all "," ipspec) with
  | Some added => Some (sorted String.leb (str_set (List.concat added)))
  | None => None
  end.

Definition expand_ports (prange : string) : option (list Z) :=
  if contains "-" prange then
    match split_once "-" prange with
    | Some (a, b) =>
        match py_int a, py_int b with
        | Some lo, Some hi => Some (py_range lo (hi + 1))
        | _, _ => None
        end
    | None => None
    end
  else
    match py_int prange with
    | Some p => Some [p]
    | None => None
    end.

End Expand.

Section Ping.

(** [subprocess.run(["ping", "-c1", "-W1", ip], ...).returncode]; [None]
    when [subprocess.run] raises (no [ping] program). *)
Variable ping : string -> option Z.

(** [ping_host(ip)]: the outer [None] is the exception, the inner one
    the [None] returned for a host that does not answer. *)
Definition ping_host (ip : string) : option (option string) :=
  match ping ip with
  | Some rc => Some (if rc =? 0 then Some ip else None)
  | None => None
  end.

(** [if fut.result()]: [None] and the empty string are false. *)
Definition truthy (r : option string) : bool :=
  match r with
  | Some EmptyString => false
  | Some _ => true
  | None => false
  end.

(** The loop over [as_completed(futures)]: [order] lists the futures,
    by their rank in [ips], in the order they complete. *)
Fixpoint collect (ips : list string) (order : list nat)
         (alive : list string) : option (list string) :=
  match order with
  | [] => Some alive
  | i :: order' =>
      match nth_error ips i with
      | None => collect ips order' alive
      | Some ip =>
          match ping_host ip with
          | None => None
          | Some r =>
              collect ips order'
                      (if truthy r
                       then match r with
                            | Some x => alive ++ [x]
                            | None => alive
                            end
                       else alive)
          end
      end
  end.

Definition filter_alive (order : list nat) (ips : list string)
  : option (list string) :=
  collect ips order [].

End Ping.

End Inputs.

Module PyFacts.

Import Strings.String Strings.Ascii.
Import Py.
Local Open Scope Z_scope.

(** *** Splitting *)

Lemma contains_append (c : ascii) (s1 s2 : string) :
  contains c (s1 ++ s2)%string = contains c s1 || contains c s2.
Proof.
  induction s1 as [|x s1 IH]; simpl; [reflexivity|].
  rewrite IH. apply orb_assoc.
Qed.

Lemma split_once_None (c : ascii) (s : string) :
  split_once c s = None <-> contains c s = false.
Proof.
  induction s as [|x s IH]; simpl; [tauto|].
  destruct (Ascii.eqb x c); simpl; [split; discriminate|].
  destruct (split_once c s) as [[a b]|].
  - split; [discriminate|]. intro H. apply IH in H. discriminate.
  - split; [|reflexivity]. intros _. now apply IH.
Qed.

(** [split_once] cuts at the first occurrence. *)
Lemma split_once_Some (c : ascii) (s a b : string) :
  split_once c s = Some (a, b) <->
  s = (a ++ String c b)%string /\ contains c a = false.
Proof.
  revert a. induction s as [|x s IH]; intro a; simpl.
  - split; [discriminate|]. intros [H _]. destruct a; discriminate.
  - destruct (Ascii.eqb_spec x c) as [->|Hneq].
    + split.
      * intros [= <- <-]. split; reflexivity.
      * intros [H Ha]. destruct a as [|y a]; simpl in *.
        -- injection H as ->. reflexivity.
        -- injection H as -> _. rewrite Ascii.eqb_refl in Ha. discriminate.
    + destruct (split_once c s) as [[a' b']|] eqn:Hs.
      * split.
        -- intros [= <- <-]. destruct (proj1 (IH a') eq_refl) as [-> Ha].
           split; [reflexivity|]. simpl.
           apply Ascii.eqb_neq in Hneq. now rewrite Hneq.
        -- intros [H Ha]. destruct a as [|y a]; simpl in *.
           ++ injection H as -> _. congruence.
           ++ injection H as -> H. apply orb_false_elim in Ha.
              destruct Ha as [_ Ha].
              assert (K : Some (a', b') = Some (a, b))
                by (apply IH; auto).
              injection K as -> ->. reflexivity.
      * split; [discriminate|]. intros [H Ha].
        destruct a as [|y a]; simpl in *.
        -- injection H as -> _. congruence.
        -- injection H as -> H. apply orb_false_elim in Ha.
           destruct Ha as [_ Ha].
           assert (K : None = Some (a, b)) by (apply IH; auto).
           discriminate.
Qed.

Lemma split_all_no_sep (c : ascii) (s : string) :
  contains c s = false -> split_all c s = [s].
Proof.
  induction s as [|x s IH]; simpl; [reflexivity|].
  intro H. apply orb_false_elim in H. destruct H as [Hx Hs].
  rewrite Hx, (IH Hs). reflexivity.
Qed.

Lemma split_all_nonempty (c : ascii) (s : string) : split_all c s <> [].
Proof.
  destruct s as [|x s]; simpl; [discriminate|].
  destruct (Ascii.eqb x c); [discriminate|].
  destruct (split_all c s); discriminate.
Qed.

(** The pieces of [s1 + c + s2] are those of [s1] then those of [s2]. *)
Lemma split_all_join (c : ascii) (s1 s2 : string) :
  split_all c (s1 ++ String c s2)%string
  = split_all c s1 ++ split_all c s2.
Proof.
  induction s1 as [|x s1 IH]; simpl.
  - now rewrite Ascii.eqb_refl.
  - destruct (Ascii.eqb x c); [now rewrite IH|].
    rewrite IH. pose proof (split_all_nonempty c s1) as Hne.
    destruct (split_all c s1) as [|p ps]; [congruence | reflexivity].
Qed.

(** *** Ranges *)

Lemma py_range_length (a b : Z) :
  List.length (py_range a b) = Z.to_nat (b - a).
Proof. unfold py_range. now rewrite length_map, length_seq. Qed.

Lemma py_range_In (a b x : Z) : In x (py_range a b) <-> a <= x < b.
Proof.
  unfold py_range. rewrite in_map_iff. split.
  - intros [i [<- Hi]]. apply in_seq in Hi. lia.
  - intro H. exists (Z.to_nat (x - a)). split; [lia|].
    apply in_seq. lia.
Qed.

Lemma py_range_sorted (a b : Z) : StronglySorted Z.lt (py_range a b).
Proof.
  unfold py_range. generalize (Z.to_nat (b - a)) as n. generalize 0%nat as k.
  intros k n. revert k. induction n as [|n IH]; intro k; simpl.
  - constructor.
  - constructor; [apply IH|].
    apply Forall_forall. intros x Hx. apply in_map_iff in Hx.
    destruct Hx as [i [<- Hi]]. apply in_seq in Hi. lia.
Qed.

Lemma py_range_empty (a b : Z) : b <= a -> py_range a b = [].
Proof.
  intro H. unfold py_range. replace (Z.to_nat (b - a)) with 0%nat by lia.
  reflexivity.
Qed.

(** *** [sorted] *)

Section SortedFacts.

Variable A : Type.
Variable leb : A -> A -> bool.

Hypothesis leb_total : forall x y, leb x y = true \/ leb y x = true.
Hypothesis leb_trans :
  forall x y z, leb x y = true -> leb y z = true -> leb x z = true.
Hypothesis leb_antisym :
  forall x y, leb x y = true -> leb y x = true -> x = y.

Definition le (x y : A) : Prop := leb x y = true.

Lemma insert_perm (x : A) (l : list A) :
  Permutation (insert leb x l) (x :: l).
Proof.
  induction l as [|y l IH]; simpl; [apply Permutation_refl|].
  destruct (leb x y); [apply Permutation_refl|].
  eapply Permutation_trans; [apply perm_skip, IH | apply perm_swap].
Qed.

Lemma sorted_perm (l : list A) : Permutation (sorted leb l) l.
Proof.
  induction l as [|x l IH]; simpl; [constructor|].
  eapply Permutation_trans; [apply insert_perm | now apply perm_skip].
Qed.

Lemma insert_sorted (x : A) (l : list A) :
  StronglySorted le l -> StronglySorted le (insert leb x l).
Proof.
  induction 1 as [|y l Hs IH Hall]; simpl.
  - repeat constructor.
  - destruct (leb x y) eqn:Hxy.
    + constructor; [now constructor|].
      constructor; [exact Hxy|].
      eapply Forall_impl; [|exact Hall].
      intros z Hz. eapply leb_trans; eauto.
    + constructor; [exact IH|].
      apply Forall_forall. intros z Hz.
      apply (Permutation_in _ (insert_perm x l)) in Hz.
      destruct Hz as [<-|Hz].
      * destruct (leb_total x y) as [K|K]; [congruence | exact K].
      * rewrite Forall_forall in Hall. now apply Hall.
Qed.

Lemma sorted_sorted (l : list A) : StronglySorted le (sorted leb l).
Proof.
  induction l as [|x l IH]; simpl; [constructor | now apply insert_sorted].
Qed.

(** Two sorted lists with the same elements, as many times each, are the
    same list. *)
Lemma sorted_unique (l l' : list A) :
  StronglySorted le l -> StronglySorted le l' -> Permutation l l' ->
  l = l'.
Proof.
  intros Hs. revert l'.
  induction Hs as [|x l Hs IH Hall]; intros l' Hs' Hp.
  - apply Permutation_nil in Hp. now subst.
  - destruct Hs' as [|y l' Hs' Hall'].
    + apply Permutation_sym, Permutation_nil in Hp. discriminate.
    + rewrite Forall_forall in Hall, Hall'.
      assert (Hxy : x = y).
      { assert (Hx : In x (y :: l'))
          by (eapply Permutation_in; [exact Hp | now left]).
        assert (Hy : In y (x :: l))
          by (eapply Permutation_in;
              [apply Permutation_sym; exact Hp | now left]).
        destruct Hx as [Hx|Hx]; [now subst|].
        destruct Hy as [Hy|Hy]; [now subst|].
        apply leb_antisym; [now apply Hall | now apply Hall']. }
      subst y. f_equal. apply IH; [exact Hs'|].
      eapply Permutation_cons_inv; eauto.
Qed.

Lemma sorted_perm_eq (l l' : list A) :
  Permutation l l' -> sorted leb l = sorted leb l'.
Proof.
  intro Hp. apply sorted_unique; try apply sorted_sorted.
  eapply Permutation_trans; [apply sorted_perm|].
  eapply Permutation_trans; [exact Hp|].
  apply Permutation_sym, sorted_perm.
Qed.

End SortedFacts.

(** *** The order of strings *)

Lemma ascii_compare_lt (a b : ascii) :
  Ascii.compare a b = Lt <-> (N_of_ascii a < N_of_ascii b)%N.
Proof. unfold Ascii.compare. apply N.compare_lt_iff. Qed.

Lemma ascii_compare_gt (a b : ascii) :
  Ascii.compare a b = Gt <-> (N_of_ascii b < N_of_ascii a)%N.
Proof. unfold Ascii.compare. apply N.compare_gt_iff. Qed.

Lemma string_leb_trans (s1 s2 s3 : string) :
  String.leb s1 s2 = true -> String.leb s2 s3 = true ->
  String.leb s1 s3 = true.
Proof.
  unfold String.leb. revert s2 s3.
  induction s1 as [|a s1 IH]; intros [|b s2] [|c s3]; simpl; auto;
    try discriminate.
  destruct (Ascii.compare a b) eqn:Hab.
  - apply Ascii.compare_eq_iff in Hab. subst b.
    destruct (Ascii.compare a c) eqn:Hac; auto. apply IH.
  - intros _. destruct (Ascii.compare b c) eqn:Hbc.
    + apply Ascii.compare_eq_iff in Hbc. subst c. now rewrite Hab.
    + intros _. apply -> ascii_compare_lt in Hab.
      apply -> ascii_compare_lt in Hbc.
      assert (Hac : Ascii.compare a c = Lt)
        by (apply ascii_compare_lt; lia).
      now rewrite Hac.
    + discriminate.
  - discriminate.
Qed.

(** [sorted(set(l))] is [l] without repetitions, in ascending order, and
    depends on the elements of [l] only. *)
Lemma sorted_set_spec (l : list string) :
  StronglySorted (le String.leb) (sorted String.leb (str_set l)) /\
  NoDup (sorted String.leb (str_set l)) /\
  forall x, In x (sorted String.leb (str_set l)) <-> In x l.
Proof.
  split; [|split].
  - apply sorted_sorted.
    + apply String.leb_total.
    + apply string_leb_trans.
  - eapply Permutation_NoDup; [apply Permutation_sym, sorted_perm|].
    apply NoDup_nodup.
  - intro x. split.
    + intro H. apply (Permutation_in _ (sorted_perm String.leb _)) in H.
      unfold str_set in H. now apply nodup_In in H.
    + intro H.
      apply (Permutation_in _ (Permutation_sym (sorted_perm String.leb _))).
      unfold str_set. now apply nodup_In.
Qed.

Lemma sorted_set_ext (l l' : list string) :
  (forall x, In x l <-> In x l') ->
  sorted String.leb (str_set l) = sorted String.leb (str_set l').
Proof.
  intro H. apply sorted_perm_eq.
  - apply String.leb_total.
  - apply string_leb_trans.
  - apply String.leb_antisym.
  - apply NoDup_Permutation; try apply NoDup_nodup.
    intro x. unfold str_set. rewrite !nodup_In. apply H.
Qed.

End PyFacts.

Module InputsFacts.

Import Strings.String Strings.Ascii.
Import Py PyFacts Inputs.
Local Open Scope Z_scope.

Lemma all_or_none_Some (A B : Type) (f : A -> option B) (l : list A)
      (ys : list B) :
  all_or_none f l = Some ys <-> Forall2 (fun x y => f x = Some y) l ys.
Proof.
  revert ys. induction l as [|x l IH]; intro ys; simpl.
  - split; [intros [= <-]; constructor | intro H; inversion H; reflexivity].
  - destruct (f x) as [y|] eqn:Hx.
    + destruct (all_or_none f l) as [ys'|].
      * split.
        -- intros [= <-]. constructor; [exact Hx | now apply IH].
        -- intro H. inversion H as [|? y' ? ys'' Hy Hrest]; subst.
           apply IH in Hrest. congruence.
      * split; [discriminate|].
        intro H. inversion H as [|? y' ? ys'' Hy Hrest]; subst.
        apply IH in Hrest. discriminate.
    + split; [discriminate|].
      intro H. inversion H; subst. congruence.
Qed.

Lemma all_or_none_None (A B : Type) (f : A -> option B) (l : list A) :
  all_or_none f l = None <-> exists x, In x l /\ f x = None.
Proof.
  induction l as [|x l IH]; simpl.
  - split; [discriminate | intros [x [[] _]]].
  - destruct (f x) as [y|] eqn:Hx.
    + destruct (all_or_none f l) as [ys|].
      * split; [discriminate|]. intros [z [[<-|Hz] Hf]]; [congruence|].
        assert (K : @None (list B) = None) by reflexivity.
        destruct IH as [_ IH]. discriminate IH. eauto.
      * split; [|reflexivity]. intros _.
        destruct IH as [IH _]. destruct (IH eq_refl) as [z [Hz Hf]]. eauto.
    + split; [|reflexivity]. intros _. eauto.
Qed.

Lemma all_or_none_app (A B : Type) (f : A -> option B) (l1 l2 : list A) :
  all_or_none f (l1 ++ l2)
  = match all_or_none f l1, all_or_none f l2 with
    | Some y1, Some y2 => Some (y1 ++ y2)
    | _, _ => None
    end.
Proof.
  induction l1 as [|x l1 IH]; simpl.
  - destruct (all_or_none f l2); reflexivity.
  - destruct (f x); [|reflexivity]. rewrite IH.
    destruct (all_or_none f l1), (all_or_none f l2); reflexivity.
Qed.

Lemma Forall2_In_l (A B : Type) (R : A -> B -> Prop) l ys y :
  Forall2 R l ys -> In y ys -> exists x, In x l /\ R x y.
Proof.
  induction 1 as [|x y' l ys Hxy Hrest IH]; [contradiction|].
  intros [<-|Hin]; [exists x; split; [now left | exact Hxy]|].
  destruct (IH Hin) as [x' [Hx' Hr]]. exists x'. split; [now right | exact Hr].
Qed.

Lemma Forall2_In_r (A B : Type) (R : A -> B -> Prop) l ys x :
  Forall2 R l ys -> In x l -> exists y, In y ys /\ R x y.
Proof.
  induction 1 as [|x' y l ys Hxy Hrest IH]; [contradiction|].
  intros [<-|Hin]; [exists y; split; [now left | exact Hxy]|].
  destruct (IH Hin) as [y' [Hy' Hr]]. exists y'. split; [now right | exact Hr].
Qed.

Section ExpandFacts.

Variable py_int : string -> option Z.
Variable network_hosts : string -> option (list string).
Variable ipv4_int : string -> option Z.
Variable ipv4_str : Z -> option string.

Local Abbreviation expand_ports := (Inputs.expand_ports py_int).
Local Abbreviation part_ips :=
  (Inputs.part_ips network_hosts ipv4_int ipv4_str).
Local Abbreviation expand_ips :=
  (Inputs.expand_ips network_hosts ipv4_int ipv4_str).

(** X9. For a specification [a-b] cut at its first dash, with the
    integers [lo] and [hi] for [a] and [b], [expand_ports] returns the
    ports from [lo] to [hi] inclusive in ascending order, each once:
    [hi - lo + 1] of them, and none at all (no error) when [hi < lo]. *)
Theorem expand_ports_range (a b : string) (lo hi : Z) :
  contains "-" a = false ->
  py_int a = Some lo -> py_int b = Some hi ->
  exists ports,
    expand_ports (a ++ String "-" b) = Some ports /\
    List.length ports = Z.to_nat (hi - lo + 1) /\
    (forall p, In p ports <-> lo <= p <= hi) /\
    StronglySorted Z.lt ports /\
    (hi < lo -> ports = []).
Proof.
  intros Ha Hlo Hhi. exists (py_range lo (hi + 1)).
  unfold Inputs.expand_ports.
  assert (Hs : split_once "-" (a ++ String "-" b) = Some (a, b))
    by (apply split_once_Some; auto).
  assert (Hc : contains "-" (a ++ String "-" b) = true).
  { destruct (contains "-" (a ++ String "-" b)) eqn:K; [reflexivity|].
    apply split_once_None in K. congruence. }
  rewrite Hc, Hs, Hlo, Hhi.
  split; [reflexivity|]. split; [|split; [|split]].
  - rewrite py_range_length. f_equal. lia.
  - intro p. rewrite py_range_In. lia.
  - apply py_range_sorted.
  - intro H. apply py_range_empty. lia.
Qed.

(** X10. [expand_ports] raises exactly when a bound is not an integer for
    [int]: the whole text when it has no dash, else the text before the
    first dash or the text after it (later dashes stay in the upper
    bound). Without a dash and with an integer it returns that one port.
    A text that starts with a dash is read as a range with an empty
    lower bound, so it raises whenever [int] rejects the empty string. *)
Theorem expand_ports_errors (s : string) :
  (expand_ports s = None <->
   (contains "-" s = false /\ py_int s = None) \/
   (exists a b, s = (a ++ String "-" b)%string /\ contains "-" a = false /\
                (py_int a = None \/ py_int b = None))) /\
  (forall p, contains "-" s = false -> py_int s = Some p ->
             expand_ports s = Some [p]) /\
  (py_int EmptyString = None ->
   forall rest, expand_ports (String "-" rest) = None).
Proof.
  split; [|split].
  - unfold Inputs.expand_ports.
    destruct (contains "-" s) eqn:Hc.
    + destruct (split_once "-" s) as [[a b]|] eqn:Hs.
      2:{ apply split_once_None in Hs. congruence. }
      apply split_once_Some in Hs. destruct Hs as [-> Ha].
      split.
      * intro H. right. exists a, b. split; [reflexivity|].
        split; [exact Ha|].
        destruct (py_int a); [|now left].
        destruct (py_int b); [discriminate | now right].
      * intros [[K _]|(a' & b' & Heq & Ha' & Hf)]; [discriminate|].
        assert (K : Some (a, b) = Some (a', b')).
        { rewrite <- (proj2 (split_once_Some "-" _ a b) (conj eq_refl Ha)).
          apply split_once_Some. auto. }
        injection K as <- <-.
        destruct Hf as [-> | Hf]; [reflexivity|].
        rewrite Hf. destruct (py_int a); reflexivity.
    + split.
      * intro H. left. split; [reflexivity|].
        destruct (py_int s); [discriminate | reflexivity].
      * intros [[_ ->]|(a & b & -> & _ & _)]; [reflexivity|].
        rewrite contains_append in Hc. simpl in Hc.
        rewrite orb_true_r in Hc. discriminate.
  - intros p Hc Hp. unfold Inputs.expand_ports. now rewrite Hc, Hp.
  - intros Hempty rest. unfold Inputs.expand_ports. simpl.
    now rewrite Hempty.
Qed.

Lemma expand_ips_Some (spec : string) (ips : list string) :
  expand_ips spec = Some ips <->
  exists added,
    Forall2 (fun part ad => part_ips part = Some ad)
            (split_all "," spec) added /\
    ips = sorted String.leb (str_set (List.concat added)).
Proof.
  unfold Inputs.expand_ips.
  destruct (all_or_none part_ips (split_all "," spec)) as [added|] eqn:H.
  - apply all_or_none_Some in H. split.
    + intros [= <-]. eauto.
    + intros (added' & H' & ->). apply all_or_none_Some in H, H'.
      congruence.
  - split; [discriminate|]. intros (added' & H' & _).
    apply all_or_none_Some in H'. congruence.
Qed.

(** X11. Whatever the specification, the list [expand_ips] returns is in
    ascending order of strings (character by character, so ["10.0.0.10"]
    comes before ["10.0.0.9"]) and holds no address twice. *)
Theorem expand_ips_sorted (spec : string) (ips : list string) :
  expand_ips spec = Some ips ->
  StronglySorted (fun x y => String.leb x y = true) ips /\ NoDup ips.
Proof.
  intro H. apply expand_ips_Some in H. destruct H as (added & _ & ->).
  destruct (sorted_set_spec (List.concat added)) as (S1 & S2 & _).
  split; assumption.
Qed.

(** X12. An address is in the result of [expand_ips] exactly when some
    comma-separated part of the specification adds it, and [expand_ips]
    raises exactly when some part does: one bad part loses the whole
    list. *)
Theorem expand_ips_members (spec : string) :
  (forall ips,
      expand_ips spec = Some ips ->
      forall ip,
        In ip ips <->
        exists part added, In part (split_all "," spec) /\
                           part_ips part = Some added /\ In ip added) /\
  (expand_ips spec = None <->
   exists part, In part (split_all "," spec) /\ part_ips part = None).
Proof.
  split.
  - intros ips H ip. apply expand_ips_Some in H.
    destruct H as (added & Hall & ->).
    destruct (sorted_set_spec (List.concat added)) as (_ & _ & S3).
    rewrite S3, in_concat. split.
    + intros (ad & Had & Hip).
      destruct (Forall2_In_l _ Hall Had) as (part & Hpart & Hp). eauto.
    + intros (part & ad & Hpart & Hp & Hip).
      destruct (Forall2_In_r _ Hall Hpart) as (ad' & Had' & Hp').
      exists ad'. split; [exact Had'|]. congruence.
  - unfold Inputs.expand_ips. rewrite <- all_or_none_None.
    destruct (all_or_none part_ips (split_all "," spec));
      split; congruence.
Qed.

Lemma expand_ips_app (s1 s2 : string) :
  expand_ips (s1 ++ String "," s2)
  = match all_or_none part_ips (split_all "," s1),
          all_or_none part_ips (split_all "," s2) with
    | Some a1, Some a2 =>
        Some (sorted String.leb (str_set (List.concat a1 ++ List.concat a2)))
    | _, _ => None
    end.
Proof.
  unfold Inputs.expand_ips. rewrite split_all_join, all_or_none_app.
  destruct (all_or_none part_ips (split_all "," s1)) as [a1|];
    [|reflexivity].
  destruct (all_or_none part_ips (split_all "," s2)) as [a2|];
    [|reflexivity].
  now rewrite concat_app.
Qed.

(** X13. The result of [expand_ips] does not depend on the order of the
    comma-separated parts nor on their repetition: two specifications
    joined by a comma give the same list in either order, and a
    specification joined to itself gives what it gives alone. *)
Theorem expand_ips_order_irrelevant (s1 s2 : string) :
  expand_ips (s1 ++ String "," s2) = expand_ips (s2 ++ String "," s1) /\
  expand_ips (s1 ++ String "," s1) = expand_ips s1.
Proof.
  split.
  - rewrite !expand_ips_app.
    destruct (all_or_none part_ips (split_all "," s1)) as [a1|],
             (all_or_none part_ips (split_all "," s2)) as [a2|];
      try reflexivity.
    f_equal. apply sorted_set_ext. intro x. rewrite !in_app_iff. tauto.
  - rewrite expand_ips_app. unfold Inputs.expand_ips.
    destruct (all_or_none part_ips (split_all "," s1)) as [a1|];
      [|reflexivity].
    f_equal. apply sorted_set_ext. intro x. rewrite !in_app_iff. tauto.
Qed.

(** X14. A specification that, once stripped, has no comma, no slash and
    no dash is returned as the only address, stripped and otherwise
    unchecked: any text, the empty one included. *)
Theorem expand_ips_plain (spec : string) :
  contains "," spec = false ->
  contains "/" (strip spec) = false ->
  contains "-" (strip spec) = false ->
  expand_ips spec = Some [strip spec].
Proof.
  intros Hc Hs Hd. unfold Inputs.expand_ips.
  rewrite (split_all_no_sep _ _ Hc). simpl.
  unfold Inputs.part_ips. rewrite Hs, Hd. reflexivity.
Qed.

(** X15. For a single part [a-b] (no comma, no slash, nothing to strip)
    cut at its first dash, with the integers [lo] and [hi] of the two
    addresses, [expand_ips] returns the texts of the addresses from [lo]
    to [hi] inclusive, and the empty list, not an error, when
    [hi < lo]. *)
Theorem expand_ips_range (a b : string) (lo hi : Z) :
  let spec := (a ++ String "-" b)%string in
  contains "," spec = false ->
  strip spec = spec ->
  contains "/" spec = false ->
  contains "-" a = false ->
  ipv4_int a = Some lo -> ipv4_int b = Some hi ->
  (forall i, lo <= i <= hi -> ipv4_str i <> None) ->
  exists ips,
    expand_ips spec = Some ips /\
    (forall ip, In ip ips <->
                exists i, lo <= i <= hi /\ ipv4_str i = Some ip) /\
    (hi < lo -> ips = []).
Proof.
  intros spec Hc Hstrip Hslash Ha Hlo Hhi Hstr.
  assert (Hs : split_once "-" spec = Some (a, b))
    by (apply split_once_Some; auto).
  assert (Hd : contains "-" spec = true).
  { destruct (contains "-" spec) eqn:K; [reflexivity|].
    apply split_once_None in K. congruence. }
  destruct (all_or_none ipv4_str (py_range lo (hi + 1))) as [texts|] eqn:Ht.
  2:{ apply all_or_none_None in Ht. destruct Ht as (i & Hi & Hf).
      apply py_range_In in Hi. exfalso. apply (Hstr i); [lia | exact Hf]. }
  assert (Hpart : part_ips spec = Some texts).
  { unfold Inputs.part_ips. rewrite Hstrip, Hslash, Hd, Hs, Hlo, Hhi.
    exact Ht. }
  exists (sorted String.leb (str_set texts)).
  apply all_or_none_Some in Ht.
  split; [|split].
  - unfold Inputs.expand_ips. rewrite (split_all_no_sep _ _ Hc). simpl.
    rewrite Hpart. simpl. now rewrite app_nil_r.
  - intro ip. destruct (sorted_set_spec texts) as (_ & _ & S3).
    rewrite S3. split.
    + intro Hin. destruct (Forall2_In_l _ Ht Hin) as (i & Hi & Hf).
      apply py_range_In in Hi. exists i. split; [lia | exact Hf].
    + intros (i & Hi & Hf).
      assert (Hr : In i (py_range lo (hi + 1)))
        by (apply py_range_In; lia).
      destruct (Forall2_In_r _ Ht Hr) as (ip' & Hip' & Hf').
      congruence.
  - intro Hlt. rewrite py_range_empty in Ht by lia.
    inversion Ht. reflexivity.
Qed.

End ExpandFacts.

Section PingFacts.

Variable ping : string -> option Z.

Local Abbreviation ping_host := (Inputs.ping_host ping).
Local Abbreviation filter_alive := (Inputs.filter_alive ping).

(** The hosts [filter_alive] keeps: [ping] returned 0 and the text of the
    host is not empty. *)
Definition answers (ip : string) : bool :=
  match ping ip with
  | Some rc => (rc =? 0) && negb (String.eqb ip EmptyString)
  | None => false
  end.

(** The hosts of the futures in the order they complete. *)
Definition completed (ips : list string) (order : list nat) : list string :=
  flat_map (fun i => match nth_error ips i with
                     | Some ip => [ip]
                     | None => []
                     end) order.

Lemma completed_seq (ips : list string) (k : nat) :
  completed ips (seq k (List.length ips - k)) = skipn k ips.
Proof.
  remember (List.length ips - k)%nat as n eqn:Hn.
  revert k Hn. induction n as [|n IH]; intros k Hn; simpl.
  - symmetry. apply skipn_all2. lia.
  - destruct (nth_error ips k) as [ip|] eqn:Hk.
    2:{ apply nth_error_None in Hk. lia. }
    rewrite IH by lia. simpl.
    clear IH Hn. revert k Hk. induction ips as [|x ips IHl]; intros k Hk.
    + destruct k; discriminate.
    + destruct k as [|k]; simpl in *.
      * now injection Hk as ->.
      * now apply IHl.
Qed.

Lemma completed_perm (ips : list string) (order : list nat) :
  Permutation order (seq 0 (List.length ips)) ->
  Permutation (completed ips order) ips.
Proof.
  intro Hp.
  eapply Permutation_trans; [apply Permutation_flat_map, Hp|].
  fold (completed ips (seq 0 (List.length ips))).
  pose proof (completed_seq ips 0) as K. rewrite Nat.sub_0_r in K.
  rewrite K. apply Permutation_refl.
Qed.

Lemma filter_perm (A : Type) (f : A -> bool) (l l' : list A) :
  Permutation l l' -> Permutation (filter f l) (filter f l').
Proof.
  induction 1 as [|x l l' _ IH|x y l|l l' l'' _ IH1 _ IH2]; simpl.
  - constructor.
  - destruct (f x); [now constructor | exact IH].
  - destruct (f x), (f y); try apply Permutation_refl. apply perm_swap.
  - eapply Permutation_trans; eauto.
Qed.

Lemma completed_cons (ips : list string) (i : nat) (order : list nat) :
  completed ips (i :: order)
  = match nth_error ips i with
    | Some ip => ip :: completed ips order
    | None => completed ips order
    end.
Proof.
  unfold completed. simpl. destruct (nth_error ips i); reflexivity.
Qed.

Lemma collect_spec (ips : list string) (order : list nat)
      (alive : list string) :
  (forall ip, In ip (completed ips order) -> ping ip <> None) ->
  collect ping ips order alive
  = Some (alive ++ filter answers (completed ips order)).
Proof.
  revert alive. induction order as [|i order IH]; intros alive Hok.
  - simpl. now rewrite app_nil_r.
  - rewrite completed_cons in *. cbn [collect].
    destruct (nth_error ips i) as [ip|] eqn:Hi; [|now apply IH].
    assert (Hip : ping ip <> None) by (apply Hok; now left).
    assert (Hrest : forall ip', In ip' (completed ips order) ->
                                ping ip' <> None).
    { intros ip' H'. apply Hok. now right. }
    unfold Inputs.ping_host. cbn [filter].
    destruct (ping ip) as [rc|] eqn:Hp; [|congruence].
    assert (Ha : answers ip = (rc =? 0) && negb (String.eqb ip EmptyString))
      by (unfold answers; now rewrite Hp).
    rewrite Ha.
    destruct (rc =? 0); cbn [andb truthy].
    + destruct ip as [|c ip]; cbn [truthy String.eqb negb].
      * now apply IH.
      * rewrite IH by exact Hrest. now rewrite <- app_assoc.
    + now apply IH.
Qed.

Lemma collect_raises (ips : list string) (order : list nat)
      (alive : list string) (ip : string) :
  In ip (completed ips order) -> ping ip = None ->
  collect ping ips order alive = None.
Proof.
  revert alive. induction order as [|i order IH]; intros alive Hin Hf;
    [contradiction|].
  rewrite completed_cons in Hin. cbn [collect].
  destruct (nth_error ips i) as [ip'|] eqn:Hi; [|now apply IH].
  unfold Inputs.ping_host.
  destruct (ping ip') as [rc|] eqn:Hp; [|reflexivity].
  destruct Hin as [->|Hin]; [congruence|].
  now apply IH.
Qed.

(** X16. When every [ping] runs, [filter_alive] returns, in the order
    the futures complete, the hosts whose [ping] returned 0 and whose
    text is not empty: whatever that order, the same hosts, as many
    times as they are in [ips], so that the hosts kept and the hosts
    down add up to [len(ips)]; a list without repetition stays so. *)
Theorem filter_alive_permutation (order : list nat) (ips : list string) :
  Permutation order (seq 0 (List.length ips)) ->
  (forall ip, In ip ips -> ping ip <> None) ->
  exists alive,
    filter_alive order ips = Some alive /\
    alive = filter answers (completed ips order) /\
    Permutation alive (filter answers ips) /\
    (forall ip, In ip alive <->
                In ip ips /\ ping ip = Some 0 /\ ip <> EmptyString) /\
    (List.length alive
     + List.length (filter (fun ip => negb (answers ip)) ips)
     = List.length ips)%nat /\
    (NoDup ips -> NoDup alive).
Proof.
  intros Hp Hok.
  pose proof (completed_perm ips Hp) as Hc.
  assert (Hok' : forall ip, In ip (completed ips order) -> ping ip <> None).
  { intros ip Hin. apply Hok. eapply Permutation_in; eauto. }
  exists (filter answers (completed ips order)).
  pose proof (filter_perm answers Hc) as Hfp.
  split; [unfold Inputs.filter_alive; now rewrite collect_spec|].
  split; [reflexivity|]. split; [exact Hfp|]. split; [|split].
  - intro ip. rewrite filter_In. split.
    + intros [Hin Ha]. split; [eapply Permutation_in; eauto|].
      unfold answers in Ha. destruct (ping ip) as [rc|]; [|discriminate].
      apply andb_prop in Ha. destruct Ha as [Hrc Hne].
      apply Z.eqb_eq in Hrc. subst rc. split; [reflexivity|].
      intros ->. discriminate.
    + intros (Hin & Hrc & Hne). split.
      * eapply Permutation_in; [apply Permutation_sym; exact Hc | exact Hin].
      * unfold answers. rewrite Hrc. simpl.
        destruct ip; [congruence | reflexivity].
  - rewrite (Permutation_length Hfp). clear.
    induction ips as [|x l IH]; simpl; [reflexivity|].
    destruct (answers x); simpl; lia.
  - intro Hnd. eapply Permutation_NoDup; [apply Permutation_sym, Hfp|].
    now apply NoDup_filter.
Qed.

(** X17. When the [ping] of some host of [ips] cannot be run,
    [filter_alive] raises, whatever the order of completion: the hosts
    already found alive are lost with it. *)
Theorem filter_alive_raises (order : list nat) (ips : list string)
        (ip : string) :
  Permutation order (seq 0 (List.length ips)) ->
  In ip ips -> ping ip = None ->
  filter_alive order ips = None.
Proof.
  intros Hp Hin Hf. unfold Inputs.filter_alive.
  apply collect_raises with (ip := ip); [|exact Hf].
  eapply Permutation_in;
    [apply Permutation_sym, completed_perm; exact Hp | exact Hin].
Qed.

End PingFacts.

End InputsFacts.

(** ** More on the event loop *)

Module ScanMore.

Import Producer Scan ProducerFacts DictFacts ScanFacts.

Section More.

Variables host port : Type.
Variable E : Scan.env.
Variables concurrency timeout : Z.

Local Abbreviation target := (Producer.target host port).
Local Abbreviation state := (Scan.state host port).
Local Abbreviation step := (@Scan.step host port E concurrency timeout).
Local Abbreviation run := (@Scan.run host port E concurrency timeout).
Local Abbreviation reachable :=
  (@ScanFacts.reachable host port E concurrency timeout).

Lemma successes_filter (lg : list (handle * target * resolution)) :
  successes lg
  = map (fun e => snd (fst e)) (filter (fun e => is_success (snd e)) lg).
Proof.
  unfold successes. induction lg as [|[[h t] r] lg IH]; simpl;
    [reflexivity|].
  destruct r; simpl; now rewrite IH.
Qed.

Lemma NoDup_map_filter (A B : Type) (keep : A -> bool) (key : A -> B)
      (xs : list A) :
  NoDup (map key xs) -> NoDup (map key (filter keep xs)).
Proof.
  induction xs as [|x xs IH]; simpl; [auto|].
  intro H. inversion H as [|? ? Hnin Hnd]; subst.
  destruct (keep x); simpl; [|auto].
  constructor; [|auto].
  intro Hin. apply Hnin. apply in_map_iff in Hin.
  destruct Hin as [y [Hy Hin]]. apply filter_In in Hin.
  apply in_map_iff. exists y. tauto.
Qed.

Lemma firstn_In (A : Type) (n : nat) (l : list A) (x : A) :
  In x (firstn n l) -> In x l.
Proof.
  intro H. rewrite <- (firstn_skipn n l). apply in_or_app. now left.
Qed.

(** The targets of the resolved attempts are among the first targets of
    the sequence, as many times at most. *)
Lemma logged_targets ips ports (s : state) :
  reachable ips ports s ->
  exists rest,
    Permutation (firstn (length (admitted s)) (host_major ips ports))
                (rest ++ map (fun e => snd (fst e)) (log s)).
Proof.
  intro Hr. pose proof (wf_reachable Hr) as W.
  destruct (targets_ok_reachable Hr) as [G1 _].
  exists (map snd (map (@entry host port) (in_flight s))).
  rewrite <- G1, <- (map_map fst snd), <- map_app.
  apply Permutation_map, (wf_admitted W).
Qed.

Lemma results_incl ips ports (s : state) (t : target) :
  reachable ips ports s -> In t (results s) -> In t (host_major ips ports).
Proof.
  intros Hr Ht.
  pose proof (lo_results (log_ok_reachable Hr)) as L.
  destruct (logged_targets Hr) as [rest P].
  rewrite L, successes_filter in Ht.
  apply in_map_iff in Ht. destruct Ht as [e [<- He]].
  apply filter_In in He. destruct He as [He _].
  apply (@firstn_In _ (length (admitted s))).
  eapply Permutation_in; [apply Permutation_sym, P|].
  apply in_or_app. right. apply in_map_iff. eauto.
Qed.

Lemma host_major_In ips ports (ip : host) (p : port) :
  In (ip, p) (host_major ips ports) <-> In ip ips /\ In p ports.
Proof.
  unfold host_major. rewrite in_flat_map. split.
  - intros [ip' [Hip Hin]]. apply in_map_iff in Hin.
    destruct Hin as [p' [[= <- <-] Hp]]. auto.
  - intros [Hip Hp]. exists ip. split; [exact Hip|].
    apply in_map_iff. exists p. auto.
Qed.

(** X18. Every target in [results] is one of the pairs of [ips] and
    [ports]; [results] is never longer than the list of targets; and when
    neither [ips] nor [ports] repeats an element, no target is reported
    twice. *)
Theorem results_are_targets ips ports (s : state) :
  reachable ips ports s ->
  (forall ip p, In (ip, p) (results s) -> In ip ips /\ In p ports) /\
  (length (results s) <= length ips * length ports)%nat /\
  (NoDup ips -> NoDup ports -> NoDup (results s)).
Proof.
  intro Hr.
  pose proof (lo_results (log_ok_reachable Hr)) as L.
  destruct (logged_targets Hr) as [rest P].
  split; [|split].
  - intros ip p Hin. apply host_major_In. exact (@results_incl _ _ _ _ Hr Hin).
  - rewrite <- host_major_length.
    apply Permutation_length in P.
    rewrite length_app, length_map, length_firstn in P.
    rewrite L, successes_filter, length_map.
    pose proof (filter_length_le (fun e => is_success (snd e)) (log s)).
    lia.
  - intros Hi Hp. rewrite L, successes_filter.
    apply NoDup_map_filter.
    assert (Hnd : NoDup (firstn (length (admitted s)) (host_major ips ports))).
    { pose proof (host_major_NoDup Hi Hp) as K.
      rewrite <- (firstn_skipn (length (admitted s))
                               (host_major ips ports)) in K.
      now apply NoDup_app_remove_r in K. }
    eapply Permutation_NoDup in Hnd; [|exact P].
    now apply NoDup_app_remove_l in Hnd.
Qed.

Lemma NoDup_app_disjoint (A : Type) (l l' : list A) (x : A) :
  NoDup (l ++ l') -> In x l -> In x l' -> False.
Proof.
  induction l as [|y l IH]; simpl; [tauto|].
  intros H [-> | Hx] Hx'.
  - inversion H as [|? ? Hnin _]; subst. apply Hnin, in_or_app. now right.
  - inversion H; subst. now apply IH.
Qed.

Lemma admitted_bounds ips ports (s : state) :
  reachable ips ports s ->
  (length (admitted s) <= length ips * length ports)%nat /\
  (length (log s) <= length (admitted s))%nat.
Proof.
  intro Hr. pose proof (wf_reachable Hr) as W.
  destruct (targets_ok_reachable Hr) as [G1 _].
  pose proof (wf_admitted W) as P. apply Permutation_length in P.
  rewrite length_app, !length_map in P.
  split; [|lia].
  rewrite <- host_major_length.
  apply (f_equal (@length _)) in G1.
  rewrite length_map, length_firstn in G1. lia.
Qed.

(** X19. Between two steps of the loop (an admission, a poll, the
    handling of one ready socket, the sweep of one attempt) the selector
    holds exactly the sockets of [in_flight], each once and in the order
    of the dictionary, none of them closed; the sockets created so far
    are those in flight and those closed, as long as no system call has
    failed. *)
Theorem selector_tracks_in_flight ips ports (s : state) :
  reachable ips ports s ->
  registered s = dict_keys (in_flight s) /\
  NoDup (registered s) /\
  (forall h, In h (registered s) -> ~ In h (closed s)) /\
  (forall h, In h (registered s) \/ In h (closed s) -> (h < opened s)%nat) /\
  ((forall e, pc s <> Raised e) ->
   opened s = (length (in_flight s) + length (closed s))%nat).
Proof.
  intro Hr. pose proof (wf_reachable Hr) as W.
  pose proof (wf_log_NoDup W) as Hnd.
  pose proof (wf_admitted W) as P.
  assert (Hle : (length (admitted s) <= opened s)%nat).
  { pose proof (wf_opened W) as O. destruct (pc s); lia. }
  rewrite (wf_registered W), (wf_closed W).
  split; [reflexivity|]. split; [apply (wf_nodup W)|].
  split; [|split].
  - intros h Hh Hc.
    exact (@NoDup_app_disjoint _ _ _ h Hnd Hh Hc).
  - intros h Hh.
    assert (Hin : In h (map fst (admitted s))).
    { apply (Permutation_map fst) in P. rewrite map_app, !map_map in P.
      eapply Permutation_in; [apply Permutation_sym, P|].
      apply in_or_app. destruct Hh as [Hh | Hh]; [left | right].
      - unfold dict_keys in Hh. exact Hh.
      - unfold log_handle in Hh. exact Hh. }
    rewrite (wf_handles W) in Hin. apply in_seq in Hin. lia.
  - intro Hno. pose proof (wf_opened W) as O.
    apply Permutation_length in P.
    rewrite length_app, !length_map in P. rewrite length_map.
    destruct (pc s) eqn:Hpc; try lia.
    now destruct (Hno e).
Qed.

(** X20. Sockets are numbered in the order of their creation and the
    [k]-th admitted socket is for the [k]-th target of the sequence: the
    admitted attempts are a prefix of the targets, none skipped or taken
    twice, and as long as the scan has not raised the generator holds
    what follows that prefix (an admission that raises has taken its
    target and not admitted it). *)
Theorem attempts_follow_target_order ips ports (s : state) :
  reachable ips ports s ->
  let k := length (admitted s) in
  (k <= length ips * length ports)%nat /\
  admitted s = combine (seq 0 k) (firstn k (host_major ips ports)) /\
  ((forall e, pc s <> Raised e) ->
   host_major ips ports = map snd (admitted s) ++ remaining (tasks s)).
Proof.
  intros Hr k. pose proof (wf_reachable Hr) as W.
  destruct (targets_ok_reachable Hr) as [G1 G2]. fold k in G1, G2.
  split; [|split].
  - rewrite <- host_major_length.
    apply (f_equal (@length _)) in G1.
    rewrite length_map, length_firstn in G1. fold k in G1. lia.
  - rewrite (combine_fst_snd (admitted s)) at 1.
    now rewrite (wf_handles W), G1.
  - intro Hno. rewrite G1, (G2 Hno). symmetry. apply firstn_skipn.
Qed.

(** X21. Between two steps of the loop the progress bar counts the
    resolved attempts, one [update] for each [close()]; it never passes
    its total [len(ips) * len(ports)],
    and when [scan_sctp] returns with a positive [concurrency] it is at
    the total, every target has had its socket and the selector is
    empty. *)
Theorem progress_accounting ips ports (s : state) :
  reachable ips ports s ->
  advanced s = length (log s) /\
  advanced s = length (closed s) /\
  (advanced s <= length ips * length ports)%nat /\
  (length (results s) <= advanced s)%nat /\
  ((0 < concurrency)%Z -> pc s = Returned ->
   advanced s = (length ips * length ports)%nat /\
   opened s = (length ips * length ports)%nat /\
   registered s = [] /\ in_flight s = []).
Proof.
  intro Hr. pose proof (wf_reachable Hr) as W.
  pose proof (log_ok_reachable Hr) as L.
  destruct (admitted_bounds Hr) as [Hk _].
  pose proof (wf_admitted W) as P. apply Permutation_length in P.
  rewrite length_app, !length_map in P.
  split; [apply (lo_advanced L)|].
  split; [rewrite (wf_closed W), length_map; apply (lo_advanced L)|].
  split; [rewrite (lo_advanced L); lia|].
  split.
  - rewrite (lo_results L), successes_filter, length_map, (lo_advanced L).
    apply filter_length_le.
  - intros Hc Hret.
    pose proof (returned_empty Hr Hret) as Hin.
    pose proof (returned_admitted Hc Hr Hret) as Ha.
    apply (f_equal (@length _)) in Ha.
    rewrite length_combine, length_seq, Nat.min_id, host_major_length in Ha.
    pose proof (wf_opened W) as O. rewrite Hret in O.
    rewrite Hin in P. simpl in P.
    rewrite (wf_registered W), Hin, (lo_advanced L).
    repeat split; try reflexivity; lia.
Qed.

(** X22. With [concurrency <= 0] the refill loop admits nothing:
    whatever the targets, [scan_sctp] returns the empty list at its
    first [if not in_flight: break], no socket created and no poll
    made. *)
Theorem nonpositive_concurrency_scans_nothing ips ports (n : nat) :
  (concurrency <= 0)%Z -> selector_ok E = true -> (2 <= n)%nat ->
  scan_sctp E concurrency timeout n ips ports = Result [] /\
  opened (run n (init E ips ports)) = 0%nat /\
  polls (run n (init E ips ports)) = 0%nat /\
  admitted (run n (init E ips ports)) = [].
Proof.
  intros Hc Hsel Hn.
  assert (H2 : run 2 (init E ips ports)
               = goto Returned (goto AtPoll (init E ips ports))).
  { change 2%nat with (1 + 1)%nat. rewrite run_add.
    assert (H1 : run 1 (init E ips ports) = goto AtPoll (init E ips ports)).
    { change 1%nat with (S 0). rewrite run_S. simpl run.
      unfold Scan.step, init. rewrite Hsel. simpl.
      destruct (Z.ltb_spec 0 concurrency); [lia | reflexivity]. }
    rewrite H1. change 1%nat with (S 0). rewrite run_S. simpl run.
    unfold Scan.step, init. rewrite Hsel. reflexivity. }
  replace n with (2 + (n - 2))%nat by lia.
  unfold scan_sctp. rewrite run_add, H2.
  rewrite run_terminal by (left; reflexivity).
  unfold outcome_of, init. rewrite Hsel. simpl. auto.
Qed.

(** X23. [results] only grows: what a later state holds extends what an
    earlier state held, in the same order, and so does the journal of
    closed sockets. *)
Theorem results_append_only ips ports (s : state) (n : nat) :
  reachable ips ports s ->
  (exists l, results (run n s) = results s ++ l) /\
  (exists l, closed (run n s) = closed s ++ l) /\
  (advanced s <= advanced (run n s))%nat.
Proof.
  intro Hr.
  assert (Hr' : reachable ips ports (run n s)).
  { destruct Hr as [m ->]. exists (m + n)%nat. now rewrite run_add. }
  pose proof (log_ok_reachable Hr) as L.
  pose proof (log_ok_reachable Hr') as L'.
  pose proof (wf_reachable Hr) as W.
  pose proof (wf_reachable Hr') as W'.
  destruct (run_log E concurrency timeout n s) as [l Hl].
  split; [|split].
  - exists (successes l).
    now rewrite (lo_results L'), (lo_results L), Hl, successes_app.
  - exists (map (@log_handle host port) l).
    now rewrite (wf_closed W'), (wf_closed W), Hl, map_app.
  - rewrite (lo_advanced L'), (lo_advanced L), Hl, length_app. lia.
Qed.

End More.

End ScanMore.

(** ** [main] *)

Module Main.

Import Strings.String.
Import Py Inputs.
Local Open Scope Z_scope.

(** The parsed command line: [-i], [-p], [-c] and [-T]. *)
Record arguments : Type := mkArguments {
  arg_ips : string;
  arg_ports : string;
  arg_concurrency : Z;
  arg_timeout : Z
}.

(** The order of the tuples [(ip, port)]: the first components decide
    unless they are equal. *)
Definition tuple_leb (a b : string * Z) : bool :=
  if String.eqb (fst a) (fst b) then snd a <=? snd b
  else String.leb (fst a) (fst b).

(** What [main] prints before it returns; the rows of the table are
    [(ip, port)], the port shown as [str(port)]. *)
Inductive report : Type :=
| NoAliveHosts
| NoOpenPorts
| OpenPorts (rows : list (string * Z)).

(** The call of [main] an exception comes out of. *)
Inductive failure : Type :=
| InExpandIps
| InExpandPorts
| InFilterAlive
| InScan (e : Scan.exn).

Inductive outcome : Type :=
| Prints (r : report)
| Raises (f : failure)
| Scanning.

Section Program.

Variable py_int : string -> option Z.
Variable network_hosts : string -> option (list string).
Variable ipv4_int : string -> option Z.
Variable ipv4_str : Z -> option string.
Variable ping : string -> option Z.

(** The order in which the ping futures complete. *)
Variable order : list nat.

Variable E : Scan.env.

(** The ports [connect_ex] accepts, and those that fit a C [int]. *)
Definition port_in_range (p : Z) : bool := (0 <=? p) && (p <=? 65535).

Definition port_is_int (p : Z) : bool :=
  (-2147483648 <=? p) && (p <=? 2147483647).

(** What [connect_ex] does with a port, given what the host alone makes
    it do: the text of the host is checked first, then that the port is
    a C [int], then the host is resolved, then the port is compared
    with 0 and 65535. *)
Definition connect_with_port (c : Scan.connect_call) (p : Z)
  : Scan.connect_call :=
  match c with
  | Scan.NullInHost => Scan.NullInHost
  | Scan.BadPort => Scan.BadPort
  | Scan.BadHost => if port_is_int p then Scan.BadHost else Scan.BadPort
  | Scan.Returns => if port_in_range p then Scan.Returns else Scan.BadPort
  end.

(** The outside as the scan of [targets] meets it: the ports are those
    of the targets, the rest is as [E] has it. *)
Definition port_checked (targets : list (string * Z)) : Scan.env :=
  Scan.mkEnv (Scan.selector_ok E) (Scan.socket_ok E) (Scan.register_ok E)
             (Scan.wall E) (Scan.mono E) (Scan.reported E)
             (Scan.so_error E)
             (fun h =>
                match nth_error targets h with
                | Some (_, p) => connect_with_port (Scan.connect_ex E h) p
                | None => Scan.connect_ex E h
                end)
             (Scan.max_open E).

Definition main (fuel : nat) (args : arguments) : outcome :=
  match expand_ips network_hosts ipv4_int ipv4_str (arg_ips args) with
  | None => Raises InExpandIps
  | Some all_ips =>
      match expand_ports py_int (arg_ports args) with
      | None => Raises InExpandPorts
      | Some ports =>
          match filter_alive ping order all_ips with
          | None => Raises InFilterAlive
          | Some [] => Prints NoAliveHosts
          | Some alive_ips =>
              match Scan.scan_sctp
                      (port_checked (ProducerFacts.host_major alive_ips ports))
                      (arg_concurrency args) (arg_timeout args) fuel
                      alive_ips ports
              with
              | Scan.Result [] => Prints NoOpenPorts
              | Scan.Result open_ports =>
                  Prints (OpenPorts (sorted tuple_leb open_ports))
              | Scan.Exception _ _ e => Raises (InScan e)
              | Scan.Running _ _ => Scanning
              end
          end
      end
  end.

End Program.

End Main.

Module MainFacts.

Import Strings.String.
Import Py PyFacts Inputs InputsFacts Scan ScanFacts ScanMore Main.
Local Open Scope Z_scope.

Lemma tuple_leb_total (a b : string * Z) :
  tuple_leb a b = true \/ tuple_leb b a = true.
Proof.
  unfold tuple_leb. rewrite (String.eqb_sym (fst b) (fst a)).
  destruct (String.eqb (fst a) (fst b)).
  - rewrite !Z.leb_le. lia.
  - apply String.leb_total.
Qed.

Lemma tuple_leb_trans (a b c : string * Z) :
  tuple_leb a b = true -> tuple_leb b c = true -> tuple_leb a c = true.
Proof.
  unfold tuple_leb. destruct a as [a1 a2], b as [b1 b2], c as [c1 c2].
  cbn [fst snd].
  destruct (String.eqb a1 b1) eqn:Hab; destruct (String.eqb b1 c1) eqn:Hbc;
    destruct (String.eqb a1 c1) eqn:Hac;
    rewrite ?String.eqb_eq, ?String.eqb_neq in *; subst;
    try congruence; rewrite ?Z.leb_le; try lia; auto.
  - intros H1 H2. destruct Hab. now apply String.leb_antisym.
  - apply string_leb_trans.
Qed.

Section ProgramFacts.

Variable py_int : string -> option Z.
Variable network_hosts : string -> option (list string).
Variable ipv4_int : string -> option Z.
Variable ipv4_str : Z -> option string.
Variable ping : string -> option Z.
Variable order : list nat.
Variable E : Scan.env.

Local Abbreviation main :=
  (Main.main py_int network_hosts ipv4_int ipv4_str ping order E).

(** Only hosts of [ips] whose [ping] returned 0 are collected, whatever
    the order of completion. *)
Lemma collect_sound (ips : list string) (ord : list nat)
      (acc res : list string) :
  collect ping ips ord acc = Some res ->
  forall ip, In ip res -> In ip acc \/ (In ip ips /\ ping ip = Some 0).
Proof.
  revert acc. induction ord as [|i ord IH]; intros acc H ip Hin.
  - simpl in H. injection H as <-. now left.
  - cbn [collect] in H.
    destruct (nth_error ips i) as [x|] eqn:Hx; [|now apply (IH acc)].
    unfold ping_host in H.
    destruct (ping x) as [rc|] eqn:Hp; [|discriminate].
    destruct (Z.eqb_spec rc 0) as [-> | Hrc].
    + destruct (truthy (Some x)).
      * destruct (IH _ H ip Hin) as [Ha | Hb]; [|now right].
        apply in_app_or in Ha. destruct Ha as [Ha | [<- | []]].
        -- now left.
        -- right. split; [eapply nth_error_In; eassumption | exact Hp].
      * now apply (IH acc).
    + simpl in H. now apply (IH acc).
Qed.

(** What [main] has done when it prints the table. *)
Lemma main_table (fuel : nat) (args : arguments) (rows : list (string * Z)) :
  main fuel args = Prints (OpenPorts rows) ->
  exists all_ips ports alive_ips open_ports,
    expand_ips network_hosts ipv4_int ipv4_str (arg_ips args)
    = Some all_ips /\
    expand_ports py_int (arg_ports args) = Some ports /\
    filter_alive ping order all_ips = Some alive_ips /\
    alive_ips <> [] /\
    Scan.scan_sctp
      (port_checked E (ProducerFacts.host_major alive_ips ports))
      (arg_concurrency args) (arg_timeout args) fuel
      alive_ips ports = Result open_ports /\
    open_ports <> [] /\
    rows = sorted tuple_leb open_ports.
Proof.
  unfold Main.main. intro H.
  destruct (expand_ips _ _ _ _) as [all_ips|] eqn:H1; [|discriminate].
  destruct (expand_ports _ _) as [ports|] eqn:H2; [|discriminate].
  destruct (filter_alive _ _ _) as [alive|] eqn:H3; [|discriminate].
  destruct alive as [|a alive]; [discriminate|].
  destruct (scan_sctp _ _ _ _ _ _) as [rs| |] eqn:Hs; try discriminate.
  destruct rs as [|r rs]; [discriminate|].
  injection H as <-.
  exists all_ips, ports, (a :: alive), (r :: rs).
  repeat split; auto; discriminate.
Qed.

(** X24. The table [main] prints is not empty and is in ascending order
    of [(ip, port)]; each of its rows has an address of
    [expand_ips(args.ips)] whose [ping] returned 0 and a port of
    [expand_ports(args.ports)]. *)
Theorem main_rows (fuel : nat) (args : arguments)
        (rows : list (string * Z)) :
  main fuel args = Prints (OpenPorts rows) ->
  rows <> [] /\
  StronglySorted (fun a b => tuple_leb a b = true) rows /\
  forall ip p,
    In (ip, p) rows ->
    (exists all_ips,
        expand_ips network_hosts ipv4_int ipv4_str (arg_ips args)
        = Some all_ips /\ In ip all_ips) /\
    ping ip = Some 0 /\
    (exists ports,
        expand_ports py_int (arg_ports args) = Some ports /\ In p ports).
Proof.
  intro H. apply main_table in H.
  destruct H as (all_ips & ports & alive & rs & H1 & H2 & H3 & _ & H4 & H5
                 & ->).
  split; [|split].
  - intro Hnil. apply H5.
    pose proof (sorted_perm tuple_leb rs) as P. rewrite Hnil in P.
    now apply Permutation_nil in P.
  - apply sorted_sorted; [apply tuple_leb_total | apply tuple_leb_trans].
  - intros ip p Hin.
    apply (Permutation_in _ (sorted_perm tuple_leb rs)) in Hin.
    unfold scan_sctp, outcome_of in H4.
    set (W := port_checked E (ProducerFacts.host_major alive ports)) in *.
    destruct (pc (run W (arg_concurrency args) (arg_timeout args) fuel
                      (init W alive ports))) eqn:Hpc; try discriminate.
    injection H4 as <-.
    assert (Hr : reachable W (arg_concurrency args) (arg_timeout args)
                           alive ports
                           (run W (arg_concurrency args) (arg_timeout args)
                                fuel (init W alive ports)))
      by (exists fuel; reflexivity).
    pose proof (@results_incl _ _ _ _ _ _ _ _ _ Hr Hin) as Ht.
    apply host_major_In in Ht. destruct Ht as [Hip Hp].
    destruct (collect_sound _ _ _ H3 ip Hip) as [[] | [Hall Hping]].
    repeat split; eauto.
Qed.

Lemma port_checked_succeeds (targets : list (string * Z)) (c : Z) :
  calls_succeed E c ->
  (forall ip p, In (ip, p) targets -> port_in_range p = true) ->
  calls_succeed (port_checked E targets) c.
Proof.
  intros (H1 & H2 & H3 & H4 & H5) Hports.
  repeat split; simpl; auto.
  intro h. rewrite H3.
  destruct (nth_error targets h) as [[ip p]|] eqn:Hn; [|reflexivity].
  apply nth_error_In in Hn. unfold connect_with_port.
  now rewrite (Hports ip p Hn).
Qed.

(** X25. With a clock that passes [timeout] within [D] readings [main]
    comes to an end: from some number of transitions of [scan_sctp] on
    it has printed one of its reports or raised, in [expand_ips],
    [expand_ports], [filter_alive] or the scan, and more transitions
    change nothing. The scan raises nothing when no system call fails
    and every port of [expand_ports] is in 0..65535. *)
Theorem main_finishes (args : arguments) (D : nat) :
  clock_advances E (arg_timeout args) D ->
  exists n, forall fuel,
      (n <= fuel)%nat ->
      main fuel args = main n args /\
      main fuel args <> Scanning /\
      (calls_succeed E (arg_concurrency args) ->
       (forall ports p,
           expand_ports py_int (arg_ports args) = Some ports ->
           In p ports -> port_in_range p = true) ->
       forall e, main fuel args <> Raises (InScan e)).
Proof.
  intros Hclock.
  unfold Main.main.
  destruct (expand_ips _ _ _ _) as [all_ips|];
    [|exists 0%nat; intros; repeat split; intros; discriminate].
  destruct (expand_ports _ _) as [ports|];
    [|exists 0%nat; intros; repeat split; intros; discriminate].
  destruct (filter_alive _ _ _) as [alive|];
    [|exists 0%nat; intros; repeat split; intros; discriminate].
  destruct alive as [|a alive];
    [exists 0%nat; intros; repeat split; intros; discriminate|].
  set (W := port_checked E (ProducerFacts.host_major (a :: alive) ports)).
  assert (Hclock' : clock_advances W (arg_timeout args) D) by exact Hclock.
  destruct (@scan_reaches_terminal _ _ W (arg_concurrency args)
              (arg_timeout args) D Hclock' (a :: alive) ports)
    as [n Hterm].
  exists n. intros fuel Hle.
  assert (Hrun : run W (arg_concurrency args) (arg_timeout args) fuel
                     (init W (a :: alive) ports)
                 = run W (arg_concurrency args) (arg_timeout args) n
                       (init W (a :: alive) ports)).
  { replace fuel with (n + (fuel - n))%nat by lia.
    rewrite run_add. now apply run_terminal. }
  unfold scan_sctp, outcome_of. rewrite Hrun.
  split; [reflexivity|].
  destruct Hterm as [Hret | [e Hexn]].
  - rewrite Hret.
    destruct (results _) as [|r rs]; split; intros; discriminate.
  - rewrite Hexn. split; [discriminate|].
    intros Hcalls Hports e' _.
    assert (Hr : reachable W (arg_concurrency args) (arg_timeout args)
                   (a :: alive) ports
                   (run W (arg_concurrency args) (arg_timeout args) n
                        (init W (a :: alive) ports)))
      by (exists n; reflexivity).
    destruct (raised_by_failing_call Hr Hexn) as [_ Hf].
    assert (Hin : forall ip p,
               In (ip, p) (ProducerFacts.host_major (a :: alive) ports) ->
               port_in_range p = true).
    { intros ip p Hin. apply host_major_In in Hin.
      exact (Hports ports p eq_refl (proj2 Hin)). }
    exact (calls_succeed_not_fails
             (@port_checked_succeeds _ _ Hcalls Hin) Hf).
Qed.

End ProgramFacts.

End MainFacts.

(** ** Examples *)

Module Examples.

Import Strings.String Strings.Ascii.
Import Struct StructUnpack StructFacts Connect.
Import Py PyFacts Inputs InputsFacts.
Local Open Scope Z_scope.

(** *** The outside, for the examples *)

Definition is_digit (c : ascii) : bool :=
  let n := N_of_ascii c in ((48 <=? n) && (n <=? 57))%N.

Definition digit_value (c : ascii) : Z := Z.of_N (N_of_ascii c - 48).

Fixpoint all_digits (s : string) : bool :=
  match s with
  | EmptyString => true
  | String c rest => is_digit c && all_digits rest
  end.

(** The digits of a numeral, where one underscore may stand between two
    digits; [after_digit] says whether the character before was a
    digit. *)
Fixpoint digits (s : string) (acc : Z) (after_digit : bool) : option Z :=
  match s with
  | EmptyString => if after_digit then Some acc else None
  | String c rest =>
      if is_digit c then digits rest (10 * acc + digit_value c) true
      else if Ascii.eqb c "_" && after_digit then digits rest acc false
      else None
  end.

(** The white space [int] drops around a numeral: that of [str.strip]
    but the four separators 28 to 31. *)
Definition int_space (c : ascii) : bool :=
  let n := N_of_ascii c in
  is_space c && negb ((28 <=? n) && (n <=? 31))%N.

Fixpoint drop_left (s : string) : string :=
  match s with
  | EmptyString => EmptyString
  | String c rest => if int_space c then drop_left rest else s
  end.

Fixpoint drop_right (s : string) : string :=
  match s with
  | EmptyString => EmptyString
  | String c rest =>
      match drop_right rest with
      | EmptyString => if int_space c then EmptyString
                       else String c EmptyString
      | r => String c r
      end
  end.

(** [int] on a string of characters below 256, in base ten: the white
    space around the numeral is dropped and one sign may come first. *)
Definition int_of_numeral (s : string) : option Z :=
  match drop_right (drop_left s) with
  | EmptyString => None
  | String c rest =>
      if Ascii.eqb c "+" then digits rest 0 false
      else if Ascii.eqb c "-" then option_map Z.opp (digits rest 0 false)
      else digits (String c rest) 0 false
  end.

(** The decimal numeral of an integer from 0 to 999. *)
Definition digit_char (d : Z) : ascii := ascii_of_N (48 + Z.to_N d).

Definition numeral (n : Z) : string :=
  if n <? 10 then String (digit_char n) EmptyString
  else if n <? 100
       then String (digit_char (n / 10))
                   (String (digit_char (n mod 10)) EmptyString)
       else String (digit_char (n / 100))
                   (String (digit_char (n / 10 mod 10))
                           (String (digit_char (n mod 10)) EmptyString)).

(** One of the four numbers of an IPv4 address: one to three digits, no
    zero in front of another digit, at most 255. *)
Definition octet (s : string) : option Z :=
  let leading_zero :=
    match s with
    | String c (String _ _) => Ascii.eqb c "0"
    | _ => false
    end in
  if all_digits s && (String.length s <=? 3)%nat && negb leading_zero
  then match digits s 0 false with
       | Some v => if v <=? 255 then Some v else None
       | None => None
       end
  else None.

(** [10.0.0.0] as an integer. *)
Definition ten : Z := 167772160.

(** [str(ipaddress.IPv4Address(i))] for an integer [i]. *)
Definition str_of_address (i : Z) : option string :=
  if (0 <=? i) && (i <? 4294967296)
  then Some (numeral (i / 16777216) ++ "." ++
             numeral (i / 65536 mod 256) ++ "." ++
             numeral (i / 256 mod 256) ++ "." ++
             numeral (i mod 256))%string
  else None.

(** [int(ipaddress.IPv4Address(s))] for a string [s]. *)
Definition address_of_str (s : string) : option Z :=
  match split_all "." s with
  | [a; b; c; d] =>
      match octet a, octet b, octet c, octet d with
      | Some a, Some b, Some c, Some d =>
          Some (((a * 256 + b) * 256 + c) * 256 + d)
      | _, _, _, _ => None
      end
  | _ => None
  end.

(** The length of the prefix that the text after the slash gives: a
    number from 0 to 32, or a net mask, or else a host mask. *)
Definition netmask (p : Z) : Z := 4294967296 - 2 ^ (32 - p).

Definition prefix_of_mask (v : Z) : option Z :=
  find (fun p => netmask p =? v) (py_range 0 33).

Definition prefix_length (m : string) : option Z :=
  match m with
  | EmptyString => None
  | _ =>
      if all_digits m
      then match digits m 0 false with
           | Some p => if p <=? 32 then Some p else None
           | None => None
           end
      else match address_of_str m with
           | Some v =>
               match prefix_of_mask v with
               | Some p => Some p
               | None => prefix_of_mask (4294967295 - v)
               end
           | None => None
           end
  end.

(** [[str(ip) for ip in ipaddress.ip_network(s, strict=False).hosts()]]
    for the IPv4 networks: the addresses of the network but its first
    and its last, both addresses of a network of two, the address of a
    network of one. The IPv6 networks are left out: a text with a colon
    gets no answer. *)
Definition hosts_of_network (s : string) : option (list string) :=
  match split_all "/" s with
  | [a; m] =>
      match address_of_str a, prefix_length m with
      | Some v, Some p =>
          let size := 2 ^ (32 - p) in
          let network := v - v mod size in
          all_or_none str_of_address
            (if p =? 32 then [network]
             else if p =? 31 then [network; network + 1]
             else py_range (network + 1) (network + size - 1))
      | _, _ => None
      end
  | _ => None
  end.

(** [10.0.0.2] is down; a text with a null character cannot be passed to
    [ping]. *)
Definition ping_rc (ip : string) : option Z :=
  if contains zero ip then None
  else if String.eqb ip "10.0.0.2" then Some 1
  else Some 0.

(** *** [struct] *)

Lemma unpack_pack_witness :
  pack [FmtI; FmtB] [305419896; 255] = Some [x12; x34; x56; x78; xff] /\
  List.length [x12; x34; x56; x78; xff] = calcsize [FmtI; FmtB] /\
  unpack [FmtI; FmtB] [x12; x34; x56; x78; xff] = Some [305419896; 255].
Proof.
  assert (H : pack [FmtI; FmtB] [305419896; 255]
              = Some [x12; x34; x56; x78; xff])
    by (vm_compute; reflexivity).
  split; [exact H|].
  exact (@unpack_pack [FmtI; FmtB] [305419896; 255] _ H).
Defined.

Lemma pack_unpack_witness :
  unpack [FmtB; FmtI] [x03; x00; x00; x01; x00] = Some [3; 256] /\
  Forall2 in_range [FmtB; FmtI] [3; 256] /\
  pack [FmtB; FmtI] [3; 256] = Some [x03; x00; x00; x01; x00].
Proof.
  assert (H : unpack [FmtB; FmtI] [x03; x00; x00; x01; x00]
              = Some [3; 256])
    by (vm_compute; reflexivity).
  split; [exact H|].
  exact (proj2 (pack_unpack [FmtB; FmtI] [x03; x00; x00; x01; x00]) _ H).
Defined.


(** *** [test_m3ua] *)

Section M3uaExamples.

Import M3uaTest M3uaFacts.

Definition typed : list string := ["10.0.0.1"; "2905"]%string.

(** The local port 2905 is taken: [bind] fails. *)
Definition E_bind_fails : M3uaTest.env :=
  M3uaTest.mkEnv typed true false true true None.

(** No SCTP support: the socket cannot be created. *)
Definition E_no_sctp : M3uaTest.env :=
  M3uaTest.mkEnv typed false true true true None.

(** The peer answers with three bytes. *)
Definition E_short_answer : M3uaTest.env :=
  M3uaTest.mkEnv typed true true true true (Some [x01; x00; x03]).

(** The peer answers with an ASPUP_ACK and an INFO string after it; the
    version and the length of the header are wrong. *)
Definition E_ack : M3uaTest.env :=
  M3uaTest.mkEnv typed true true true true
    (Some [x07; x00; x03; x04; x00; x00; x00; x00; x00; x04; x00; x05; x61]).

Lemma test_m3ua_closes_once_witness :
  snd (test_m3ua int_of_numeral E_bind_fails) = inr tt /\
  exists tr,
    fst (test_m3ua int_of_numeral E_bind_fails)
    = tr ++ [Close; Print MsgClosed] /\
    filter is_close tr = [].
Proof.
  apply (@test_m3ua_closes_once int_of_numeral E_bind_fails
           "10.0.0.1" "2905" [] 2905);
    vm_compute; reflexivity.
Defined.

Lemma test_m3ua_unbound_sock_witness :
  test_m3ua int_of_numeral E_no_sctp
  = ([ReadLine; ReadLine; Create; Print (MsgError M3uaTest.OSError)],
     inl UnboundLocalError).
Proof.
  apply (@test_m3ua_unbound_sock int_of_numeral E_no_sctp
           "10.0.0.1" "2905" [] 2905);
    vm_compute; reflexivity.
Defined.

Lemma test_m3ua_error_reported_witness :
  exists e,
    In (Print (MsgError e)) (fst (test_m3ua int_of_numeral E_short_answer)).
Proof.
  apply (@test_m3ua_error_reported int_of_numeral E_short_answer
           "10.0.0.1" "2905" [] 2905);
    try (vm_compute; reflexivity).
  intros (_ & _ & _ & bs & Hbs & Hlen).
  injection Hbs as <-. destruct Hlen as [Hnil | Hlen];
    [discriminate | simpl in Hlen; lia].
Defined.

Lemma test_m3ua_ack_iff_witness :
  In (Print MsgAck) (fst (test_m3ua int_of_numeral E_ack)).
Proof.
  apply (@test_m3ua_ack_iff int_of_numeral E_ack
           "10.0.0.1" "2905" [] 2905);
    try (vm_compute; reflexivity).
  repeat (split; [reflexivity|]).
  eexists. split; [reflexivity|].
  split; [simpl; lia|]. split; reflexivity.
Defined.

End M3uaExamples.

(** *** [expand_ports] and [expand_ips] *)

Lemma expand_ports_range_witness :
  exists ports,
    expand_ports int_of_numeral "2905-2910" = Some ports /\
    List.length ports = Z.to_nat (2910 - 2905 + 1) /\
    (forall p, In p ports <-> 2905 <= p <= 2910) /\
    StronglySorted Z.lt ports /\
    (2910 < 2905 -> ports = []).
Proof.
  apply (@expand_ports_range int_of_numeral "2905" "2910" 2905 2910);
    vm_compute; reflexivity.
Defined.

(** A reversed range, a range with a bound that is no numeral, a single
    port and a negative number. *)
Lemma expand_ports_errors_witness :
  expand_ports int_of_numeral "2910-x" = None /\
  expand_ports int_of_numeral "2905" = Some [2905] /\
  expand_ports int_of_numeral "-1" = None.
Proof.
  destruct (expand_ports_errors int_of_numeral "2910-x") as (H1 & _ & _).
  destruct (expand_ports_errors int_of_numeral "2905") as (_ & H2 & _).
  destruct (expand_ports_errors int_of_numeral "-1") as (_ & _ & H3).
  split; [|split].
  - apply H1. right. exists "2910"%string, "x"%string.
    repeat split; try reflexivity. now right.
  - apply H2; vm_compute; reflexivity.
  - apply H3. reflexivity.
Defined.

Lemma expand_ips_sorted_witness :
  expand_ips hosts_of_network address_of_str str_of_address
             "10.0.0.9,10.0.0.10,10.0.0.9"
  = Some ["10.0.0.10"; "10.0.0.9"]%string /\
  StronglySorted (fun x y => String.leb x y = true)
                 ["10.0.0.10"; "10.0.0.9"]%string /\
  NoDup ["10.0.0.10"; "10.0.0.9"]%string.
Proof.
  assert (H : expand_ips hosts_of_network address_of_str str_of_address
                         "10.0.0.9,10.0.0.10,10.0.0.9"
              = Some ["10.0.0.10"; "10.0.0.9"]%string)
    by (vm_compute; reflexivity).
  split; [exact H|].
  exact (@expand_ips_sorted hosts_of_network address_of_str str_of_address
           _ _ H).
Defined.

Lemma expand_ips_members_witness :
  expand_ips hosts_of_network address_of_str str_of_address
             "10.0.0.0/30, 10.0.0.7"
  = Some ["10.0.0.1"; "10.0.0.2"; "10.0.0.7"]%string /\
  (exists part added,
      In part (split_all "," "10.0.0.0/30, 10.0.0.7") /\
      part_ips hosts_of_network address_of_str str_of_address part
      = Some added /\
      In "10.0.0.2"%string added) /\
  expand_ips hosts_of_network address_of_str str_of_address
             "10.0.0.7,10.0.0.0/33"
  = None.
Proof.
  assert (H : expand_ips hosts_of_network address_of_str str_of_address
                         "10.0.0.0/30, 10.0.0.7"
              = Some ["10.0.0.1"; "10.0.0.2"; "10.0.0.7"]%string)
    by (vm_compute; reflexivity).
  split; [exact H|]. split.
  - apply (proj1 (@expand_ips_members hosts_of_network address_of_str
                    str_of_address "10.0.0.0/30, 10.0.0.7") _ H).
    simpl. auto.
  - apply (proj2 (@expand_ips_members hosts_of_network address_of_str
                    str_of_address "10.0.0.7,10.0.0.0/33")).
    exists "10.0.0.0/33"%string. split; [simpl; auto | reflexivity].
Defined.

Lemma expand_ips_plain_witness :
  expand_ips hosts_of_network address_of_str str_of_address " scanme "
  = Some ["scanme"%string].
Proof.
  apply (@expand_ips_plain hosts_of_network address_of_str str_of_address
           " scanme "); reflexivity.
Defined.

Lemma expand_ips_range_witness :
  exists ips,
    expand_ips hosts_of_network address_of_str str_of_address
               "10.0.0.1-10.0.0.3" = Some ips /\
    (forall ip, In ip ips <->
                exists i, ten + 1 <= i <= ten + 3 /\
                          str_of_address i = Some ip) /\
    (ten + 3 < ten + 1 -> ips = []).
Proof.
  apply (@expand_ips_range hosts_of_network address_of_str str_of_address
           "10.0.0.1" "10.0.0.3" (ten + 1) (ten + 3));
    [vm_compute; reflexivity .. |].
  intros i Hi. unfold str_of_address, ten in *.
  destruct (Z.leb_spec 0 i); [|lia].
  destruct (Z.ltb_spec i 4294967296); [|lia].
  discriminate.
Defined.

(** *** [filter_alive] *)

(** The third ping completes first. *)
Lemma filter_alive_permutation_witness :
  exists alive,
    filter_alive ping_rc [2; 0; 1]%nat
                 ["10.0.0.1"; "10.0.0.2"; "10.0.0.3"]%string = Some alive /\
    alive = ["10.0.0.3"; "10.0.0.1"]%string /\
    Permutation alive ["10.0.0.1"; "10.0.0.3"]%string.
Proof.
  destruct (@filter_alive_permutation ping_rc [2; 0; 1]%nat
              ["10.0.0.1"; "10.0.0.2"; "10.0.0.3"]%string)
    as (alive & H1 & H2 & H3 & _).
  - apply Permutation_sym.
    apply (perm_trans (l' := [0; 2; 1]%nat));
      [apply perm_skip, perm_swap | apply perm_swap].
  - intros ip [<- | [<- | [<- | []]]]; discriminate.
  - exists alive. split; [exact H1|]. split; [exact H2|]. exact H3.
Defined.

Lemma filter_alive_raises_witness :
  filter_alive ping_rc [1; 0]%nat
               ["10.0.0.1"; String zero EmptyString]%string = None.
Proof.
  apply (@filter_alive_raises ping_rc [1; 0]%nat
           ["10.0.0.1"; String zero EmptyString]%string
           (String zero EmptyString)).
  - apply perm_swap.
  - simpl. auto.
  - reflexivity.
Defined.


(** *** [scan_sctp] *)

Section ScanExamples.

Import Producer Scan ProducerFacts ScanFacts ScanMore.

(** One host, three ports, two sockets at a time; the first two sockets
    are writable at every poll and the third attempt times out. The scan
    at its first poll and at its end. *)
Definition s_mid : Scan.state nat nat :=
  Scan.run E_both 2 5 4 (init E_both [7%nat] [1; 2; 3]%nat).

Definition s_end : Scan.state nat nat :=
  Scan.run E_both 2 5 40 (init E_both [7%nat] [1; 2; 3]%nat).

Lemma s_mid_reachable : reachable E_both 2 5 [7%nat] [1; 2; 3]%nat s_mid.
Proof. exists 4%nat. reflexivity. Defined.

Lemma s_end_reachable : reachable E_both 2 5 [7%nat] [1; 2; 3]%nat s_end.
Proof. exists 40%nat. reflexivity. Defined.

Lemma results_are_targets_witness :
  results s_end = [(7%nat, 1%nat)] /\
  (forall ip p, In (ip, p) (results s_end) ->
                In ip [7%nat] /\ In p [1; 2; 3]%nat) /\
  (List.length (results s_end) <= 1 * 3)%nat /\
  (NoDup [7%nat] -> NoDup [1; 2; 3]%nat -> NoDup (results s_end)).
Proof.
  split; [vm_compute; reflexivity|].
  exact (results_are_targets s_end_reachable).
Defined.

Lemma selector_tracks_in_flight_witness :
  registered s_mid = [0; 1]%nat /\
  registered s_mid = dict_keys (in_flight s_mid) /\
  NoDup (registered s_mid) /\
  (forall h, In h (registered s_mid) -> ~ In h (closed s_mid)) /\
  (forall h, In h (registered s_mid) \/ In h (closed s_mid) ->
             (h < opened s_mid)%nat) /\
  ((forall e, pc s_mid <> Raised e) ->
   opened s_mid
   = (List.length (in_flight s_mid) + List.length (closed s_mid))%nat).
Proof.
  split; [vm_compute; reflexivity|].
  exact (selector_tracks_in_flight s_mid_reachable).
Defined.

Lemma attempts_follow_target_order_witness :
  admitted s_mid = [(0%nat, (7%nat, 1%nat)); (1%nat, (7%nat, 2%nat))] /\
  (List.length (admitted s_mid) <= 1 * 3)%nat /\
  admitted s_mid
  = combine (seq 0 (List.length (admitted s_mid)))
            (firstn (List.length (admitted s_mid))
                    (host_major [7%nat] [1; 2; 3]%nat)) /\
  ((forall e, pc s_mid <> Raised e) ->
   host_major [7%nat] [1; 2; 3]%nat
   = map snd (admitted s_mid) ++ remaining (tasks s_mid)).
Proof.
  split; [vm_compute; reflexivity|].
  exact (attempts_follow_target_order s_mid_reachable).
Defined.

Lemma progress_accounting_witness :
  pc s_end = Returned /\
  advanced s_end = 3%nat /\
  opened s_end = 3%nat /\
  registered s_end = [] /\ in_flight s_end = [].
Proof.
  assert (Hpc : pc s_end = Returned) by (vm_compute; reflexivity).
  split; [exact Hpc|].
  destruct (progress_accounting s_end_reachable) as (_ & _ & _ & _ & H).
  apply H; [reflexivity | exact Hpc].
Defined.

Lemma nonpositive_concurrency_scans_nothing_witness :
  scan_sctp E_both 0 5 2 [7%nat] [1; 2; 3]%nat = Result [] /\
  opened (Scan.run E_both 0 5 2 (init E_both [7%nat] [1; 2; 3]%nat))
  = 0%nat /\
  polls (Scan.run E_both 0 5 2 (init E_both [7%nat] [1; 2; 3]%nat))
  = 0%nat /\
  admitted (Scan.run E_both 0 5 2 (init E_both [7%nat] [1; 2; 3]%nat)) = [].
Proof.
  apply (@nonpositive_concurrency_scans_nothing nat nat E_both 0 5
           [7%nat] [1; 2; 3]%nat 2); [lia | reflexivity | lia].
Defined.

Lemma results_append_only_witness :
  Scan.run E_both 2 5 36 s_mid = s_end /\
  (exists l, results (Scan.run E_both 2 5 36 s_mid) = results s_mid ++ l) /\
  (exists l, closed (Scan.run E_both 2 5 36 s_mid) = closed s_mid ++ l) /\
  (advanced s_mid <= advanced (Scan.run E_both 2 5 36 s_mid))%nat.
Proof.
  split; [vm_compute; reflexivity|].
  exact (results_append_only 36 s_mid_reachable).
Defined.

End ScanExamples.

(** *** [main] *)

Section MainExamples.

Import Scan ScanFacts Main MainFacts.

(** Every socket is writable at every poll. *)
Definition E_all : Scan.env :=
  env_demo unlimited steady (fun _ => [0; 1; 2; 3]%nat).

Definition typed_args : arguments :=
  mkArguments "10.0.0.1-10.0.0.3" "2905-2906" 2 5.

(** The third ping completes first, so [10.0.0.3] is scanned first and
    found first; the table has it last. *)
Lemma main_rows_witness :
  let rows := [("10.0.0.1"%string, 2905); ("10.0.0.3"%string, 2905)] in
  Main.main int_of_numeral hosts_of_network address_of_str str_of_address
            ping_rc [2; 0; 1]%nat E_all 60 typed_args
  = Prints (OpenPorts rows) /\
  rows <> [] /\
  StronglySorted (fun a b => tuple_leb a b = true) rows /\
  forall ip p,
    In (ip, p) rows ->
    (exists all_ips,
        expand_ips hosts_of_network address_of_str str_of_address
                   (arg_ips typed_args) = Some all_ips /\ In ip all_ips) /\
    ping_rc ip = Some 0 /\
    (exists ports,
        expand_ports int_of_numeral (arg_ports typed_args) = Some ports /\
        In p ports).
Proof.
  intro rows.
  assert (H : Main.main int_of_numeral hosts_of_network address_of_str
                        str_of_address ping_rc [2; 0; 1]%nat E_all 60
                        typed_args
              = Prints (OpenPorts rows)) by (vm_compute; reflexivity).
  split; [exact H|].
  exact (@main_rows int_of_numeral hosts_of_network address_of_str
           str_of_address ping_rc [2; 0; 1]%nat E_all 60 typed_args rows H).
Defined.

(** The same scan comes to an end without an exception; with the port
    70000 the first [connect_ex] raises [OverflowError]. *)
Lemma main_finishes_witness :
  clock_advances E_all (arg_timeout typed_args) 5 /\
  calls_succeed E_all (arg_concurrency typed_args) /\
  (exists n, forall fuel,
      (n <= fuel)%nat ->
      Main.main int_of_numeral hosts_of_network address_of_str
                str_of_address ping_rc [2; 0; 1]%nat E_all fuel typed_args
      = Main.main int_of_numeral hosts_of_network address_of_str
                  str_of_address ping_rc [2; 0; 1]%nat E_all n typed_args /\
      Main.main int_of_numeral hosts_of_network address_of_str
                str_of_address ping_rc [2; 0; 1]%nat E_all fuel typed_args
      <> Scanning /\
      forall e,
        Main.main int_of_numeral hosts_of_network address_of_str
                  str_of_address ping_rc [2; 0; 1]%nat E_all fuel typed_args
        <> Raises (InScan e)) /\
  Main.main int_of_numeral hosts_of_network address_of_str str_of_address
            ping_rc [2; 0; 1]%nat E_all 60
            (mkArguments "10.0.0.1-10.0.0.3" "70000" 2 5)
  = Raises (InScan OverflowError).
Proof.
  assert (Hclock : clock_advances E_all (arg_timeout typed_args) 5)
    by exact (steady_advances unlimited (fun _ => [0; 1; 2; 3]%nat)).
  assert (Hcalls : calls_succeed E_all (arg_concurrency typed_args)).
  { repeat split; try reflexivity. intros limit H. discriminate H. }
  assert (Hports : forall ports p,
             expand_ports int_of_numeral (arg_ports typed_args) = Some ports ->
             In p ports -> port_in_range p = true).
  { intros ports p H. vm_compute in H. injection H as <-.
    intros [<- | [<- | []]]; reflexivity. }
  split; [exact Hclock|]. split; [exact Hcalls|].
  split; [|vm_compute; reflexivity].
  destruct (@main_finishes int_of_numeral hosts_of_network address_of_str
              str_of_address ping_rc [2; 0; 1]%nat E_all typed_args 5
              Hclock) as [n H].
  exists n. intros fuel Hle.
  destruct (H fuel Hle) as (H1 & H2 & H3).
  split; [exact H1|]. split; [exact H2|].
  exact (H3 Hcalls Hports).
Defined.

End MainExamples.

End Examples.
